(** * actions-dependency-submission: reference extraction, traversal, submission

    A shallow embedding of the TypeScript sources

      - src/workflow-parser.ts      (parseWorkflowFile, parseActionUses, ...)
      - src/dependency-scanner.ts   (scanDependencies, resolveLocalPath, ...)
      - src/dependency-submission.ts (submitDependencies, convertToPackageUrl)

    together with the properties the specification states about them.

    Conventions.  A JavaScript string is represented by the bytes of its
    UTF-8 encoding (a Rocq [string]); every character the code inspects
    ('/', '@', '.', '\', line terminators) is unambiguous in that encoding.
    A JavaScript exception is an explicit [Throw] result.  [Set<string>] is
    a [gset string]; [Map<string, V>] keeps insertion order, which the code
    iterates over, and is therefore an association list. *)

From Stdlib Require Import Ascii String List Bool Arith Lia.
From stdpp Require Import base option list strings gmap sets.

Set Warnings "-register-all".
Local Open Scope string_scope.
Local Open Scope list_scope.

(** ** JavaScript results *)

Inductive Exc (A : Type) : Type :=
| Ok (a : A)
| Throw.
Arguments Ok {A} a.
Arguments Throw {A}.

Definition exc_bind {A B} (m : Exc A) (k : A -> Exc B) : Exc B :=
  match m with
  | Ok a => k a
  | Throw => Throw
  end.

Notation "'let*' x ':=' m 'in' k" := (exc_bind m (fun x => k))
  (at level 10, x name, m at level 100, k at level 200).

(** [try { ... } catch { return d }] *)
Definition catch {A} (m : Exc A) (d : A) : A :=
  match m with
  | Ok a => a
  | Throw => d
  end.

(** ** String primitives of the JavaScript runtime *)

(** [s.startsWith(p)] *)
Definition startsWith (s p : string) : bool := String.prefix p s.

(** [s.endsWith(p)]: [s] is [p], or the rest of [s] ends with [p]. *)
Fixpoint endsWith (s p : string) : bool :=
  String.eqb s p ||
  match s with
  | EmptyString => false
  | String _ rest => endsWith rest p
  end.

Definition chr_slash : ascii := "/"%char.
Definition chr_at : ascii := "@"%char.

(** The characters the regular-expression atom [.] refuses: LF, CR and the
    UTF-8 encodings of U+2028 and U+2029. *)
Fixpoint has_line_terminator (s : string) : bool :=
  match s with
  | EmptyString => false
  | String c rest =>
      if Ascii.eqb c "010"%char then true
      else if Ascii.eqb c "013"%char then true
      else if startsWith s (String "226" (String "128" (String "168" "")))
      then true
      else if startsWith s (String "226" (String "128" (String "169" "")))
      then true
      else has_line_terminator rest
  end.

(** Split at the first occurrence of [c]: [Some (before, after)]. *)
Fixpoint split_first (c : ascii) (s : string) : option (string * string) :=
  match s with
  | EmptyString => None
  | String a rest =>
      if Ascii.eqb a c then Some (EmptyString, rest)
      else match split_first c rest with
           | Some (l, r) => Some (String a l, r)
           | None => None
           end
  end.

(** [uses.match(/^([^@]+)@(.+)$/)]: the first group cannot cross an '@', so
    it is the text before the first '@' and must be non-empty; the second
    group is the whole remainder, non-empty and free of line terminators. *)
Definition match_name_ref (uses : string) : option (string * string) :=
  match split_first chr_at uses with
  | Some (nameWithPath, ref) =>
      if String.eqb nameWithPath "" then None
      else if String.eqb ref "" then None
      else if has_line_terminator ref then None
      else Some (nameWithPath, ref)
  | None => None
  end.

(** [s.replace(/\//g, '%2F')] *)
Fixpoint replace_slashes (s : string) : string :=
  match s with
  | EmptyString => EmptyString
  | String c rest =>
      if Ascii.eqb c chr_slash then "%2F" +:+ replace_slashes rest
      else String c (replace_slashes rest)
  end.

(** ** src/types.ts *)

Inductive DependencyType := action.

Record ActionDependency := {
  name : string;
  version : string;
  type : DependencyType;
  source : option string
}.

Record WorkflowFile := {
  path : string;
  dependencies : list ActionDependency;
  localActions : list string;
  callableWorkflows : list string
}.

(** ** src/workflow-parser.ts: classification of a [uses] string *)

Inductive UsesType := remote | local | docker.

(** The object literal returned by parseActionUses / parseWorkflowUses. *)
Record ParsedUses := {
  u_type : UsesType;
  u_name : string;
  u_version : string;
  u_path : option string
}.

Definition is_local_prefix (uses : string) : bool :=
  startsWith uses "./" || startsWith uses "../" ||
  startsWith uses ".\" || startsWith uses "..\".

(** parseActionUses: step-level [uses]. *)
Definition parseActionUses (uses : string) : option ParsedUses :=
  if startsWith uses "docker://" then None
  else if is_local_prefix uses then
    Some {| u_type := local; u_name := uses; u_version := "";
            u_path := Some uses |}
  else match match_name_ref uses with
       | Some (nameWithPath, ref) =>
           Some {| u_type := remote; u_name := nameWithPath;
                   u_version := ref; u_path := None |}
       | None => None
       end.

(** parseWorkflowUses: job-level [uses]; it has no docker rule. *)
Definition parseWorkflowUses (uses : string) : option ParsedUses :=
  if is_local_prefix uses then
    Some {| u_type := local; u_name := uses; u_version := "";
            u_path := Some uses |}
  else match match_name_ref uses with
       | Some (nameWithPath, ref) =>
           Some {| u_type := remote; u_name := nameWithPath;
                   u_version := ref; u_path := None |}
       | None => None
       end.

(** ** The value returned by yaml.parse

    A parsed document is an untyped tree.  The parser only ever observes the
    truthiness of a number, so a number carries just that ([0], [-0] and
    [NaN] are the falsy ones).  [YMap] lists an object's own properties in
    enumeration order, with distinct names.  JavaScript's [undefined] is the
    [None] of [option Yaml]. *)

Inductive Yaml :=
| YNull
| YBool (b : bool)
| YNum (truthy_number : bool)
| YStr (s : string)
| YSeq (items : list Yaml)
| YMap (fields : list (string * Yaml)).

Fixpoint lookup_field (k : string) (fields : list (string * Yaml))
  : option Yaml :=
  match fields with
  | [] => None
  | (k', v) :: rest => if String.eqb k k' then Some v else lookup_field k rest
  end.

(** [v.k] for the property names the parser reads ([runs], [using], [steps],
    [jobs], [uses]); no array, string, number or boolean defines any of
    them, and reading a property of [null] or [undefined] is a TypeError. *)
Definition get (v : option Yaml) (k : string) : Exc (option Yaml) :=
  match v with
  | None | Some YNull => Throw
  | Some (YMap fields) => Ok (lookup_field k fields)
  | Some _ => Ok None
  end.

(** [v?.k] *)
Definition get_opt (v : option Yaml) (k : string) : option Yaml :=
  match v with
  | Some (YMap fields) => lookup_field k fields
  | _ => None
  end.

Definition truthy (v : option Yaml) : bool :=
  match v with
  | None | Some YNull => false
  | Some (YBool b) => b
  | Some (YNum t) => t
  | Some (YStr s) => negb (String.eqb s "")
  | Some (YSeq _) | Some (YMap _) => true
  end.

(** [v === 'composite'] *)
Definition is_composite_marker (v : option Yaml) : bool :=
  match v with
  | Some (YStr s) => String.eqb s "composite"
  | _ => false
  end.

Fixpoint chars_of (s : string) : list Yaml :=
  match s with
  | EmptyString => []
  | String c rest => YStr (String c EmptyString) :: chars_of rest
  end.

(** [for (const x of v)]: arrays and strings are iterable (a string yields
    strings); anything else is a TypeError. *)
Definition for_of (v : option Yaml) : Exc (list Yaml) :=
  match v with
  | Some (YSeq items) => Ok items
  | Some (YStr s) => Ok (chars_of s)
  | _ => Throw
  end.

(** [for (const k in v) { ... v[k] ... }]: the values the loop body sees. *)
Definition for_in (v : option Yaml) : list Yaml :=
  match v with
  | Some (YMap fields) => map snd fields
  | Some (YSeq items) => items
  | Some (YStr s) => chars_of s
  | _ => []
  end.

(** Calling [uses.startsWith] on anything but a string is a TypeError. *)
Definition as_uses_string (v : Yaml) : Exc string :=
  match v with
  | YStr s => Ok s
  | _ => Throw
  end.

(** ** src/workflow-parser.ts: extraction

    The three output arrays of parseWorkflowFile are threaded as one
    accumulator. *)

Record Extracted := {
  x_dependencies : list ActionDependency;
  x_localActions : list string;
  x_callableWorkflows : list string
}.

Definition no_extracted : Extracted :=
  {| x_dependencies := []; x_localActions := []; x_callableWorkflows := [] |}.

(** [dep.type === 'local' && dep.path] *)
Definition is_local_with_path (dep : ParsedUses) : option string :=
  match u_type dep, u_path dep with
  | local, Some p => if String.eqb p "" then None else Some p
  | _, _ => None
  end.

Definition push_dependency (dep : ParsedUses) (uses : string) (acc : Extracted)
  : Extracted :=
  {| x_dependencies :=
       x_dependencies acc ++
       [ {| name := u_name dep; version := u_version dep; type := action;
            source := Some uses |} ];
     x_localActions := x_localActions acc;
     x_callableWorkflows := x_callableWorkflows acc |}.

Definition push_localAction (p : string) (acc : Extracted) : Extracted :=
  {| x_dependencies := x_dependencies acc;
     x_localActions := x_localActions acc ++ [p];
     x_callableWorkflows := x_callableWorkflows acc |}.

Definition push_callableWorkflow (p : string) (acc : Extracted) : Extracted :=
  {| x_dependencies := x_dependencies acc;
     x_localActions := x_localActions acc;
     x_callableWorkflows := x_callableWorkflows acc ++ [p] |}.

(** The body shared by both step loops:
    [if (step.uses) { const dep = parseActionUses(step.uses); ... }] *)
Definition extract_step (step : Yaml) (acc : Extracted) : Exc Extracted :=
  let* uses := get (Some step) "uses" in
  match uses with
  | Some u =>
      if truthy uses then
        let* s := as_uses_string u in
        match parseActionUses s with
        | Some dep =>
            match is_local_with_path dep with
            | Some p => Ok (push_localAction p acc)
            | None => Ok (push_dependency dep s acc)
            end
        | None => Ok acc
        end
      else Ok acc
  | None => Ok acc
  end.

Fixpoint extract_steps (steps : list Yaml) (acc : Extracted) : Exc Extracted :=
  match steps with
  | [] => Ok acc
  | step :: rest =>
      let* acc' := extract_step step acc in
      extract_steps rest acc'
  end.

Definition extractFromCompositeAction (act : Yaml) (acc : Extracted)
  : Exc Extracted :=
  let* runs := get (Some act) "runs" in
  if negb (truthy runs) then Ok acc
  else
    let* steps := get runs "steps" in
    if negb (truthy steps) then Ok acc
    else
      let* items := for_of steps in
      extract_steps items acc.

(** [if (job.uses) { const dep = parseWorkflowUses(job.uses); ... }] *)
Definition extract_job_uses (job : Yaml) (acc : Extracted) : Exc Extracted :=
  let* uses := get (Some job) "uses" in
  match uses with
  | Some u =>
      if truthy uses then
        let* s := as_uses_string u in
        match parseWorkflowUses s with
        | Some dep =>
            match is_local_with_path dep with
            | Some p => Ok (push_callableWorkflow p acc)
            | None => Ok (push_dependency dep s acc)
            end
        | None => Ok acc
        end
      else Ok acc
  | None => Ok acc
  end.

Definition extract_job (job : Yaml) (acc : Extracted) : Exc Extracted :=
  let* acc1 := extract_job_uses job acc in
  let* steps := get (Some job) "steps" in
  if truthy steps then
    let* items := for_of steps in
    extract_steps items acc1
  else Ok acc1.

Fixpoint extract_jobs (jobs : list Yaml) (acc : Extracted) : Exc Extracted :=
  match jobs with
  | [] => Ok acc
  | job :: rest =>
      let* acc' := extract_job job acc in
      extract_jobs rest acc'
  end.

Definition extractFromWorkflow (workflow : Yaml) (acc : Extracted)
  : Exc Extracted :=
  let* jobs := get (Some workflow) "jobs" in
  extract_jobs (for_in jobs) acc.

(** The part of parseWorkflowFile after [yaml.parse]. *)
Definition extract_document (parsed : Yaml) : Exc Extracted :=
  if negb (truthy (Some parsed)) then Ok no_extracted
  else
    let* runs := get (Some parsed) "runs" in
    let* composite :=
      (if truthy runs then
         let* marker := get runs "using" in Ok (is_composite_marker marker)
       else Ok false) in
    if composite then extractFromCompositeAction parsed no_extracted
    else
      let* jobs := get (Some parsed) "jobs" in
      if truthy jobs then extractFromWorkflow parsed no_extracted
      else Ok no_extracted.

(** [parsed?.runs?.using === 'composite'] *)
Definition composite_marker_of (parsed : Yaml) : bool :=
  is_composite_marker (get_opt (get_opt (Some parsed) "runs") "using").

(** ** Node's [path] module (POSIX flavour)

    Paths are strings; the functions below follow path.posix. *)

(** [s.split('/')] *)
Fixpoint split_slash (s : string) : list string :=
  match s with
  | EmptyString => [EmptyString]
  | String c rest =>
      if Ascii.eqb c chr_slash then EmptyString :: split_slash rest
      else match split_slash rest with
           | seg :: segs => String c seg :: segs
           | [] => [String c EmptyString]
           end
  end.

(** [segs.join(sep)] *)
Fixpoint join_with (sep : string) (segs : list string) : string :=
  match segs with
  | [] => EmptyString
  | [seg] => seg
  | seg :: rest => seg +:+ sep +:+ join_with sep rest
  end.

Definition join_slash (segs : list string) : string := join_with "/" segs.

(** [s.includes(c)] for a single character. *)
Fixpoint contains_char (c : ascii) (s : string) : bool :=
  match s with
  | EmptyString => false
  | String a rest => Ascii.eqb a c || contains_char c rest
  end.

(** normalizeString, on segments.  [acc] is the stack of segments kept so
    far, innermost first. *)
Fixpoint normalize_segments (allowAboveRoot : bool) (segs acc : list string)
  : list string :=
  match segs with
  | [] => rev acc
  | seg :: rest =>
      if String.eqb seg "" || String.eqb seg "." then
        normalize_segments allowAboveRoot rest acc
      else if String.eqb seg ".." then
        match acc with
        | top :: below =>
            if String.eqb top ".." then
              normalize_segments allowAboveRoot rest
                (if allowAboveRoot then ".." :: acc else acc)
            else normalize_segments allowAboveRoot rest below
        | [] =>
            normalize_segments allowAboveRoot rest
              (if allowAboveRoot then [".."] else [])
        end
      else normalize_segments allowAboveRoot rest (seg :: acc)
  end.

Definition normalizeString (p : string) (allowAboveRoot : bool) : string :=
  join_slash (normalize_segments allowAboveRoot (split_slash p) []).

Definition isAbsolute (p : string) : bool := startsWith p "/".

(** path.normalize *)
Definition path_normalize (p : string) : string :=
  if String.eqb p "" then "."
  else
    let absolute := isAbsolute p in
    let trailingSeparator := endsWith p "/" in
    let q := normalizeString p (negb absolute) in
    if String.eqb q "" then
      if absolute then "/" else if trailingSeparator then "./" else "."
    else
      let q' := if trailingSeparator then q +:+ "/" else q in
      if absolute then "/" +:+ q' else q'.

(** path.join(a, b) *)
Definition path_join (a b : string) : string :=
  match List.filter (fun x => negb (String.eqb x "")) [a; b] with
  | [] => "."
  | parts => path_normalize (join_slash parts)
  end.

(** path.resolve(a, b), with [cwd] the (absolute) working directory. *)
Definition path_resolve (cwd a b : string) : string :=
  let step (acc : string * bool) (p : string) :=
    let '(resolvedPath, resolvedAbsolute) := acc in
    if resolvedAbsolute then acc
    else if String.eqb p "" then acc
    else (p +:+ "/" +:+ resolvedPath, isAbsolute p) in
  let '(resolvedPath, resolvedAbsolute) := fold_left step [b; a; cwd] ("", false) in
  let q := normalizeString resolvedPath (negb resolvedAbsolute) in
  if resolvedAbsolute then "/" +:+ q
  else if String.eqb q "" then "." else q.

Fixpoint drop_while (f : ascii -> bool) (l : list ascii) : list ascii :=
  match l with
  | [] => []
  | c :: rest => if f c then drop_while f rest else l
  end.

(** path.dirname: scan backwards over trailing slashes, then over the last
    segment, and cut at the slash before it. *)
Definition path_dirname (p : string) : string :=
  match p with
  | EmptyString => "."
  | String c0 rest =>
      let hasRoot := Ascii.eqb c0 chr_slash in
      let is_slash c := Ascii.eqb c chr_slash in
      let r1 := drop_while is_slash (rev (list_ascii_of_string rest)) in
      let r2 := drop_while (fun c => negb (is_slash c)) r1 in
      match r2 with
      | [] => if hasRoot then "/" else "."
      | _ :: before =>
          if hasRoot && Nat.eqb (List.length before) 0 then "//"
          else String c0 (string_of_list_ascii (rev before))
      end
  end.

(** ** The file system

    A file's text is represented by what [yaml.parse] makes of it.  There
    are no symbolic links.  Path lookup follows the kernel: [.] and empty
    segments stay in place, [..] moves to the parent (the root is its own
    parent), and every segment but the last must name a directory. *)

Inductive Content :=
| Unparsable
| Document (doc : Yaml).

Inductive Node :=
| File (content : option Content)
| Dir (listable : bool) (entries : list (string * Node))
| Special.

Record FileSystem := {
  root : Node;
  cwd_segments : list string
}.

(** process.cwd(): always an absolute path. *)
Definition cwd (fs : FileSystem) : string :=
  "/" +:+ join_slash (cwd_segments fs).

Fixpoint find_entry (n : string) (entries : list (string * Node))
  : option Node :=
  match entries with
  | [] => None
  | (n', node) :: rest =>
      if String.eqb n n' then Some node else find_entry n rest
  end.

Fixpoint walk (above : list Node) (cur : Node) (segs : list string)
  : option Node :=
  match segs with
  | [] => Some cur
  | seg :: rest =>
      match cur with
      | Dir _ entries =>
          if String.eqb seg "" || String.eqb seg "." then walk above cur rest
          else if String.eqb seg ".." then
            match above with
            | parent :: above' => walk above' parent rest
            | [] => walk [] cur rest
            end
          else match find_entry seg entries with
               | Some child => walk (cur :: above) child rest
               | None => None
               end
      | _ => None
      end
  end.

Definition lookup_path (fs : FileSystem) (p : string) : option Node :=
  if String.eqb p "" then None
  else if isAbsolute p then walk [] (root fs) (split_slash p)
  else walk [] (root fs) (split_slash (cwd fs +:+ "/" +:+ p)).

(** fs.promises.readFile(p, 'utf-8') *)
Definition readFile (fs : FileSystem) (p : string) : Exc Content :=
  match lookup_path fs p with
  | Some (File (Some c)) => Ok c
  | _ => Throw
  end.

(** yaml.parse(content) *)
Definition yaml_parse (c : Content) : Exc Yaml :=
  match c with
  | Unparsable => Throw
  | Document doc => Ok doc
  end.

Inductive StatKind := IsFile | IsDirectory | IsOther.

Definition kind_of (n : Node) : StatKind :=
  match n with
  | File _ => IsFile
  | Dir _ _ => IsDirectory
  | Special => IsOther
  end.

(** fs.promises.stat(p) *)
Definition stat (fs : FileSystem) (p : string) : Exc StatKind :=
  match lookup_path fs p with
  | Some n => Ok (kind_of n)
  | None => Throw
  end.

(** fs.promises.access(p) *)
Definition access (fs : FileSystem) (p : string) : Exc unit :=
  match lookup_path fs p with
  | Some _ => Ok tt
  | None => Throw
  end.

(** ** src/workflow-parser.ts: file-level functions *)

Definition parseWorkflowFile (fs : FileSystem) (filePath : string)
  : Exc WorkflowFile :=
  let* content := readFile fs filePath in
  let* parsed := yaml_parse content in
  let* x := extract_document parsed in
  Ok {| path := filePath;
        dependencies := x_dependencies x;
        localActions := x_localActions x;
        callableWorkflows := x_callableWorkflows x |}.

Definition isCompositeAction (fs : FileSystem) (filePath : string) : bool :=
  catch (let* content := readFile fs filePath in
         let* parsed := yaml_parse content in
         Ok (composite_marker_of parsed))
        false.

Definition is_yaml_name (n : string) : bool :=
  endsWith n ".yml" || endsWith n ".yaml".

(** What the loop of findWorkflowFiles does for one directory entry [n] at
    [fullPath = path.join(dirPath, n)].  The recursive call reads the
    directory [fullPath], which is the entry's own subtree; a directory that
    cannot be listed yields nothing. *)
Fixpoint workflow_files_at (fullPath n : string) (node : Node) : list string :=
  match node with
  | Dir true sub =>
      (fix loop (entries : list (string * Node)) : list string :=
         match entries with
         | [] => []
         | (n', child) :: rest =>
             workflow_files_at (path_join fullPath n') n' child ++ loop rest
         end) sub
  | Dir false _ => []
  | File _ => if is_yaml_name n then [fullPath] else []
  | Special => []
  end.

Fixpoint workflow_files_in (dirPath : string) (entries : list (string * Node))
  : list string :=
  match entries with
  | [] => []
  | (n, node) :: rest =>
      workflow_files_at (path_join dirPath n) n node
      ++ workflow_files_in dirPath rest
  end.

Definition findWorkflowFiles (fs : FileSystem) (dirPath : string)
  : list string :=
  match lookup_path fs dirPath with
  | Some (Dir true entries) => workflow_files_in dirPath entries
  | _ => []
  end.

(** ** src/dependency-scanner.ts *)

(** [Map<string, V>]: entries in insertion order, keys distinct. *)
Definition JsMap (V : Type) := list (string * V).

Fixpoint map_get {V} (k : string) (m : JsMap V) : option V :=
  match m with
  | [] => None
  | (k', v) :: rest => if String.eqb k k' then Some v else map_get k rest
  end.

Definition map_has {V} (k : string) (m : JsMap V) : bool :=
  match map_get k m with
  | Some _ => true
  | None => false
  end.

(** [m.set(k, v)]: a present key keeps its position, a new one goes last. *)
Fixpoint map_set {V} (k : string) (v : V) (m : JsMap V) : JsMap V :=
  match m with
  | [] => [(k, v)]
  | (k', v') :: rest =>
      if String.eqb k k' then (k', v) :: rest else (k', v') :: map_set k v rest
  end.

(** What the instrumented scan records: each call of parseWorkflowFile, each
    call of isCompositeAction (both read and parse the file they are given),
    and each dependency handed to the result map, in program order. *)
Inductive Event :=
| EvParse (file : string)
| EvCheck (file : string)
| EvDep (dep : ActionDependency).

Record ScanState := {
  allDependencies : JsMap ActionDependency;
  processedFiles : gset string;
  filesToProcess : list string;
  trace : list Event
}.

Definition record (e : Event) (st : ScanState) : ScanState :=
  {| allDependencies := allDependencies st;
     processedFiles := processedFiles st;
     filesToProcess := filesToProcess st;
     trace := trace st ++ [e] |}.

(** [processedFiles.add(file)] *)
Definition mark_processed (file : string) (st : ScanState) : ScanState :=
  {| allDependencies := allDependencies st;
     processedFiles := {[ file ]} ∪ processedFiles st;
     filesToProcess := filesToProcess st;
     trace := trace st |}.

(** [filesToProcess.push(file)] *)
Definition push_file (file : string) (st : ScanState) : ScanState :=
  {| allDependencies := allDependencies st;
     processedFiles := processedFiles st;
     filesToProcess := filesToProcess st ++ [file];
     trace := trace st |}.

Definition set_queue (q : list string) (st : ScanState) : ScanState :=
  {| allDependencies := allDependencies st;
     processedFiles := processedFiles st;
     filesToProcess := q;
     trace := trace st |}.

(** [`${dep.name}@${dep.version}`] *)
Definition dep_key (dep : ActionDependency) : string :=
  name dep +:+ "@" +:+ version dep.

(** [if (!allDependencies.has(key)) allDependencies.set(key, dep)] *)
Definition add_to_map (m : JsMap ActionDependency) (dep : ActionDependency)
  : JsMap ActionDependency :=
  let key := dep_key dep in
  if map_has key m then m else map_set key dep m.

Definition add_dependency (st : ScanState) (dep : ActionDependency)
  : ScanState :=
  {| allDependencies := add_to_map (allDependencies st) dep;
     processedFiles := processedFiles st;
     filesToProcess := filesToProcess st;
     trace := trace st ++ [EvDep dep] |}.

Definition resolveLocalPath (fs : FileSystem)
    (workflowFile localPath repoRoot : string) : option string :=
  let workflowDir := path_dirname workflowFile in
  let resolved := path_resolve (cwd fs) workflowDir localPath in
  if negb (startsWith resolved repoRoot) then None
  else Some resolved.

Definition fileExists (fs : FileSystem) (filePath : string) : bool :=
  catch (let* _ := access fs filePath in Ok true) false.

Definition findActionYml (fs : FileSystem) (dirPath : string)
  : option string :=
  catch
    (let* stats := stat fs dirPath in
     match stats with
     | IsFile =>
         if endsWith dirPath ".yml" || endsWith dirPath ".yaml"
         then Ok (Some dirPath) else Ok None
     | IsDirectory =>
         let actionYml := path_join dirPath "action.yml" in
         let actionYaml := path_join dirPath "action.yaml" in
         if fileExists fs actionYml then Ok (Some actionYml)
         else if fileExists fs actionYaml then Ok (Some actionYaml)
         else Ok None
     | IsOther => Ok None
     end)
    None.

(** The body of both [for (const localAction of parsed.localActions)]
    loops. *)
Definition enqueue_localAction (fs : FileSystem) (repoRoot file : string)
    (st : ScanState) (localAction : string) : ScanState :=
  match resolveLocalPath fs file localAction repoRoot with
  | Some localPath =>
      match findActionYml fs localPath with
      | Some actionYml =>
          if bool_decide (actionYml ∈ processedFiles st) then st
          else
            let st' := record (EvCheck actionYml) st in
            if isCompositeAction fs actionYml then push_file actionYml st'
            else st'
      | None => st
      end
  | None => st
  end.

(** The body of [for (const callableWorkflow of parsed.callableWorkflows)]. *)
Definition enqueue_callableWorkflow (fs : FileSystem) (repoRoot file : string)
    (st : ScanState) (callableWorkflow : string) : ScanState :=
  match resolveLocalPath fs file callableWorkflow repoRoot with
  | Some workflowPath =>
      if bool_decide (workflowPath ∈ processedFiles st) then st
      else push_file workflowPath st
  | None => st
  end.

(** One iteration of the [while] loop for a file not yet processed. *)
Definition process_file (fs : FileSystem) (repoRoot file : string)
    (st : ScanState) : Exc ScanState :=
  let st1 := record (EvParse file) (mark_processed file st) in
  let* parsed := parseWorkflowFile fs file in
  let st2 := fold_left add_dependency (dependencies parsed) st1 in
  let st3 :=
    fold_left (enqueue_localAction fs repoRoot file) (localActions parsed) st2 in
  Ok (fold_left (enqueue_callableWorkflow fs repoRoot file)
        (callableWorkflows parsed) st3).

(** [while (filesToProcess.length > 0) { ... }].  [None] means that [fuel]
    iterations did not empty the queue. *)
Fixpoint scan_loop (fs : FileSystem) (repoRoot : string) (fuel : nat)
    (st : ScanState) : option (Exc ScanState) :=
  match filesToProcess st with
  | [] => Some (Ok st)
  | file :: rest =>
      match fuel with
      | 0 => None
      | S fuel' =>
          let st0 := set_queue rest st in
          if String.eqb file "" || bool_decide (file ∈ processedFiles st)
          then scan_loop fs repoRoot fuel' st0
          else match process_file fs repoRoot file st0 with
               | Ok st' => scan_loop fs repoRoot fuel' st'
               | Throw => Some Throw
               end
      end
  end.

(** The body of [for (const file of files)] in the additional-paths part. *)
Definition scan_additional_file (fs : FileSystem) (repoRoot : string)
    (st : ScanState) (file : string) : Exc ScanState :=
  if bool_decide (file ∈ processedFiles st) then Ok st
  else
    let st0 := record (EvCheck file) st in
    if isCompositeAction fs file then
      let st1 := record (EvParse file) (mark_processed file st0) in
      let* parsed := parseWorkflowFile fs file in
      let st2 := fold_left add_dependency (dependencies parsed) st1 in
      Ok (fold_left (enqueue_localAction fs repoRoot file)
            (localActions parsed) st2)
    else Ok st0.

Fixpoint exc_fold {A B} (f : A -> B -> Exc A) (l : list B) (a : A) : Exc A :=
  match l with
  | [] => Ok a
  | b :: rest => let* a' := f a b in exc_fold f rest a'
  end.

(** The body of [for (const additionalPath of additionalPaths)]. *)
Definition scan_additional_path (fs : FileSystem) (repoRoot : string)
    (st : ScanState) (additionalPath : string) : Exc ScanState :=
  let fullPath := path_join repoRoot additionalPath in
  let files := findWorkflowFiles fs fullPath in
  exc_fold (scan_additional_file fs repoRoot) files st.

Definition initial_state (workflowFiles : list string) : ScanState :=
  {| allDependencies := [];
     processedFiles := ∅;
     filesToProcess := workflowFiles;
     trace := [] |}.

(** scanDependencies, returning the whole final state. *)
Definition scan_run (fs : FileSystem) (fuel : nat)
    (workflowPath : string) (additionalPaths : list string)
    (repoRoot : string) : option (Exc ScanState) :=
  let workflowFiles := findWorkflowFiles fs workflowPath in
  match scan_loop fs repoRoot fuel (initial_state workflowFiles) with
  | Some (Ok st) =>
      Some (exc_fold (scan_additional_path fs repoRoot) additionalPaths st)
  | Some Throw => Some Throw
  | None => None
  end.

Definition scanDependencies (fs : FileSystem) (fuel : nat)
    (workflowPath : string) (additionalPaths : list string)
    (repoRoot : string) : option (Exc (JsMap ActionDependency)) :=
  match scan_run fs fuel workflowPath additionalPaths repoRoot with
  | Some (Ok st) => Some (Ok (allDependencies st))
  | Some Throw => Some Throw
  | None => None
  end.

(** ** Reading the trace *)

Fixpoint discovered (tr : list Event) : list ActionDependency :=
  match tr with
  | [] => []
  | EvDep dep :: rest => dep :: discovered rest
  | _ :: rest => discovered rest
  end.

Fixpoint parsed_files (tr : list Event) : list string :=
  match tr with
  | [] => []
  | EvParse file :: rest => file :: parsed_files rest
  | _ :: rest => parsed_files rest
  end.

Fixpoint checked_files (tr : list Event) : list string :=
  match tr with
  | [] => []
  | EvCheck file :: rest => file :: checked_files rest
  | _ :: rest => checked_files rest
  end.

(** How often [file] was read and parsed, by either function. *)
Definition read_count (file : string) (tr : list Event) : nat :=
  List.length
    (List.filter (String.eqb file) (parsed_files tr ++ checked_files tr)).

(** The first dependency of [ds] stored under [key]. *)
Definition first_with_key (key : string) (ds : list ActionDependency)
  : option ActionDependency :=
  List.find (fun d => String.eqb key (dep_key d)) ds.

(** ** The local-reference graph *)

(** The manifests the local-action references of [file] resolve to. *)
Definition local_candidates (fs : FileSystem) (repoRoot file : string)
    (las : list string) : list string :=
  omap (fun la => match resolveLocalPath fs file la repoRoot with
                  | Some localPath => findActionYml fs localPath
                  | None => None
                  end) las.

(** The files the callable-workflow references of [file] resolve to. *)
Definition callable_candidates (fs : FileSystem) (repoRoot file : string)
    (cws : list string) : list string :=
  omap (fun cw => resolveLocalPath fs file cw repoRoot) cws.

(** The edges out of [file]: the composite manifests its local actions
    resolve to and the files its callable workflows resolve to. *)
Definition targets (fs : FileSystem) (repoRoot file : string) : list string :=
  match parseWorkflowFile fs file with
  | Ok wf =>
      List.filter (isCompositeAction fs)
        (local_candidates fs repoRoot file (localActions wf))
      ++ callable_candidates fs repoRoot file (callableWorkflows wf)
  | Throw => []
  end.

Inductive reachable (fs : FileSystem) (repoRoot : string)
    (roots : list string) : string -> Prop :=
| reach_root (f : string) : f ∈ roots -> reachable fs repoRoot roots f
| reach_edge (f g : string) :
    reachable fs repoRoot roots f -> g ∈ targets fs repoRoot f ->
    reachable fs repoRoot roots g.

(** The members of [l] that are not in the processed set [P]. *)
Definition unprocessed (P : gset string) (l : list string) : list string :=
  List.filter (fun a => negb (bool_decide (a ∈ P))) l.

(** The state one [while] iteration leaves behind when [file] parses to
    [wf]. *)
Definition after_file (fs : FileSystem) (repoRoot file : string)
    (wf : WorkflowFile) (st : ScanState) : ScanState :=
  let P := {[ file ]} ∪ processedFiles st in
  let fresh :=
    unprocessed P (local_candidates fs repoRoot file (localActions wf)) in
  {| allDependencies :=
       fold_left add_to_map (dependencies wf) (allDependencies st);
     processedFiles := P;
     filesToProcess :=
       filesToProcess st
       ++ List.filter (isCompositeAction fs) fresh
       ++ unprocessed P
            (callable_candidates fs repoRoot file (callableWorkflows wf));
     trace :=
       trace st ++ [EvParse file] ++ map EvDep (dependencies wf)
       ++ map EvCheck fresh |}.

(** The state the additional-paths loop leaves behind for a composite
    manifest [file] that parses to [wf]. *)
Definition after_additional_file (fs : FileSystem) (repoRoot file : string)
    (wf : WorkflowFile) (st : ScanState) : ScanState :=
  let P := {[ file ]} ∪ processedFiles st in
  let fresh :=
    unprocessed P (local_candidates fs repoRoot file (localActions wf)) in
  {| allDependencies :=
       fold_left add_to_map (dependencies wf) (allDependencies st);
     processedFiles := P;
     filesToProcess :=
       filesToProcess st ++ List.filter (isCompositeAction fs) fresh;
     trace :=
       trace st ++ [EvCheck file; EvParse file]
       ++ map EvDep (dependencies wf) ++ map EvCheck fresh |}.

(** The remote dependencies parseWorkflowFile extracts from [file]. *)
Definition dependencies_of (fs : FileSystem) (file : string)
  : list ActionDependency :=
  match parseWorkflowFile fs file with
  | Ok wf => dependencies wf
  | Throw => []
  end.

(** The entries of a map stored under [key]. *)
Definition entries_with_key {V} (key : string) (m : JsMap V) : JsMap V :=
  List.filter (fun e => String.eqb key (fst e)) m.

(** The result map is what the has/set loop makes of the dependencies in
    discovery order, and these are the dependencies of the parsed files. *)
Definition map_follows_trace (fs : FileSystem) (st : ScanState) : Prop :=
  allDependencies st = fold_left add_to_map (discovered (trace st)) [] /\
  discovered (trace st)
  = flat_map (dependencies_of fs) (parsed_files (trace st)).

(** ** Canonical paths and the files of a tree *)

(** A segment that names a directory entry. *)
Definition plain (seg : string) : Prop :=
  seg <> "" /\ seg <> "." /\ seg <> ".." /\
  contains_char chr_slash seg = false.

(** An absolute path in normal form. *)
Definition canonical (p : string) : Prop :=
  exists segs, p = "/" +:+ join_slash segs /\ Forall plain segs.

(** The segment lists leading from [node] to the files below it. *)
Fixpoint file_segments (node : Node) : list (list string) :=
  match node with
  | File _ => [[]]
  | Dir _ entries =>
      (fix loop (es : list (string * Node)) : list (list string) :=
         match es with
         | [] => []
         | (n, child) :: rest =>
             map (cons n) (file_segments child) ++ loop rest
         end) entries
  | Special => []
  end.

Definition all_files (fs : FileSystem) : list string :=
  map (fun segs => "/" +:+ join_slash segs) (file_segments (root fs)).

(** What remains to be done: the known paths not yet processed. *)
Definition pending (universe : list string) (st : ScanState) : nat :=
  size ((list_to_set universe : gset string) ∖ processedFiles st).

(** A segment without a separator. *)
Definition no_slash (seg : string) : Prop :=
  contains_char chr_slash seg = false.

(** Every path the scan can read: the files it starts from and the files
    of the tree under their canonical names. *)
Definition known_paths (fs : FileSystem) (roots : list string) : list string :=
  roots ++ all_files fs.

(** Every queued path is a starting file or a canonical path. *)
Definition queue_known (roots : list string) (st : ScanState) : Prop :=
  forall f, f ∈ filesToProcess st -> f ∈ roots \/ canonical f.

(** No file is handed to parseWorkflowFile twice, and every file handed to
    it is in the processed set. *)
Definition parsed_once (st : ScanState) : Prop :=
  NoDup (parsed_files (trace st)) /\
  forall f, f ∈ parsed_files (trace st) <-> f ∈ processedFiles st.

(** The additional-paths part only adds: keys of [m] stay in the map and
    members of [P] stay processed. *)
Definition extends (m : JsMap ActionDependency) (P : gset string)
    (st : ScanState) : Prop :=
  (forall k, is_Some (map_get k m) -> is_Some (map_get k (allDependencies st)))
  /\ P ⊆ processedFiles st.

(** The worklist invariant of the [while] loop over the local-reference
    graph: what is processed or queued is reachable from the starting
    files; the starting files and the targets of every processed file are
    processed or queued; the map holds exactly the dependencies of the
    processed files. *)
Definition graph_invariant (fs : FileSystem) (repoRoot : string)
    (roots : list string) (st : ScanState) : Prop :=
  (forall f, f ∈ filesToProcess st -> f <> "") /\
  (forall f, f ∈ processedFiles st -> reachable fs repoRoot roots f) /\
  (forall f, f ∈ filesToProcess st -> reachable fs repoRoot roots f) /\
  (forall f, f ∈ roots -> f ∈ processedFiles st \/ f ∈ filesToProcess st) /\
  (forall f g, f ∈ processedFiles st -> g ∈ targets fs repoRoot f ->
               g ∈ processedFiles st \/ g ∈ filesToProcess st) /\
  (forall f d, f ∈ processedFiles st -> d ∈ dependencies_of fs f ->
               is_Some (map_get (dep_key d) (allDependencies st))) /\
  (forall k d, map_get k (allDependencies st) = Some d ->
               exists f, f ∈ processedFiles st /\ d ∈ dependencies_of fs f /\
                         dep_key d = k).

(** ** src/dependency-submission.ts *)

(** One value of [manifests[manifestName].resolved]. *)
Record ResolvedPackage := {
  package_url : string;
  relationship : string;
  scope : string;
  package_dependencies : list string
}.

Record Manifest := {
  manifest_name : string;
  source_location : string;
  resolved : gmap string ResolvedPackage
}.

(** The part of the snapshot request that depends on the arguments; the
    correlator, run id and timestamp come from the process environment. *)
Record Snapshot := {
  snapshot_owner : string;
  snapshot_repo : string;
  snapshot_sha : string;
  snapshot_ref : string;
  manifests : gmap string Manifest
}.

Definition convertToPackageUrl (dep : ActionDependency) : string :=
  let name := replace_slashes (name dep) in
  "pkg:github/" +:+ name +:+ "@" +:+ version dep.

(** The object stored under [resolved[key]]. *)
Definition package_of (dep : ActionDependency) : ResolvedPackage :=
  let packageUrl := convertToPackageUrl dep in
  {| package_url := packageUrl; relationship := "direct";
     scope := "runtime"; package_dependencies := [] |}.

(** The body of [for (const [key, dep] of dependencies)].  [resolved] is
    an object literal and the map below holds its own properties, which are
    what the request serialises.  The assignment [resolved[key] = ...]
    creates or replaces the own property [key], except for the key
    [__proto__]: that assignment reaches the setter inherited from
    [Object.prototype], which replaces the prototype of [resolved] and
    creates no property. *)
Definition add_resolved (acc : gmap string ResolvedPackage)
    (entry : string * ActionDependency) : gmap string ResolvedPackage :=
  let '(key, dep) := entry in
  if String.eqb key "__proto__" then acc
  else <[ key := package_of dep ]> acc.

Definition manifestName : string := "github-actions-workflows".

Definition build_manifests (dependencies : JsMap ActionDependency)
  : gmap string Manifest :=
  {[ manifestName :=
       {| manifest_name := manifestName;
          source_location := ".github/workflows/";
          resolved := fold_left add_resolved dependencies ∅ |} ]}.

(** submitDependencies; [createRepositorySnapshot] is the API call, whose
    failure is rethrown. *)
Definition submitDependencies
    (createRepositorySnapshot : Snapshot -> Exc unit)
    (owner repo : string) (dependencies : JsMap ActionDependency)
    (sha ref : string) : Exc nat :=
  if Nat.eqb (List.length dependencies) 0 then Ok 0
  else
    let* _ := createRepositorySnapshot
                {| snapshot_owner := owner; snapshot_repo := repo;
                   snapshot_sha := sha; snapshot_ref := ref;
                   manifests := build_manifests dependencies |} in
    Ok (List.length dependencies).

(** The submission entries the request carries for a dependency map. *)
Definition submission_entries (dependencies : JsMap ActionDependency)
  : gmap string ResolvedPackage :=
  fold_left add_resolved dependencies ∅.

(** The [original] of a resolved fork, as the resolver's tests expect it:
    [{owner, repo}], without a version. *)
Record Upstream := {
  upstream_owner : string;
  upstream_repo : string
}.

(** ** Fork resolution *)

Module ForkResolver.

(** src/fork-resolver.ts is not among the sources; its test file and
    section 4.3 of the specification are.  The record shapes below are the
    ones the tests build and expect. *)

(** The dependency shape the resolver's tests feed it. *)
Record Dependency := {
  owner : string;
  repo : string;
  ref : string;
  uses : string
}.

(** The shape the tests expect back. *)
Record Resolved := {
  r_owner : string;
  r_repo : string;
  r_ref : string;
  r_original : option Upstream
}.

Inductive LookupError := NotFound | AuthError | NetworkError.

(** The answer of the lookup capability:
    [{isFork, originalOwner?, originalRepo?}]. *)
Record ForkInfo := {
  isFork : bool;
  originalOwner : option string;
  originalRepo : option string
}.

Inductive LookupOutcome :=
| Reported (info : ForkInfo)
| Failed (kind : LookupError).

(** The configuration: allow-listed owners, an optional pattern (given by
    its effect on a string: the captures [org] and [repo] of a successful
    match), and the lookup capability. *)
Record Config := {
  forkOrganizations : list string;
  forkRegex : option (string -> option (string * string));
  lookupFork : string -> string -> LookupOutcome
}.

Definition allow_listed (cfg : Config) (o : string) : bool :=
  bool_decide (o ∈ forkOrganizations cfg).

(** Modelled from the spec: step 1 of the allow-listed case of
    ForkResolver (source file missing), the pattern matched against
    [owner/repo]; a match yields the captures as the original. *)
Definition pattern_original (cfg : Config) (o r : string)
  : option Upstream :=
  match forkRegex cfg with
  | Some pattern =>
      match pattern (o +:+ "/" +:+ r) with
      | Some (org, rp) =>
          Some {| upstream_owner := org; upstream_repo := rp |}
      | None => None
      end
  | None => None
  end.

(** Modelled from the spec: step 2 of the allow-listed case of
    ForkResolver (source file missing), the lookup.  A failure of any kind,
    a report that the repository is not a fork, and a report that names no
    upstream all leave the original absent. *)
Definition lookup_original (cfg : Config) (o r : string)
  : option Upstream :=
  match lookupFork cfg o r with
  | Reported info =>
      if isFork info then
        match originalOwner info, originalRepo info with
        | Some oo, Some orp =>
            Some {| upstream_owner := oo; upstream_repo := orp |}
        | _, _ => None
        end
      else None
  | Failed _ => None
  end.

(** Modelled from the spec: the pattern first, the lookup as fallback
    (ForkResolver, source file missing). *)
Definition find_original (cfg : Config) (o r : string) : option Upstream :=
  match pattern_original cfg o r with
  | Some up => Some up
  | None => lookup_original cfg o r
  end.

(** Modelled from the spec: the invariant on [original] of section 3 for
    ForkResolver (source file missing), "resolving a fork-of-interest to
    itself is a contradiction and must be suppressed".  Itself is the
    dependency's own owner and repo: section 8 and the resolver's tests
    require enterprise/actions-checkout to resolve to enterprise/checkout,
    an original in the dependency's own owner. *)
Definition resolves_to_itself (dep : Dependency) (up : Upstream) : bool :=
  String.eqb (upstream_owner up) (owner dep)
  && String.eqb (upstream_repo up) (repo dep).

(** Modelled from the spec: one dependency of ForkResolver (source file
    missing); an owner outside the allow-list is emitted unresolved without
    any lookup, and a resolution of the dependency to itself is
    suppressed. *)
Definition resolve_one (cfg : Config) (dep : Dependency) : Resolved :=
  {| r_owner := owner dep; r_repo := repo dep; r_ref := ref dep;
     r_original :=
       if allow_listed cfg (owner dep)
       then match find_original cfg (owner dep) (repo dep) with
            | Some up => if resolves_to_itself dep up then None else Some up
            | None => None
            end
       else None |}.

(** Modelled from the spec: the identity [coordinate@version] by which
    ForkResolver (source file missing) deduplicates. *)
Definition identity_key (dep : Dependency) : string :=
  owner dep +:+ "/" +:+ repo dep +:+ "@" +:+ ref dep.

(** Modelled from the spec: the loop of ForkResolver.resolveDependencies
    (source file missing), skipping identities already seen. *)
Fixpoint resolve_from (cfg : Config) (seen : gset string)
    (deps : list Dependency) : list Resolved :=
  match deps with
  | [] => []
  | dep :: rest =>
      let key := identity_key dep in
      if bool_decide (key ∈ seen) then resolve_from cfg seen rest
      else resolve_one cfg dep :: resolve_from cfg ({[ key ]} ∪ seen) rest
  end.

(** Modelled from the spec: ForkResolver.resolveDependencies, whose source
    file (src/fork-resolver.ts) is not among the sources; the record
    shapes come from its test file, the algorithm from section 4.3 of the
    specification: owners outside the allow-list are emitted unresolved
    without a lookup; for an allow-listed owner the pattern is tried first
    and the lookup is the fallback; a failed lookup leaves [original]
    absent; output is deduplicated by identity key.  The result is an
    [Exc] so that "does not abort" is a statement about it. *)
Definition resolveDependencies (cfg : Config) (deps : list Dependency)
  : Exc (list Resolved) :=
  Ok (resolve_from cfg ∅ deps).

(** The pattern [^(?<org>[^/]+)/actions-(?<repo>.+)$] of the tests. *)
Definition actions_prefix_pattern (s : string) : option (string * string) :=
  match split_first chr_slash s with
  | Some (org, rest) =>
      if String.eqb org "" then None
      else if negb (startsWith rest "actions-") then None
      else
        let rp := String.substring 8 (String.length rest - 8) rest in
        if String.eqb rp "" then None
        else if has_line_terminator rp then None
        else Some (org, rp)
  | None => None
  end.

(** The configuration and dependency of the test "Correctly applies regex
    with named groups"; the lookup is never reached. *)
Definition enterprise_config : Config :=
  {| forkOrganizations := ["enterprise"];
     forkRegex := Some actions_prefix_pattern;
     lookupFork := fun _ _ => Failed NetworkError |}.

Definition enterprise_checkout : Dependency :=
  {| owner := "enterprise"; repo := "actions-checkout"; ref := "v4";
     uses := "enterprise/actions-checkout@v4" |}.

(** The configuration of the tests without a pattern, with a lookup that
    always answers [outcome]. *)
Definition myorg_config (outcome : LookupOutcome) : Config :=
  {| forkOrganizations := ["myorg"];
     forkRegex := None;
     lookupFork := fun _ _ => outcome |}.

Definition myorg_checkout : Dependency :=
  {| owner := "myorg"; repo := "checkout"; ref := "v4";
     uses := "myorg/checkout@v4" |}.

(** The lookup answer of the test "Resolves fork using GitHub API":
    a fork of [o/r]. *)
Definition fork_of (o r : string) : LookupOutcome :=
  Reported {| isFork := true; originalOwner := Some o;
              originalRepo := Some r |}.

End ForkResolver.

(** ** Aggregation of resolved dependencies *)

Module Aggregator.

(** src/dependency-submitter.ts, the stage main.ts hands the resolver's
    output to, is not among the sources (src/dependency-submission.ts is a
    different function, over [Map<string, ActionDependency>], which has no
    [original]).  Sections 4.4 and 6 of the specification describe it. *)

(** Modelled from the spec: a submission entry of the Dependency Aggregator
    (source file src/dependency-submitter.ts missing), a coordinate with a
    version that may be absent. *)
Record Entry := {
  coordinate : string;
  entry_version : option string
}.

(** Modelled from the spec: the identifier handed to the collaborator by
    the Dependency Aggregator (source file missing),
    [owner/repo@version], or [owner/repo] when the version is absent. *)
Definition identifier (e : Entry) : string :=
  match entry_version e with
  | Some v => coordinate e +:+ "@" +:+ v
  | None => coordinate e
  end.

(** Modelled from the spec: the entry of the Dependency Aggregator (source
    file missing) for the dependency itself, with its real version. *)
Definition own_entry (r : ForkResolver.Resolved) : Entry :=
  {| coordinate := ForkResolver.r_owner r +:+ "/" +:+ ForkResolver.r_repo r;
     entry_version := Some (ForkResolver.r_ref r) |}.

(** Modelled from the spec: the entry of the Dependency Aggregator (source
    file missing) for an original, which has no version. *)
Definition original_entry (up : Upstream) : Entry :=
  {| coordinate := upstream_owner up +:+ "/" +:+ upstream_repo up;
     entry_version := None |}.

(** Modelled from the spec: what the Dependency Aggregator (source file
    missing) emits for one resolved dependency, the dependency itself and,
    when [original] is present, the original. *)
Definition emitted (r : ForkResolver.Resolved) : list Entry :=
  own_entry r ::
  match ForkResolver.r_original r with
  | Some up => [original_entry up]
  | None => []
  end.

(** Modelled from the spec: the deduplication of the Dependency Aggregator
    (source file missing) by identifier, keeping the first entry with each
    identifier in its place. *)
Fixpoint keep_first (seen : gset string) (es : list Entry) : list Entry :=
  match es with
  | [] => []
  | e :: rest =>
      if bool_decide (identifier e ∈ seen) then keep_first seen rest
      else e :: keep_first ({[ identifier e ]} ∪ seen) rest
  end.

(** Modelled from the spec: [aggregate] of the Dependency Aggregator
    (source file src/dependency-submitter.ts missing), the entries emitted
    for each resolved dependency in order, deduplicated by identifier. *)
Definition aggregate (rs : list ForkResolver.Resolved) : list Entry :=
  keep_first ∅ (flat_map emitted rs).

End Aggregator.

(** ** Example repositories *)

Module Examples.

Definition step (u : string) : Yaml := YMap [("uses", YStr u)].

(** A workflow with one job [build] whose steps use [us]. *)
Definition workflow (us : list string) : Yaml :=
  YMap [("jobs", YMap [("build", YMap [("steps", YSeq (map step us))])])].

(** A composite action whose steps use [us]. *)
Definition composite (us : list string) : Yaml :=
  YMap [("runs", YMap [("using", YStr "composite");
                       ("steps", YSeq (map step us))])].

Definition file (doc : Yaml) : Node := File (Some (Document doc)).

Definition checkout : ActionDependency :=
  {| name := "actions/checkout"; version := "v4"; type := action;
     source := Some "actions/checkout@v4" |}.

(** /work/repo/.github/workflows holding the given entries. *)
Definition repo_with (workflows : list (string * Node))
    (others : list (string * Node)) (siblings : list (string * Node))
  : FileSystem :=
  {| cwd_segments := ["work"; "repo"];
     root :=
       Dir true
         [("work",
           Dir true
             (("repo",
               Dir true
                 ((".github", Dir true [("workflows", Dir true workflows)])
                  :: others))
              :: siblings))] |}.

Definition workflows_dir : string := "/work/repo/.github/workflows".
Definition repo_root : string := "/work/repo".

Definition ci_checkout : string * Node :=
  ("ci.yml", file (workflow ["actions/checkout@v4"])).

(** A healthy workflow next to one that does not parse. *)
Definition fs_malformed : FileSystem :=
  repo_with [ci_checkout; ("release.yml", File (Some Unparsable))] [] [].

(** A healthy workflow next to one that cannot be read. *)
Definition fs_unreadable : FileSystem :=
  repo_with [ci_checkout; ("release.yml", File None)] [] [].

(** The healthy workflow alone. *)
Definition fs_healthy : FileSystem := repo_with [ci_checkout] [] [].

(** A workflow with one job [build] that calls [u] at job level. *)
Definition calling_workflow (u : string) : Yaml :=
  YMap [("jobs", YMap [("build", YMap [("uses", YStr u)])])].

(** The same [docker://] reference at a step and at job level. *)
Definition fs_docker_step : FileSystem :=
  repo_with [("ci.yml", file (workflow ["docker://alpine@3.19"]))] [] [].

Definition fs_docker_job : FileSystem :=
  repo_with [("ci.yml", file (calling_workflow "docker://alpine@3.19"))] [] [].

(** A workflow whose local action reference leaves /work/repo for the
    sibling directory /work/repo-private. *)
Definition fs_escape : FileSystem :=
  repo_with
    [("ci.yml", file (workflow ["../../../repo-private/act"]))]
    []
    [("repo-private",
      Dir true
        [("act",
          Dir true [("action.yml", file (composite ["secret/tool@v1"]))])])].

(** An additional directory [shared] whose composite action uses a
    composite action outside [shared]. *)
Definition fs_additional : FileSystem :=
  repo_with
    []
    [("shared",
      Dir true
        [("a", Dir true [("action.yml", file (composite ["../../lib/b"]))])]);
     ("lib",
      Dir true
        [("b",
          Dir true [("action.yml", file (composite ["actions/cache@v3"]))])])]
    [].

(** Two composite actions that use each other; the workflow names the
    first one at two steps and repeats a remote dependency. *)
Definition fs_cycle : FileSystem :=
  repo_with
    [("ci.yml",
      file (workflow ["actions/checkout@v4"; "../../actions/a";
                      "./../../actions/a"; "actions/checkout@v4"]))]
    [("actions",
      Dir true
        [("a",
          Dir true
            [("action.yml",
              file (composite ["actions/cache@v3"; "../b"]))]);
         ("b",
          Dir true
            [("action.yaml",
              file (composite ["actions/checkout@v4"; "../a"]))])])]
    [].

(** The final state of the scan of [fs_cycle]. *)
Definition cycle_result : ScanState :=
  Eval vm_compute in
    match scan_run fs_cycle 10 workflows_dir [] repo_root with
    | Some (Ok st) => st
    | _ => initial_state []
    end.

End Examples.

(** ** Shapes of documents and of what is extracted from them *)

(** [uses] is truthy and not a string: calling [startsWith] on it throws. *)
Definition bad_uses (v : option Yaml) : bool :=
  match v with
  | Some (YStr _) => false
  | _ => truthy v
  end.

(** A step the step loops cannot get past: [null], or one whose [uses] is
    truthy and not a string. *)
Definition throws_on_step (step : Yaml) : bool :=
  match step with
  | YNull => true
  | _ => bad_uses (get_opt (Some step) "uses")
  end.

(** A truthy [steps] value that is not iterable, or holds such a step. *)
Definition throws_on_steps (steps : option Yaml) : bool :=
  truthy steps &&
  match steps with
  | Some (YSeq items) => existsb throws_on_step items
  | Some (YStr _) => false
  | _ => true
  end.

Definition throws_on_job (job : Yaml) : bool :=
  match job with
  | YNull => true
  | _ =>
      bad_uses (get_opt (Some job) "uses")
      || throws_on_steps (get_opt (Some job) "steps")
  end.

(** The documents on which the extraction throws. *)
Definition throws_on_document (parsed : Yaml) : bool :=
  if composite_marker_of parsed
  then throws_on_steps (get_opt (get_opt (Some parsed) "runs") "steps")
  else existsb throws_on_job (for_in (get_opt (Some parsed) "jobs")).

(** A dependency as the extraction builds it: its key [name@version] is the
    [uses] string it was read from, which is not a local reference and
    splits back into the name and the version. *)
Definition from_uses (d : ActionDependency) : Prop :=
  source d = Some (dep_key d) /\
  match_name_ref (dep_key d) = Some (name d, version d) /\
  is_local_prefix (dep_key d) = false.

Definition extracted_shape (x : Extracted) : Prop :=
  Forall from_uses (x_dependencies x) /\
  Forall (fun p => is_local_prefix p = true) (x_localActions x) /\
  Forall (fun p => is_local_prefix p = true) (x_callableWorkflows x).

(** Every read of [file] in the trace comes before [file] is handed to
    parseWorkflowFile: [seen] are the files handed to it so far. *)
Fixpoint reads_before_parse (seen : list string) (tr : list Event) : Prop :=
  match tr with
  | [] => True
  | EvParse file :: rest =>
      (file ∉ seen) /\ reads_before_parse (file :: seen) rest
  | EvCheck file :: rest => (file ∉ seen) /\ reads_before_parse seen rest
  | EvDep _ :: rest => reads_before_parse seen rest
  end.

(** The files findWorkflowFiles returns for the additional paths. *)
Definition additional_files (fs : FileSystem) (repoRoot : string)
    (additionalPaths : list string) : list string :=
  flat_map (fun ap => findWorkflowFiles fs (path_join repoRoot ap))
    additionalPaths.

(** A tree as a file system has it: in every directory the entry names are
    plain and distinct. *)
Fixpoint well_formed (node : Node) : Prop :=
  match node with
  | Dir _ entries =>
      Forall plain (map fst entries) /\ NoDup (map fst entries) /\
      (fix each (es : list (string * Node)) : Prop :=
         match es with
         | [] => True
         | (_, child) :: rest => well_formed child /\ each rest
         end) entries
  | _ => True
  end.

(** The reads of a state are in order, and the files handed to
    parseWorkflowFile are the processed ones. *)
Definition reads_ordered (st : ScanState) : Prop :=
  reads_before_parse [] (trace st) /\
  forall f, f ∈ parsed_files (trace st) <-> f ∈ processedFiles st.

(** What resolveLocalPath lets through: an absolute path in normal form
    that has the repository root as a string prefix. *)
Definition passes_root_check (repoRoot f : string) : Prop :=
  canonical f /\ startsWith f repoRoot = true.

(** Where a path handed to parseWorkflowFile can come from. *)
Definition scan_origin (fs : FileSystem) (repoRoot workflowPath : string)
    (additionalPaths : list string) (f : string) : Prop :=
  f ∈ findWorkflowFiles fs workflowPath \/
  f ∈ additional_files fs repoRoot additionalPaths \/
  passes_root_check repoRoot f.

(** The character that starts the escape [%2F] in a package URL. *)
Definition chr_percent : ascii := "%"%char.

(** * Properties *)

(** ** Classification of [uses] strings *)

Lemma prefix_head (c : ascii) (p s : string) :
  String.prefix (String c p) s = true ->
  exists s', s = String c s' /\ String.prefix p s' = true.
Proof.
  destruct s as [|a s']; simpl; [discriminate|].
  destruct (ascii_dec c a) as [->|]; [|discriminate].
  eauto.
Qed.

Lemma local_prefix_not_docker (uses : string) :
  is_local_prefix uses = true -> startsWith uses "docker://" = false.
Proof.
  unfold is_local_prefix, startsWith. intros H.
  assert (exists s', uses = String "." s') as [s' ->].
  { repeat (apply orb_prop in H; destruct H as [H|H]);
      apply prefix_head in H as (s' & -> & _); eauto. }
  reflexivity.
Qed.

Lemma parseWorkflowUses_local (uses : string) :
  is_local_prefix uses = true ->
  parseWorkflowUses uses
  = Some {| u_type := local; u_name := uses; u_version := "";
            u_path := Some uses |}.
Proof. unfold parseWorkflowUses. intros ->. reflexivity. Qed.

Lemma parseActionUses_not_docker (uses : string) :
  startsWith uses "docker://" = false ->
  parseActionUses uses = parseWorkflowUses uses.
Proof. unfold parseActionUses, parseWorkflowUses. intros ->. reflexivity. Qed.

(** C6 at a failing input: the examples of the claim are classified alike
    at both sites, and [docker://x:y] yields no reference at either, but a
    job-level [uses] that starts with [docker://] and contains an '@' is
    classified as a remote reference, where the step-level classifier
    skips it.  The same [uses] that a step of a workflow contributes
    nothing for becomes, at job level, a dependency of the file and an
    entry of the scan's result. *)
Theorem C6_docker_at_job_level :
  let both (s : string) (r : option ParsedUses) :=
    parseActionUses s = r /\ parseWorkflowUses s = r in
  let is_local (s : string) :=
    both s (Some {| u_type := local; u_name := s; u_version := "";
                    u_path := Some s |}) in
  let docker_dep :=
    {| name := "docker://alpine"; version := "3.19"; type := action;
       source := Some "docker://alpine@3.19" |} in
  (is_local "./x" /\ is_local "../x" /\ is_local ".\x" /\ is_local "..\x") /\
  both "a/b@v1"
    (Some {| u_type := remote; u_name := "a/b"; u_version := "v1";
             u_path := None |}) /\
  both "a/b/sub@deadbeef"
    (Some {| u_type := remote; u_name := "a/b/sub";
             u_version := "deadbeef"; u_path := None |}) /\
  both "invalid" None /\
  both "docker://x:y" None /\
  startsWith "docker://alpine@3.19" "docker://" = true /\
  parseActionUses "docker://alpine@3.19" = None /\
  parseWorkflowUses "docker://alpine@3.19"
  = Some {| u_type := remote; u_name := "docker://alpine";
            u_version := "3.19"; u_path := None |} /\
  extract_document (Examples.workflow ["docker://alpine@3.19"])
  = Ok no_extracted /\
  extract_document (Examples.calling_workflow "docker://alpine@3.19")
  = Ok {| x_dependencies := [docker_dep]; x_localActions := [];
          x_callableWorkflows := [] |} /\
  scanDependencies Examples.fs_docker_step 10 Examples.workflows_dir []
    Examples.repo_root = Some (Ok []) /\
  scanDependencies Examples.fs_docker_job 10 Examples.workflows_dir []
    Examples.repo_root
  = Some (Ok [("docker://alpine@3.19", docker_dep)]).
Proof. repeat split. Qed.

(** ** Package URLs and the submission entries *)

Lemma split_slash_nonempty (s : string) : split_slash s <> [].
Proof.
  induction s as [|c s IH]; simpl; [discriminate|].
  destruct (Ascii.eqb c chr_slash); [discriminate|].
  destruct (split_slash s); discriminate.
Qed.

Lemma join_with_cons (sep seg : string) (rest : list string) :
  rest <> [] ->
  join_with sep (seg :: rest) = seg +:+ sep +:+ join_with sep rest.
Proof. destruct rest; [congruence | reflexivity]. Qed.

Lemma join_with_push (sep : string) (c : ascii) (seg : string)
    (rest : list string) :
  join_with sep (String c seg :: rest) = String c (join_with sep (seg :: rest)).
Proof. destruct rest; reflexivity. Qed.

(** Replacing every '/' is the same as joining the '/'-separated segments
    with [%2F]. *)
Lemma replace_slashes_segments (s : string) :
  replace_slashes s = join_with "%2F" (split_slash s).
Proof.
  induction s as [|c s IH]; simpl; [reflexivity|].
  destruct (Ascii.eqb c chr_slash).
  - rewrite join_with_cons by apply split_slash_nonempty.
    rewrite IH. reflexivity.
  - pose proof (split_slash_nonempty s) as Hne.
    destruct (split_slash s) as [|seg segs]; [congruence|].
    rewrite join_with_push, IH. reflexivity.
Qed.

Lemma replace_slashes_no_slash (s : string) :
  contains_char chr_slash (replace_slashes s) = false.
Proof.
  induction s as [|c s IH]; simpl; [reflexivity|].
  destruct (Ascii.eqb c chr_slash) eqn:Hc; simpl; [exact IH|].
  rewrite Hc, IH. reflexivity.
Qed.

Lemma add_resolved_other (acc : gmap string ResolvedPackage)
    (k k' : string) (d : ActionDependency) :
  k <> k' -> add_resolved acc (k', d) !! k = acc !! k.
Proof.
  intros Hne. unfold add_resolved.
  destruct (String.eqb k' "__proto__"); [reflexivity|].
  apply lookup_insert_ne. congruence.
Qed.

Lemma add_resolved_own (acc : gmap string ResolvedPackage)
    (k : string) (d : ActionDependency) :
  k <> "__proto__" -> add_resolved acc (k, d) !! k = Some (package_of d).
Proof.
  intros Hne. unfold add_resolved.
  apply String.eqb_neq in Hne. rewrite Hne. apply lookup_insert_eq.
Qed.

Lemma fold_add_resolved_other (deps : JsMap ActionDependency)
    (acc : gmap string ResolvedPackage) (k : string) :
  k ∉ map fst deps ->
  fold_left add_resolved deps acc !! k = acc !! k.
Proof.
  revert acc. induction deps as [|[k' d] deps IH]; intros acc Hk.
  - reflexivity.
  - simpl in Hk. apply not_elem_of_cons in Hk as [Hne Hk].
    cbn [fold_left]. rewrite IH by exact Hk.
    apply add_resolved_other, Hne.
Qed.

Lemma fold_add_resolved_lookup (deps : JsMap ActionDependency)
    (acc : gmap string ResolvedPackage) (k : string) (d : ActionDependency) :
  NoDup (map fst deps) -> (k, d) ∈ deps -> k <> "__proto__" ->
  fold_left add_resolved deps acc !! k = Some (package_of d).
Proof.
  revert acc. induction deps as [|[k' d'] deps IH]; intros acc Hnd Hin Hk.
  - inversion Hin.
  - simpl in Hnd. apply NoDup_cons in Hnd as [Hk' Hnd]. cbn [fold_left].
    apply elem_of_cons in Hin as [Heq|Hin].
    + inversion Heq; subst k' d'.
      rewrite fold_add_resolved_other by exact Hk'.
      apply add_resolved_own, Hk.
    + apply IH; assumption.
Qed.

(** Every property of [resolved] was written by the loop for a dependency
    of the map stored under that key. *)
Lemma fold_add_resolved_inv (deps : JsMap ActionDependency)
    (acc : gmap string ResolvedPackage) (k : string) (p : ResolvedPackage) :
  fold_left add_resolved deps acc !! k = Some p ->
  acc !! k = Some p \/ exists d, (k, d) ∈ deps /\ p = package_of d.
Proof.
  revert acc. induction deps as [|[k' d'] deps IH]; intros acc; cbn [fold_left].
  - auto.
  - intros H. apply IH in H as [H|(d & Hin & ->)].
    + unfold add_resolved in H.
      destruct (String.eqb k' "__proto__"); [left; exact H|].
      destruct (decide (k' = k)) as [->|Hne].
      * rewrite lookup_insert_eq in H. injection H as <-.
        right. exists d'. split; [apply list_elem_of_here | reflexivity].
      * rewrite lookup_insert_ne in H by exact Hne. left. exact H.
    + right. exists d. split; [apply list_elem_of_further, Hin | reflexivity].
Qed.

Lemma fold_add_resolved_size (deps : JsMap ActionDependency)
    (acc : gmap string ResolvedPackage) :
  NoDup (map fst deps) ->
  (forall k, k ∈ map fst deps -> acc !! k = None) ->
  (forall k, k ∈ map fst deps -> k <> "__proto__") ->
  size (fold_left add_resolved deps acc) = size acc + List.length deps.
Proof.
  revert acc.
  induction deps as [|[k d] deps IH]; intros acc Hnd Hfresh Hkeys;
    cbn [fold_left].
  - simpl. lia.
  - simpl in Hnd. apply NoDup_cons in Hnd as [Hk Hnd].
    assert (k <> "__proto__") as Hproto.
    { apply Hkeys. simpl. apply elem_of_cons. left. reflexivity. }
    rewrite IH; [| exact Hnd | |].
    + unfold add_resolved. apply String.eqb_neq in Hproto. rewrite Hproto.
      rewrite map_size_insert_None; [simpl; lia|].
      apply Hfresh. simpl. apply elem_of_cons. left. reflexivity.
    + intros k' Hk'. rewrite add_resolved_other.
      * apply Hfresh. simpl. apply elem_of_cons. right. exact Hk'.
      * intros ->. contradiction.
    + intros k' Hk'. apply Hkeys. simpl. apply elem_of_cons. right. exact Hk'.
Qed.

Lemma contains_char_app (c : ascii) (a b : string) :
  contains_char c (a +:+ String c b) = true.
Proof.
  induction a as [|x a IH]; simpl.
  - rewrite Ascii.eqb_refl. reflexivity.
  - rewrite IH. apply orb_true_r.
Qed.

(** A key [name@version] is never [__proto__]. *)
Lemma dep_key_not_proto (d : ActionDependency) : dep_key d <> "__proto__".
Proof.
  intros H.
  pose proof (contains_char_app chr_at (name d) (version d)) as Hat.
  change (name d +:+ String chr_at (version d)) with (dep_key d) in Hat.
  rewrite H in Hat. discriminate Hat.
Qed.

Lemma build_manifests_resolved (dependencies : JsMap ActionDependency) :
  resolved <$> (build_manifests dependencies !! manifestName)
  = Some (submission_entries dependencies).
Proof. unfold build_manifests. rewrite lookup_singleton_eq. reflexivity. Qed.

(** C10: a dependency map that holds [dep] under a key other than
    [__proto__] (the keys of a scan are [name@version]) is submitted with
    one request, whatever the API answers, and the manifest
    [github-actions-workflows] of that request holds under the key an entry
    whose package URL is [pkg:github/] + coordinate with each '/' replaced
    by [%2F] (the '/'-separated segments joined by [%2F], so no '/' is left
    in it) + ['@'] + version; every entry of the manifest is such an entry
    for a dependency of the map; [actions/checkout] at [v4] is
    [pkg:github/actions%2Fcheckout@v4]. *)
Theorem C10_package_url (owner repo sha ref : string)
    (dependencies : JsMap ActionDependency)
    (key : string) (dep : ActionDependency) :
  NoDup (map fst dependencies) ->
  (key, dep) ∈ dependencies ->
  key <> "__proto__" ->
  let purl (d : ActionDependency) :=
    "pkg:github/" +:+ join_with "%2F" (split_slash (name d))
    +:+ "@" +:+ version d in
  (exists snapshot manifest pkg,
      (forall createRepositorySnapshot,
          submitDependencies createRepositorySnapshot owner repo
            dependencies sha ref
          = let* _ := createRepositorySnapshot snapshot in
            Ok (List.length dependencies)) /\
      manifests snapshot !! manifestName = Some manifest /\
      resolved manifest !! key = Some pkg /\
      package_url pkg = purl dep /\
      (forall key' pkg',
          resolved manifest !! key' = Some pkg' ->
          exists dep', (key', dep') ∈ dependencies /\
                       package_url pkg' = purl dep')) /\
  contains_char chr_slash (join_with "%2F" (split_slash (name dep))) = false /\
  convertToPackageUrl
    {| name := "actions/checkout"; version := "v4"; type := action;
       source := Some "actions/checkout@v4" |}
  = "pkg:github/actions%2Fcheckout@v4".
Proof.
  intros Hnd Hin Hkey purl.
  assert (forall d, package_url (package_of d) = purl d) as Hpurl.
  { intros d. subst purl. cbv beta.
    rewrite <- replace_slashes_segments. reflexivity. }
  split; [|split].
  - exists {| snapshot_owner := owner; snapshot_repo := repo;
              snapshot_sha := sha; snapshot_ref := ref;
              manifests := build_manifests dependencies |}.
    exists {| manifest_name := manifestName;
              source_location := ".github/workflows/";
              resolved := fold_left add_resolved dependencies ∅ |}.
    exists (package_of dep).
    split; [|split; [|split; [|split]]].
    + intros createRepositorySnapshot. unfold submitDependencies.
      destruct dependencies as [|e rest]; [inversion Hin | reflexivity].
    + apply lookup_singleton_eq.
    + apply fold_add_resolved_lookup; assumption.
    + apply Hpurl.
    + intros key' pkg' H. cbn [resolved] in H.
      apply fold_add_resolved_inv in H as [H|(d & Hd & ->)].
      * rewrite lookup_empty in H. discriminate H.
      * exists d. split; [exact Hd | apply Hpurl].
  - rewrite <- replace_slashes_segments. apply replace_slashes_no_slash.
  - reflexivity.
Qed.

Lemma C10_package_url_witness :
  let dependencies := [(dep_key Examples.checkout, Examples.checkout)] in
  let purl (d : ActionDependency) :=
    "pkg:github/" +:+ join_with "%2F" (split_slash (name d))
    +:+ "@" +:+ version d in
  (exists snapshot manifest pkg,
      (forall createRepositorySnapshot,
          submitDependencies createRepositorySnapshot "work" "repo"
            dependencies "sha" "refs/heads/main"
          = let* _ := createRepositorySnapshot snapshot in Ok 1) /\
      manifests snapshot !! manifestName = Some manifest /\
      resolved manifest !! "actions/checkout@v4" = Some pkg /\
      package_url pkg = "pkg:github/actions%2Fcheckout@v4" /\
      (forall key' pkg',
          resolved manifest !! key' = Some pkg' ->
          exists dep', (key', dep') ∈ dependencies /\
                       package_url pkg' = purl dep')) /\
  contains_char chr_slash "actions%2Fcheckout" = false /\
  convertToPackageUrl Examples.checkout = "pkg:github/actions%2Fcheckout@v4".
Proof.
  apply (C10_package_url "work" "repo" "sha" "refs/heads/main"
           [(dep_key Examples.checkout, Examples.checkout)]
           "actions/checkout@v4" Examples.checkout).
  - apply NoDup_singleton.
  - apply list_elem_of_singleton. reflexivity.
  - discriminate.
Defined.

(** ** Failing files, escaping paths, additional directories *)

Lemma process_file_throws (fs : FileSystem) (repoRoot file : string)
    (st : ScanState) :
  parseWorkflowFile fs file = Throw ->
  process_file fs repoRoot file st = Throw.
Proof. unfold process_file. intros ->. reflexivity. Qed.

(** Whatever the loop has collected so far, the first queued file that
    fails to read or parse ends it with the exception. *)
Lemma scan_loop_throws (fs : FileSystem) (repoRoot : string) (fuel : nat)
    (st : ScanState) (file : string) (rest : list string) :
  filesToProcess st = file :: rest ->
  file <> "" -> file ∉ processedFiles st ->
  parseWorkflowFile fs file = Throw ->
  scan_loop fs repoRoot (S fuel) st = Some Throw.
Proof.
  intros Hq Hne Hin Hthrow. simpl. rewrite Hq.
  apply String.eqb_neq in Hne. rewrite Hne.
  rewrite bool_decide_eq_false_2 by exact Hin. simpl.
  rewrite process_file_throws by exact Hthrow. reflexivity.
Qed.

(** C1 at a failing input: with a workflow that does not parse (or cannot be
    read) next to a healthy one, parseWorkflowFile throws, the scan throws
    with it and the dependency of the healthy file is lost; without the
    failing file the same scan returns that dependency. *)
Theorem C1_failing_file_aborts_scan :
  let failing := "/work/repo/.github/workflows/release.yml" in
  parseWorkflowFile Examples.fs_malformed failing = Throw /\
  parseWorkflowFile Examples.fs_unreadable failing = Throw /\
  scanDependencies Examples.fs_malformed 10 Examples.workflows_dir []
    Examples.repo_root = Some Throw /\
  scanDependencies Examples.fs_unreadable 10 Examples.workflows_dir []
    Examples.repo_root = Some Throw /\
  scanDependencies Examples.fs_healthy 10 Examples.workflows_dir []
    Examples.repo_root
  = Some (Ok [("actions/checkout@v4", Examples.checkout)]).
Proof. repeat split. Qed.

(** A path is inside the repository root when it is the root or lies below
    it. *)
Lemma inside_root_prefix (repoRoot p : string) :
  p = repoRoot \/ startsWith p (repoRoot +:+ "/") = true ->
  startsWith p repoRoot = true.
Proof.
  unfold startsWith. intros [->|H].
  - induction repoRoot as [|c r IH]; simpl; [reflexivity|].
    destruct (ascii_dec c c); [exact IH | congruence].
  - revert p H. induction repoRoot as [|c r IH]; intros p H; simpl.
    + destruct p; reflexivity.
    + destruct p as [|a p]; simpl in *; [discriminate|].
      destruct (ascii_dec c a); [apply IH, H | discriminate].
Qed.

(** C2 at a failing input: from /work/repo/.github/workflows/ci.yml the
    reference [../../../repo-private/act] resolves to /work/repo-private/act,
    which is neither /work/repo nor below it, yet resolveLocalPath returns
    it (the test is a string prefix), the manifest found there is read and
    parsed, and its dependency is part of the result. *)
Theorem C2_prefix_sibling_escapes_root :
  let outside := "/work/repo-private/act" in
  resolveLocalPath Examples.fs_escape "/work/repo/.github/workflows/ci.yml"
    "../../../repo-private/act" Examples.repo_root = Some outside /\
  outside <> Examples.repo_root /\
  startsWith outside (Examples.repo_root +:+ "/") = false /\
  (exists st,
      scan_run Examples.fs_escape 10 Examples.workflows_dir []
        Examples.repo_root = Some (Ok st) /\
      EvParse "/work/repo-private/act/action.yml" ∈ trace st /\
      map_get "secret/tool@v1" (allDependencies st)
      = Some {| name := "secret/tool"; version := "v1"; type := action;
                source := Some "secret/tool@v1" |}).
Proof.
  split; [reflexivity|]. split; [discriminate|]. split; [reflexivity|].
  eexists. split; [vm_compute; reflexivity|].
  split; [|reflexivity].
  apply list_elem_of_In. simpl. auto.
Qed.

(** C3 at a failing input: the composite action /work/repo/shared/a found
    under the additional path [shared] uses the composite action
    /work/repo/lib/b, whose step uses actions/cache@v3.  The nested manifest
    is pushed on the queue after the [while] loop has ended and is never
    taken off it: the scan returns without its dependency. *)
Theorem C3_nested_action_never_processed :
  exists st,
    scan_run Examples.fs_additional 10 Examples.workflows_dir ["shared"]
      Examples.repo_root = Some (Ok st) /\
    filesToProcess st = ["/work/repo/lib/b/action.yml"] /\
    isCompositeAction Examples.fs_additional "/work/repo/lib/b/action.yml"
    = true /\
    parseWorkflowFile Examples.fs_additional "/work/repo/lib/b/action.yml"
    = Ok {| path := "/work/repo/lib/b/action.yml";
            dependencies :=
              [ {| name := "actions/cache"; version := "v3"; type := action;
                   source := Some "actions/cache@v3" |} ];
            localActions := []; callableWorkflows := [] |} /\
    allDependencies st = [] /\
    scanDependencies Examples.fs_additional 10 Examples.workflows_dir
      ["shared"] Examples.repo_root = Some (Ok []).
Proof.
  eexists. split; [vm_compute; reflexivity|]. repeat split.
Qed.

(** ** The scan, step by step *)

Section ScanSteps.
Variables (fs : FileSystem) (repoRoot : string).

Lemma fold_add_dependency (deps : list ActionDependency) (st : ScanState) :
  fold_left add_dependency deps st
  = {| allDependencies := fold_left add_to_map deps (allDependencies st);
       processedFiles := processedFiles st;
       filesToProcess := filesToProcess st;
       trace := trace st ++ map EvDep deps |}.
Proof.
  revert st. induction deps as [|d deps IH]; intros st; simpl.
  - rewrite app_nil_r. destruct st; reflexivity.
  - rewrite IH. simpl. rewrite <- app_assoc. reflexivity.
Qed.

Lemma fold_enqueue_localAction (file : string) (las : list string)
    (st : ScanState) :
  let fresh :=
    unprocessed (processedFiles st) (local_candidates fs repoRoot file las) in
  fold_left (enqueue_localAction fs repoRoot file) las st
  = {| allDependencies := allDependencies st;
       processedFiles := processedFiles st;
       filesToProcess :=
         filesToProcess st ++ List.filter (isCompositeAction fs) fresh;
       trace := trace st ++ map EvCheck fresh |}.
Proof.
  revert st. induction las as [|la las IH]; intros st; simpl.
  - rewrite !app_nil_r. destruct st; reflexivity.
  - rewrite IH. unfold enqueue_localAction, local_candidates. simpl.
    destruct (resolveLocalPath fs file la repoRoot) as [localPath|];
      [|reflexivity].
    destruct (findActionYml fs localPath) as [actionYml|]; [|reflexivity].
    unfold unprocessed. simpl.
    destruct (bool_decide (actionYml ∈ processedFiles st)); simpl;
      [reflexivity|].
    destruct (isCompositeAction fs actionYml); simpl;
      rewrite <- !app_assoc; reflexivity.
Qed.

Lemma fold_enqueue_callableWorkflow (file : string) (cws : list string)
    (st : ScanState) :
  fold_left (enqueue_callableWorkflow fs repoRoot file) cws st
  = {| allDependencies := allDependencies st;
       processedFiles := processedFiles st;
       filesToProcess :=
         filesToProcess st
         ++ unprocessed (processedFiles st)
              (callable_candidates fs repoRoot file cws);
       trace := trace st |}.
Proof.
  revert st. induction cws as [|cw cws IH]; intros st; simpl.
  - rewrite app_nil_r. destruct st; reflexivity.
  - rewrite IH. unfold enqueue_callableWorkflow, callable_candidates. simpl.
    destruct (resolveLocalPath fs file cw repoRoot) as [workflowPath|];
      [|reflexivity].
    unfold unprocessed. simpl.
    destruct (bool_decide (workflowPath ∈ processedFiles st)); simpl;
      [reflexivity|].
    rewrite <- !app_assoc. reflexivity.
Qed.

Lemma process_file_spec (file : string) (st st' : ScanState) :
  process_file fs repoRoot file st = Ok st' <->
  exists wf, parseWorkflowFile fs file = Ok wf /\
             st' = after_file fs repoRoot file wf st.
Proof.
  unfold process_file.
  destruct (parseWorkflowFile fs file) as [wf|]; simpl.
  - rewrite fold_enqueue_callableWorkflow, fold_enqueue_localAction,
      fold_add_dependency.
    simpl. unfold after_file.
    rewrite <- !app_assoc. simpl.
    split.
    + intros [= <-]. exists wf. split; reflexivity.
    + intros (wf' & [= <-] & ->). reflexivity.
  - split; [discriminate|]. intros (wf & Hwf & _). discriminate.
Qed.

End ScanSteps.

Section ScanInduction.
Variables (fs : FileSystem) (repoRoot : string).

Lemma scan_additional_file_spec (file : string) (st st' : ScanState) :
  scan_additional_file fs repoRoot st file = Ok st' <->
  ((file ∈ processedFiles st) /\ st' = st) \/
  ((file ∉ processedFiles st) /\ isCompositeAction fs file = false /\
   st' = record (EvCheck file) st) \/
  ((file ∉ processedFiles st) /\ isCompositeAction fs file = true /\
   exists wf, parseWorkflowFile fs file = Ok wf /\
              st' = after_additional_file fs repoRoot file wf st).
Proof.
  unfold scan_additional_file. case_bool_decide as Hin.
  { split.
    - intros [= <-]. left. auto.
    - intros [[_ ->]|[(? & _)|(? & _)]]; [reflexivity | contradiction..]. }
  destruct (isCompositeAction fs file) eqn:Hc.
  - destruct (parseWorkflowFile fs file) as [wf|] eqn:Hp; simpl.
    + rewrite fold_enqueue_localAction, fold_add_dependency. simpl.
      unfold after_additional_file. rewrite <- !app_assoc. simpl.
      split.
      * intros [= <-]. right. right. repeat split; [exact Hin|].
        exists wf. split; reflexivity.
      * intros [[? _]|[(_ & ? & _)|(_ & _ & wf' & [= <-] & ->)]];
          [contradiction | discriminate | reflexivity].
    + split; [discriminate|].
      intros [[? _]|[(_ & ? & _)|(_ & _ & wf' & ? & _)]];
        [contradiction | discriminate | discriminate].
  - split.
    + intros [= <-]. right. left. auto.
    + intros [[? _]|[(_ & _ & ->)|(_ & ? & _)]];
        [contradiction | reflexivity | discriminate].
Qed.

Lemma exc_fold_invariant {A B} (P : A -> Prop) (f : A -> B -> Exc A) :
  (forall a b a', P a -> f a b = Ok a' -> P a') ->
  forall l a a', P a -> exc_fold f l a = Ok a' -> P a'.
Proof.
  intros Hstep l. induction l as [|b l IH]; intros a a' Ha; simpl.
  - intros [= <-]. exact Ha.
  - destruct (f a b) as [a1|] eqn:Hf; simpl; [|discriminate].
    apply IH. eapply Hstep; eassumption.
Qed.

(** An invariant of the [while] loop holds of its final state, in which the
    queue is empty. *)
Lemma scan_loop_invariant (P : ScanState -> Prop) :
  (forall st file rest,
      P st -> filesToProcess st = file :: rest ->
      file = "" \/ file ∈ processedFiles st ->
      P (set_queue rest st)) ->
  (forall st file rest wf,
      P st -> filesToProcess st = file :: rest ->
      file <> "" -> file ∉ processedFiles st ->
      parseWorkflowFile fs file = Ok wf ->
      P (after_file fs repoRoot file wf (set_queue rest st))) ->
  forall fuel st st',
    P st -> scan_loop fs repoRoot fuel st = Some (Ok st') ->
    P st' /\ filesToProcess st' = [].
Proof.
  intros Hskip Hfile fuel.
  induction fuel as [|fuel IH]; intros st st' HP; simpl;
    destruct (filesToProcess st) as [|file rest] eqn:Hq;
    try discriminate; try (intros [= <-]; auto).
  destruct (String.eqb file "") eqn:He; simpl.
  { apply String.eqb_eq in He. apply IH. eapply Hskip; eauto. }
  apply String.eqb_neq in He.
  case_bool_decide as Hin.
  { apply IH. eapply Hskip; eauto. }
  destruct (process_file fs repoRoot file (set_queue rest st)) as [st1|] eqn:Hp;
    [|discriminate].
  apply process_file_spec in Hp as (wf & Hwf & ->).
  apply IH. eapply Hfile; eauto.
Qed.

(** An invariant that ignores the queue survives the whole run if every
    file step and every additional-path step preserves it. *)
Lemma scan_run_invariant (P : ScanState -> Prop) :
  (forall st q, P st -> P (set_queue q st)) ->
  (forall st file wf,
      P st -> file ∉ processedFiles st ->
      parseWorkflowFile fs file = Ok wf ->
      P (after_file fs repoRoot file wf st)) ->
  (forall st file, P st -> P (record (EvCheck file) st)) ->
  (forall st file wf,
      P st -> file ∉ processedFiles st ->
      parseWorkflowFile fs file = Ok wf ->
      P (after_additional_file fs repoRoot file wf st)) ->
  forall fuel workflowPath additionalPaths st,
    P (initial_state (findWorkflowFiles fs workflowPath)) ->
    scan_run fs fuel workflowPath additionalPaths repoRoot = Some (Ok st) ->
    P st.
Proof.
  intros Hq Hfile Hcheck Hadd fuel workflowPath additionalPaths st Hinit.
  unfold scan_run.
  destruct (scan_loop fs repoRoot fuel _) as [[st1|]|] eqn:Hloop;
    try discriminate.
  intros [= Hfold].
  apply (scan_loop_invariant P) in Hloop as [HP1 _]; [| | |exact Hinit].
  - revert Hfold. apply exc_fold_invariant; [|exact HP1].
    intros a additionalPath a' Ha. unfold scan_additional_path.
    apply exc_fold_invariant; [|exact Ha].
    intros b file b' Hb Hstep.
    apply scan_additional_file_spec in Hstep
      as [[_ ->]|[(_ & _ & ->)|(Hn & _ & wf & Hwf & ->)]]; auto.
  - intros st0 file rest HP _ _. apply Hq, HP.
  - intros st0 file rest wf HP _ _ Hn Hwf.
    apply Hfile; [apply Hq, HP | exact Hn | exact Hwf].
Qed.

End ScanInduction.

(** ** The result map: first occurrence wins *)

Section MapFacts.
Context {V : Type}.
Implicit Types (m : JsMap V) (k : string) (v : V).

Lemma map_get_None k m : map_get k m = None <-> k ∉ map fst m.
Proof.
  induction m as [|[k' v'] m IH]; simpl.
  - split; [intros _; apply not_elem_of_nil | reflexivity].
  - rewrite not_elem_of_cons. destruct (String.eqb k k') eqn:He.
    + apply String.eqb_eq in He. split; [discriminate | intros [? _]; contradiction].
    + apply String.eqb_neq in He. rewrite IH. tauto.
Qed.

Lemma map_get_set k k' v m :
  map_get k (map_set k' v m)
  = if String.eqb k k' then Some v else map_get k m.
Proof.
  induction m as [|[k1 v1] m IH]; simpl.
  - destruct (String.eqb k k'); reflexivity.
  - destruct (String.eqb k' k1) eqn:H1; simpl.
    + apply String.eqb_eq in H1. subst k1.
      destruct (String.eqb k k'); reflexivity.
    + rewrite IH. destruct (String.eqb k k1) eqn:H2; [|reflexivity].
      apply String.eqb_eq in H2. subst k1.
      rewrite String.eqb_sym, H1. reflexivity.
Qed.

Lemma map_set_fresh_keys k v m :
  map_get k m = None -> map fst (map_set k v m) = map fst m ++ [k].
Proof.
  induction m as [|[k1 v1] m IH]; simpl; [reflexivity|].
  destruct (String.eqb k k1); [discriminate|].
  intros H. simpl. rewrite IH by exact H. reflexivity.
Qed.

Lemma entries_with_key_absent k m :
  k ∉ map fst m -> entries_with_key k m = [].
Proof.
  induction m as [|[k1 v1] m IH]; simpl; [reflexivity|].
  rewrite not_elem_of_cons. intros [Hne Hk].
  apply String.eqb_neq in Hne. rewrite Hne. apply IH, Hk.
Qed.

(** In a map with distinct keys, the entries under a key are the one
    [map_get] finds, or none. *)
Lemma entries_with_key_get k m :
  NoDup (map fst m) ->
  entries_with_key k m
  = match map_get k m with
    | Some v => [(k, v)]
    | None => []
    end.
Proof.
  induction m as [|[k1 v1] m IH]; simpl; [reflexivity|].
  rewrite NoDup_cons. intros [Hk1 Hnd].
  destruct (String.eqb k k1) eqn:He.
  - apply String.eqb_eq in He. subst k1.
    rewrite entries_with_key_absent by exact Hk1. reflexivity.
  - apply IH, Hnd.
Qed.

End MapFacts.

Lemma add_to_map_get (k : string) (m : JsMap ActionDependency)
    (d : ActionDependency) :
  map_get k (add_to_map m d)
  = match map_get k m with
    | Some v => Some v
    | None => if String.eqb k (dep_key d) then Some d else None
    end.
Proof.
  unfold add_to_map, map_has.
  destruct (map_get (dep_key d) m) as [v|] eqn:Hd.
  - destruct (map_get k m) eqn:Hk; [reflexivity|].
    destruct (String.eqb k (dep_key d)) eqn:He; [|reflexivity].
    apply String.eqb_eq in He. congruence.
  - rewrite map_get_set.
    destruct (String.eqb k (dep_key d)) eqn:He.
    + apply String.eqb_eq in He. subst k. rewrite Hd. reflexivity.
    + destruct (map_get k m); reflexivity.
Qed.

Lemma add_to_map_NoDup (m : JsMap ActionDependency) (d : ActionDependency) :
  NoDup (map fst m) -> NoDup (map fst (add_to_map m d)).
Proof.
  unfold add_to_map, map_has. intros Hnd.
  destruct (map_get (dep_key d) m) eqn:Hd; [exact Hnd|].
  rewrite map_set_fresh_keys by exact Hd.
  apply NoDup_app. split; [exact Hnd|]. split; [|apply NoDup_singleton].
  intros x Hx Hx'. apply list_elem_of_singleton in Hx'. subst x.
  apply map_get_None in Hd. contradiction.
Qed.

(** First occurrence wins: a key already present keeps its entry, a new key
    gets the first dependency that carries it. *)
Lemma fold_add_to_map_get (k : string) (ds : list ActionDependency)
    (m : JsMap ActionDependency) :
  map_get k (fold_left add_to_map ds m)
  = match map_get k m with
    | Some v => Some v
    | None => first_with_key k ds
    end.
Proof.
  revert m. induction ds as [|d ds IH]; intros m; simpl.
  - destruct (map_get k m); reflexivity.
  - rewrite IH, add_to_map_get. unfold first_with_key. simpl.
    destruct (map_get k m); [reflexivity|].
    destruct (String.eqb k (dep_key d)); reflexivity.
Qed.

Lemma fold_add_to_map_NoDup (ds : list ActionDependency)
    (m : JsMap ActionDependency) :
  NoDup (map fst m) -> NoDup (map fst (fold_left add_to_map ds m)).
Proof.
  revert m. induction ds as [|d ds IH]; intros m Hnd; simpl; [exact Hnd|].
  apply IH, add_to_map_NoDup, Hnd.
Qed.

Lemma first_with_key_some (d : ActionDependency) (ds : list ActionDependency) :
  d ∈ ds -> exists first,
    first_with_key (dep_key d) ds = Some first /\ dep_key first = dep_key d.
Proof.
  unfold first_with_key. induction ds as [|d' ds IH]; intros Hin.
  - inversion Hin.
  - simpl. destruct (String.eqb (dep_key d) (dep_key d')) eqn:He.
    + apply String.eqb_eq in He. eauto.
    + apply elem_of_cons in Hin as [->|Hin]; [|apply IH, Hin].
      rewrite String.eqb_refl in He. discriminate.
Qed.

Section TraceFacts.

Lemma discovered_app (a b : list Event) :
  discovered (a ++ b) = discovered a ++ discovered b.
Proof.
  induction a as [|e a IH]; simpl; [reflexivity|].
  destruct e; simpl; rewrite IH; reflexivity.
Qed.

Lemma discovered_deps (ds : list ActionDependency) :
  discovered (map EvDep ds) = ds.
Proof. induction ds as [|d ds IH]; simpl; congruence. Qed.

Lemma discovered_checks (l : list string) : discovered (map EvCheck l) = [].
Proof. induction l; simpl; auto. Qed.

Lemma parsed_files_app (a b : list Event) :
  parsed_files (a ++ b) = parsed_files a ++ parsed_files b.
Proof.
  induction a as [|e a IH]; simpl; [reflexivity|].
  destruct e; simpl; rewrite IH; reflexivity.
Qed.

Lemma parsed_files_deps (ds : list ActionDependency) :
  parsed_files (map EvDep ds) = [].
Proof. induction ds; simpl; auto. Qed.

Lemma parsed_files_checks (l : list string) :
  parsed_files (map EvCheck l) = [].
Proof. induction l; simpl; auto. Qed.

Lemma checked_files_app (a b : list Event) :
  checked_files (a ++ b) = checked_files a ++ checked_files b.
Proof.
  induction a as [|e a IH]; simpl; [reflexivity|].
  destruct e; simpl; rewrite IH; reflexivity.
Qed.

End TraceFacts.

Section FirstOccurrence.
Variables (fs : FileSystem) (repoRoot : string).

Lemma map_follows_trace_step (st : ScanState) (wf : WorkflowFile)
    (file : string) (pre : list Event) (checks : list string)
    (st' : ScanState) :
  map_follows_trace fs st ->
  parseWorkflowFile fs file = Ok wf ->
  parsed_files pre = [file] -> discovered pre = [] ->
  allDependencies st'
  = fold_left add_to_map (dependencies wf) (allDependencies st) ->
  trace st'
  = trace st ++ pre ++ map EvDep (dependencies wf) ++ map EvCheck checks ->
  map_follows_trace fs st'.
Proof.
  intros [Hmap Hdisc] Hwf Hpre Hpre' Hall Htr. unfold map_follows_trace.
  rewrite Hall, Htr.
  rewrite !discovered_app, !parsed_files_app, discovered_deps,
    discovered_checks, parsed_files_deps, parsed_files_checks, Hpre, Hpre'.
  simpl. rewrite !app_nil_r. split.
  - rewrite fold_left_app, <- Hmap. reflexivity.
  - rewrite flat_map_app, <- Hdisc. simpl.
    unfold dependencies_of. rewrite Hwf, app_nil_r. reflexivity.
Qed.

Lemma map_follows_trace_run (fuel : nat) (workflowPath : string)
    (additionalPaths : list string) (st : ScanState) :
  scan_run fs fuel workflowPath additionalPaths repoRoot = Some (Ok st) ->
  map_follows_trace fs st.
Proof.
  apply (scan_run_invariant fs repoRoot (map_follows_trace fs)).
  - intros st0 q H. exact H.
  - intros st0 file wf H _ Hwf.
    eapply (map_follows_trace_step st0 wf file [EvParse file]); eauto.
  - intros st0 file [Hmap Hdisc]. unfold map_follows_trace. simpl.
    rewrite discovered_app, parsed_files_app. simpl.
    rewrite !app_nil_r. auto.
  - intros st0 file wf H _ Hwf.
    eapply (map_follows_trace_step st0 wf file [EvCheck file; EvParse file]);
      eauto.
  - split; reflexivity.
Qed.

(** C7: in the map a run returns, the entries stored under the key
    [coordinate@version] of any discovered remote reference are exactly one,
    and it is the first reference with that key in discovery order, the
    order in which the parsed files list their dependencies; a reference
    with the same coordinate and ref shares the key, finds that entry and
    leaves the map as it is. *)
Theorem C7_first_occurrence_wins (fuel : nat) (workflowPath : string)
    (additionalPaths : list string) (st : ScanState)
    (d : ActionDependency) :
  scan_run fs fuel workflowPath additionalPaths repoRoot = Some (Ok st) ->
  let found := flat_map (dependencies_of fs) (parsed_files (trace st)) in
  d ∈ found ->
  NoDup (map fst (allDependencies st)) /\
  exists first,
    first_with_key (dep_key d) found = Some first /\
    entries_with_key (dep_key d) (allDependencies st)
    = [(dep_key d, first)] /\
    (forall d', d' ∈ found ->
       name d' = name d -> version d' = version d ->
       entries_with_key (dep_key d') (allDependencies st)
       = [(dep_key d, first)] /\
       add_to_map (allDependencies st) d' = allDependencies st).
Proof.
  intros Hrun found Hd. subst found.
  apply map_follows_trace_run in Hrun as [Hmap Hdisc].
  rewrite <- Hdisc in *.
  assert (NoDup (map fst (allDependencies st))) as Hnd.
  { rewrite Hmap. apply fold_add_to_map_NoDup. constructor. }
  split; [exact Hnd|].
  destruct (first_with_key_some d _ Hd) as (first & Hfirst & Hkey).
  exists first. split; [exact Hfirst|].
  assert (entries_with_key (dep_key d) (allDependencies st)
          = [(dep_key d, first)]) as Hone.
  { rewrite entries_with_key_get by exact Hnd.
    rewrite Hmap, fold_add_to_map_get. simpl. rewrite Hfirst. reflexivity. }
  split; [exact Hone|].
  intros d' _ Hn Hv.
  assert (dep_key d' = dep_key d) as Hsame
    by (unfold dep_key; rewrite Hn, Hv; reflexivity).
  rewrite Hsame. split; [exact Hone|].
  unfold add_to_map, map_has. rewrite Hsame.
  rewrite Hmap at 1. rewrite fold_add_to_map_get. simpl.
  rewrite Hfirst. reflexivity.
Qed.

End FirstOccurrence.

Lemma C7_first_occurrence_wins_witness :
  NoDup (map fst (allDependencies Examples.cycle_result)) /\
  exists first,
    first_with_key "actions/checkout@v4"
      (flat_map (dependencies_of Examples.fs_cycle)
         (parsed_files (trace Examples.cycle_result))) = Some first /\
    entries_with_key "actions/checkout@v4"
      (allDependencies Examples.cycle_result)
    = [("actions/checkout@v4", first)] /\
    (forall d',
       d' ∈ flat_map (dependencies_of Examples.fs_cycle)
              (parsed_files (trace Examples.cycle_result)) ->
       name d' = "actions/checkout" -> version d' = "v4" ->
       entries_with_key (dep_key d') (allDependencies Examples.cycle_result)
       = [("actions/checkout@v4", first)] /\
       add_to_map (allDependencies Examples.cycle_result) d'
       = allDependencies Examples.cycle_result).
Proof.
  apply (C7_first_occurrence_wins Examples.fs_cycle Examples.repo_root 10
           Examples.workflows_dir [] Examples.cycle_result Examples.checkout).
  - vm_compute. reflexivity.
  - apply list_elem_of_In. vm_compute. auto.
Defined.

(** ** Paths *)

Section PathFacts.

Lemma plain_no_slash (seg : string) : plain seg -> no_slash seg.
Proof. intros (_ & _ & _ & H). exact H. Qed.

Lemma split_slash_app (a b : string) :
  split_slash (a +:+ "/" +:+ b) = split_slash a ++ split_slash b.
Proof.
  induction a as [|c a IH]; simpl; [reflexivity|].
  destruct (Ascii.eqb c chr_slash); simpl.
  - f_equal. exact IH.
  - change (append a (String "/" b)) with (a +:+ "/" +:+ b). rewrite IH.
    pose proof (split_slash_nonempty a) as Hne.
    destruct (split_slash a) as [|seg segs]; [congruence | reflexivity].
Qed.

Lemma split_slash_no_slash (s : string) :
  no_slash s -> split_slash s = [s].
Proof.
  unfold no_slash. induction s as [|c s IH]; simpl; [reflexivity|].
  destruct (Ascii.eqb c chr_slash); simpl; [discriminate|].
  intros H. rewrite IH by exact H. reflexivity.
Qed.

Lemma split_slash_segments (s : string) : Forall no_slash (split_slash s).
Proof.
  unfold no_slash. induction s as [|c s IH]; simpl.
  - repeat constructor.
  - destruct (Ascii.eqb c chr_slash) eqn:Hc.
    + constructor; [reflexivity | exact IH].
    + destruct (split_slash s) as [|seg segs]; [repeat constructor; simpl; rewrite Hc; reflexivity|].
      inversion IH; subst. constructor; [|assumption].
      simpl. rewrite Hc. assumption.
Qed.

Lemma split_join_slash (segs : list string) :
  segs <> [] -> Forall no_slash segs ->
  split_slash (join_slash segs) = segs.
Proof.
  unfold join_slash.
  induction segs as [|seg rest IH]; intros Hne Hall; [congruence|].
  inversion Hall as [|? ? Hseg Hrest]; subst.
  destruct rest as [|seg' rest'].
  - simpl. apply split_slash_no_slash, Hseg.
  - rewrite join_with_cons by discriminate.
    rewrite split_slash_app, split_slash_no_slash by exact Hseg.
    rewrite IH; [reflexivity | discriminate | exact Hrest].
Qed.

Lemma normalize_segments_plain (allow : bool) (segs acc : list string) :
  Forall plain segs ->
  normalize_segments allow segs acc = rev acc ++ segs.
Proof.
  revert acc. induction segs as [|seg rest IH]; intros acc Hall; simpl.
  - rewrite app_nil_r. reflexivity.
  - inversion Hall as [|? ? (H1 & H2 & H3 & _) Hrest]; subst.
    apply String.eqb_neq in H1, H2, H3. rewrite H1, H2, H3. simpl.
    rewrite IH by exact Hrest. simpl. rewrite <- app_assoc. reflexivity.
Qed.

Lemma normalize_segments_output (segs acc : list string) :
  Forall no_slash segs -> Forall plain acc ->
  Forall plain (normalize_segments false segs acc).
Proof.
  revert acc. induction segs as [|seg rest IH]; intros acc Hsegs Hacc; simpl.
  - apply Forall_rev, Hacc.
  - inversion Hsegs as [|? ? Hseg Hrest]; subst.
    destruct (String.eqb seg "") eqn:H1; simpl; [apply IH; assumption|].
    destruct (String.eqb seg ".") eqn:H2; simpl; [apply IH; assumption|].
    destruct (String.eqb seg "..") eqn:H3.
    + destruct acc as [|top below]; [apply IH; assumption|].
      inversion Hacc; subst.
      destruct (String.eqb top ".."); apply IH; assumption.
    + apply IH; [assumption|]. constructor; [|assumption].
      apply String.eqb_neq in H1, H2, H3. repeat split; assumption.
Qed.

Lemma normalizeString_canonical (p : string) :
  canonical ("/" +:+ normalizeString p false).
Proof.
  eexists. split; [reflexivity|].
  apply normalize_segments_output; [apply split_slash_segments | constructor].
Qed.

Lemma isAbsolute_cons (s : string) : isAbsolute (String "/" s) = true.
Proof. unfold isAbsolute, startsWith. simpl. destruct s; reflexivity. Qed.

Lemma isAbsolute_nonempty (s : string) : isAbsolute s = true -> s <> "".
Proof. intros H ->. discriminate H. Qed.

(** With an absolute working directory, path.resolve returns an absolute
    path in normal form. *)
Lemma path_resolve_canonical (wd a b : string) :
  isAbsolute wd = true -> canonical (path_resolve wd a b).
Proof.
  intros Hwd. pose proof (isAbsolute_nonempty _ Hwd) as Hne.
  apply String.eqb_neq in Hne.
  unfold path_resolve. simpl.
  destruct (String.eqb b ""); [|destruct (isAbsolute b)];
    (destruct (String.eqb a ""); [|destruct (isAbsolute a)]);
    simpl; rewrite ?Hne, ?Hwd; simpl; apply normalizeString_canonical.
Qed.

Lemma canonical_nonempty (p : string) : canonical p -> p <> "".
Proof. intros (segs & -> & _). discriminate. Qed.

Lemma endsWith_cons (c : ascii) (s p : string) :
  endsWith (String c s) p = String.eqb (String c s) p || endsWith s p.
Proof. reflexivity. Qed.

Lemma endsWith_slash_no_slash (n : string) :
  no_slash n -> endsWith n "/" = false.
Proof.
  unfold no_slash. induction n as [|c n IH]; [reflexivity|].
  rewrite endsWith_cons. simpl contains_char.
  destruct (Ascii.eqb c chr_slash) eqn:Hc; simpl orb; [discriminate|].
  intros H. rewrite IH by exact H.
  unfold chr_slash in Hc. simpl. rewrite Hc. reflexivity.
Qed.

Lemma endsWith_slash_app (s n : string) :
  n <> "" -> no_slash n -> endsWith (s +:+ "/" +:+ n) "/" = false.
Proof.
  intros Hne Hn.
  assert (forall t, String.eqb (t +:+ "/" +:+ n) "/" = false) as Hneq.
  { intros t. apply String.eqb_neq. destruct t as [|c t]; simpl.
    - intros [= H]. exact (Hne H).
    - intros [= _ H]. destruct t; discriminate H. }
  induction s as [|c s IH].
  - change ("" +:+ "/" +:+ n) with (String "/" n).
    rewrite endsWith_cons, endsWith_slash_no_slash by exact Hn.
    change (String "/" n) with ("" +:+ "/" +:+ n).
    rewrite Hneq. reflexivity.
  - change (String c s +:+ "/" +:+ n) with (String c (s +:+ "/" +:+ n)).
    rewrite endsWith_cons, IH.
    change (String c (s +:+ "/" +:+ n)) with (String c s +:+ "/" +:+ n).
    rewrite Hneq. reflexivity.
Qed.

Lemma join_slash_nonempty (seg : string) (rest : list string) :
  seg <> "" -> join_slash (seg :: rest) <> "".
Proof.
  unfold join_slash. intros Hne.
  destruct rest; simpl; [exact Hne|].
  destruct seg; [congruence | discriminate].
Qed.

Lemma normalize_rooted (segs : list string) (n : string) :
  Forall plain segs -> plain n ->
  normalize_segments false
    (split_slash (("/" +:+ join_slash segs) +:+ "/" +:+ n)) []
  = segs ++ [n].
Proof.
  intros Hsegs Hn.
  rewrite split_slash_app.
  rewrite (split_slash_no_slash n) by (apply plain_no_slash, Hn).
  change (split_slash ("/" +:+ join_slash segs))
    with ("" :: split_slash (join_slash segs)).
  destruct segs as [|seg rest].
  - simpl. destruct Hn as (H1 & H2 & H3 & _).
    apply String.eqb_neq in H1, H2, H3. rewrite H1, H2, H3. reflexivity.
  - rewrite split_join_slash;
      [| discriminate | eapply Forall_impl; [exact Hsegs | apply plain_no_slash]].
    change (normalize_segments false (("" :: seg :: rest) ++ [n]) [])
      with (normalize_segments false ((seg :: rest) ++ [n]) []).
    rewrite normalize_segments_plain; [reflexivity|].
    apply Forall_app. split; [exact Hsegs | constructor; [exact Hn | constructor]].
Qed.

(** Below a canonical directory path, path.join with an entry name appends
    one segment. *)
Lemma path_join_canonical (segs : list string) (n : string) :
  Forall plain segs -> plain n ->
  path_join ("/" +:+ join_slash segs) n = "/" +:+ join_slash (segs ++ [n]).
Proof.
  intros Hsegs Hn. pose proof Hn as (Hne & _ & _ & Hslash).
  unfold path_join.
  change (List.filter (fun x => negb (String.eqb x ""))
            ["/" +:+ join_slash segs; n])
    with (("/" +:+ join_slash segs)
          :: (if negb (String.eqb n "") then [n] else [])).
  apply String.eqb_neq in Hne as Hne'. rewrite Hne'. simpl negb. cbv iota.
  change (join_slash ["/" +:+ join_slash segs; n])
    with (("/" +:+ join_slash segs) +:+ "/" +:+ n).
  pose proof (normalize_rooted segs n Hsegs Hn) as Hnorm.
  pose proof (endsWith_slash_app ("/" +:+ join_slash segs) n Hne Hslash)
    as Hends.
  set (X := ("/" +:+ join_slash segs) +:+ "/" +:+ n) in *.
  assert (isAbsolute X = true) as Habs by apply isAbsolute_cons.
  assert (String.eqb X "" = false) as HX by reflexivity.
  unfold path_normalize, normalizeString.
  rewrite HX, Habs, Hends. simpl negb. cbv iota. rewrite Hnorm.
  assert (join_slash (segs ++ [n]) <> "") as Hq.
  { destruct segs as [|seg rest]; simpl app.
    - exact Hne.
    - apply join_slash_nonempty. inversion Hsegs as [|? ? (H & _) _]. exact H. }
  apply String.eqb_neq in Hq. rewrite Hq. reflexivity.
Qed.

End PathFacts.

(** ** Files of the tree *)

Section FileSystemFacts.
Variable fs : FileSystem.

Lemma elem_of_List_filter {A} (f : A -> bool) (l : list A) (x : A) :
  x ∈ List.filter f l <-> f x = true /\ x ∈ l.
Proof. rewrite !list_elem_of_In, filter_In. tauto. Qed.

Lemma cwd_absolute : isAbsolute (cwd fs) = true.
Proof. apply isAbsolute_cons. Qed.

Lemma path_normalize_nonempty (p : string) : path_normalize p <> "".
Proof.
  unfold path_normalize.
  destruct (String.eqb p ""); [discriminate|].
  destruct (String.eqb (normalizeString p _) "") eqn:Hq.
  - destruct (isAbsolute p); [discriminate|].
    destruct (endsWith p "/"); discriminate.
  - apply String.eqb_neq in Hq.
    destruct (isAbsolute p); [discriminate|].
    destruct (endsWith p "/"); [|exact Hq].
    destruct (normalizeString p _); [congruence | discriminate].
Qed.

Lemma path_join_nonempty (a b : string) : path_join a b <> "".
Proof.
  unfold path_join.
  destruct (List.filter _ [a; b]); [discriminate|].
  apply path_normalize_nonempty.
Qed.

Lemma find_entry_file_segments (listable : bool)
    (entries : list (string * Node)) (n : string) (child : Node)
    (segs : list string) :
  find_entry n entries = Some child ->
  segs ∈ file_segments child ->
  (n :: segs) ∈ file_segments (Dir listable entries).
Proof.
  intros Hfind Hsegs. simpl.
  induction entries as [|[n' child'] rest IH]; simpl in *; [discriminate|].
  apply elem_of_app.
  destruct (String.eqb n n') eqn:He.
  - apply String.eqb_eq in He. injection Hfind as <-. subst n'.
    left. apply list_elem_of_fmap. eauto.
  - right. apply IH, Hfind.
Qed.

(** Following plain segments down from a node only descends. *)
Lemma walk_plain (segs : list string) (above : list Node) (cur : Node)
    (c : option Content) :
  Forall plain segs ->
  walk above cur segs = Some (File c) ->
  segs ∈ file_segments cur.
Proof.
  revert above cur. induction segs as [|seg rest IH]; intros above cur Hall.
  - simpl. intros [= ->]. simpl. apply list_elem_of_singleton. reflexivity.
  - inversion Hall as [|? ? (H1 & H2 & H3 & _) Hrest]; subst.
    apply String.eqb_neq in H1, H2, H3.
    destruct cur as [|listable entries|]; simpl; try discriminate.
    rewrite H1, H2, H3. simpl.
    destruct (find_entry seg entries) as [child|] eqn:Hfind; [|discriminate].
    intros Hwalk.
    apply (find_entry_file_segments listable entries seg child rest Hfind).
    eapply IH; eassumption.
Qed.

(** A canonical path that names a file is one of the files of the tree. *)
Lemma canonical_file_known (p : string) (c : option Content) :
  canonical p -> lookup_path fs p = Some (File c) -> p ∈ all_files fs.
Proof.
  intros (segs & -> & Hsegs). unfold lookup_path.
  change (String.eqb ("/" +:+ join_slash segs) "") with false. cbv iota.
  change (isAbsolute ("/" +:+ join_slash segs))
    with (isAbsolute (String "/" (join_slash segs))).
  rewrite isAbsolute_cons.
  change (split_slash ("/" +:+ join_slash segs))
    with ("" :: split_slash (join_slash segs)).
  destruct segs as [|seg rest].
  - simpl. destruct (root fs); discriminate.
  - rewrite split_join_slash;
      [| discriminate | eapply Forall_impl; [exact Hsegs | apply plain_no_slash]].
    destruct (root fs) as [|listable entries|] eqn:Hroot;
      try (intros H; discriminate H).
    change (walk [] (Dir listable entries) ("" :: seg :: rest))
      with (walk [] (Dir listable entries) (seg :: rest)).
    intros Hwalk.
    unfold all_files. apply list_elem_of_fmap.
    exists (seg :: rest). split; [reflexivity|].
    rewrite Hroot. eapply walk_plain; eassumption.
Qed.

Lemma readable_canonical_known (p : string) (c : Content) :
  canonical p -> readFile fs p = Ok c -> p ∈ all_files fs.
Proof.
  unfold readFile. intros Hp.
  destruct (lookup_path fs p) as [[[c'|]| |]|] eqn:Hl; try discriminate.
  intros _. eapply canonical_file_known; eassumption.
Qed.

Lemma parse_reads (file : string) (wf : WorkflowFile) :
  parseWorkflowFile fs file = Ok wf -> exists c, readFile fs file = Ok c.
Proof.
  unfold parseWorkflowFile.
  destruct (readFile fs file) as [c|]; [eauto | discriminate].
Qed.

Lemma plain_action_yml : plain "action.yml" /\ plain "action.yaml".
Proof. repeat split; discriminate. Qed.

Lemma resolveLocalPath_canonical (file localPath repoRoot p : string) :
  resolveLocalPath fs file localPath repoRoot = Some p -> canonical p.
Proof.
  unfold resolveLocalPath.
  destruct (negb (startsWith _ repoRoot)); [discriminate|].
  intros [= <-]. apply path_resolve_canonical, cwd_absolute.
Qed.

Lemma findActionYml_canonical (dirPath a : string) :
  canonical dirPath -> findActionYml fs dirPath = Some a -> canonical a.
Proof.
  intros Hp. unfold findActionYml.
  destruct (stat fs dirPath) as [[| |]|]; simpl; try discriminate.
  - destruct (endsWith dirPath ".yml" || endsWith dirPath ".yaml");
      [|discriminate].
    intros [= <-]. exact Hp.
  - destruct Hp as (segs & -> & Hsegs).
    destruct plain_action_yml as [Hyml Hyaml].
    rewrite !path_join_canonical by assumption.
    destruct (fileExists fs _);
      [|destruct (fileExists fs _); [|discriminate]];
      intros [= <-]; eexists; (split; [reflexivity|]);
      apply Forall_app; (split; [exact Hsegs|]);
      constructor; (assumption || constructor).
Qed.

Lemma local_candidates_canonical (repoRoot file : string)
    (las : list string) (a : string) :
  a ∈ local_candidates fs repoRoot file las -> canonical a.
Proof.
  unfold local_candidates. rewrite list_elem_of_omap.
  intros (la & _ & H).
  destruct (resolveLocalPath fs file la repoRoot) as [lp|] eqn:Hr;
    [|discriminate].
  eapply findActionYml_canonical; [|exact H].
  eapply resolveLocalPath_canonical, Hr.
Qed.

Lemma callable_candidates_canonical (repoRoot file : string)
    (cws : list string) (w : string) :
  w ∈ callable_candidates fs repoRoot file cws -> canonical w.
Proof.
  unfold callable_candidates. rewrite list_elem_of_omap.
  intros (cw & _ & H). eapply resolveLocalPath_canonical, H.
Qed.

Lemma targets_canonical (repoRoot file g : string) :
  g ∈ targets fs repoRoot file -> canonical g.
Proof.
  unfold targets. destruct (parseWorkflowFile fs file) as [wf|];
    [|intros H; inversion H].
  rewrite elem_of_app, elem_of_List_filter.
  intros [[_ H]|H].
  - eapply local_candidates_canonical, H.
  - eapply callable_candidates_canonical, H.
Qed.

End FileSystemFacts.

(** ** Termination of the worklist loop *)

Section Termination.
Variables (fs : FileSystem) (repoRoot : string) (roots : list string).

Lemma scan_loop_more_fuel (fuel fuel' : nat) (st : ScanState)
    (r : Exc ScanState) :
  scan_loop fs repoRoot fuel st = Some r -> fuel <= fuel' ->
  scan_loop fs repoRoot fuel' st = Some r.
Proof.
  revert fuel' st. induction fuel as [|fuel IH]; intros fuel' st.
  - simpl. destruct (filesToProcess st) eqn:Hq; [|discriminate].
    intros H _. destruct fuel'; simpl; rewrite Hq; exact H.
  - intros H Hle. destruct fuel' as [|fuel']; [lia|].
    simpl in *. destruct (filesToProcess st) as [|file rest]; [exact H|].
    destruct (String.eqb file "" || bool_decide (file ∈ processedFiles st)).
    + apply IH; [exact H | lia].
    + destruct (process_file fs repoRoot file (set_queue rest st));
        [apply IH; [exact H | lia] | exact H].
Qed.

Lemma pending_after_file (file : string) (wf : WorkflowFile)
    (st : ScanState) :
  file ∈ known_paths fs roots -> file ∉ processedFiles st ->
  pending (known_paths fs roots) (after_file fs repoRoot file wf st)
  < pending (known_paths fs roots) st.
Proof.
  intros Hk Hn. unfold pending. simpl.
  assert (file ∈ (list_to_set (known_paths fs roots) : gset string)) as Hs
    by (apply elem_of_list_to_set, Hk).
  apply subset_size. split.
  - intros x Hx. apply elem_of_difference in Hx as [Hx1 Hx2].
    apply elem_of_difference. split; [exact Hx1|].
    intros Hx3. apply Hx2, elem_of_union. right. exact Hx3.
  - intros Hsub. specialize (Hsub file).
    rewrite !elem_of_difference, elem_of_union, elem_of_singleton in Hsub.
    destruct Hsub as [_ Hsub]; [split; assumption|].
    apply Hsub. left. reflexivity.
Qed.

Lemma after_file_queue_known (file : string) (wf : WorkflowFile)
    (st : ScanState) :
  queue_known roots st ->
  queue_known roots (after_file fs repoRoot file wf st).
Proof.
  intros Hq f. simpl. rewrite !elem_of_app, elem_of_List_filter.
  unfold unprocessed. rewrite !elem_of_List_filter.
  intros [H|[(_ & _ & H)|[_ H]]].
  - apply Hq, H.
  - right. eapply local_candidates_canonical, H.
  - right. eapply callable_candidates_canonical, H.
Qed.

Lemma parsed_file_known (file : string) (wf : WorkflowFile) :
  file ∈ roots \/ canonical file ->
  parseWorkflowFile fs file = Ok wf ->
  file ∈ known_paths fs roots.
Proof.
  intros Hf Hwf. unfold known_paths. apply elem_of_app.
  destruct Hf as [Hf|Hf]; [left; exact Hf | right].
  apply parse_reads in Hwf as [c Hc].
  eapply readable_canonical_known; eassumption.
Qed.

Lemma scan_loop_skip (fuel : nat) (st : ScanState) (file : string)
    (rest : list string) :
  filesToProcess st = file :: rest ->
  String.eqb file "" || bool_decide (file ∈ processedFiles st) = true ->
  scan_loop fs repoRoot (S fuel) st
  = scan_loop fs repoRoot fuel (set_queue rest st).
Proof. intros Hq Hskip. simpl. rewrite Hq, Hskip. reflexivity. Qed.

Lemma scan_loop_process (fuel : nat) (st : ScanState) (file : string)
    (rest : list string) :
  filesToProcess st = file :: rest ->
  String.eqb file "" || bool_decide (file ∈ processedFiles st) = false ->
  scan_loop fs repoRoot (S fuel) st
  = match process_file fs repoRoot file (set_queue rest st) with
    | Ok st' => scan_loop fs repoRoot fuel st'
    | Throw => Some Throw
    end.
Proof. intros Hq Hskip. simpl. rewrite Hq, Hskip. reflexivity. Qed.

Lemma scan_loop_terminates_below (n : nat) :
  (forall st, pending (known_paths fs roots) st < n -> queue_known roots st ->
              exists fuel r, scan_loop fs repoRoot fuel st = Some r) ->
  forall (q : list string) (st : ScanState),
    filesToProcess st = q ->
    pending (known_paths fs roots) st <= n ->
    queue_known roots st ->
    exists fuel r, scan_loop fs repoRoot fuel st = Some r.
Proof.
  intros IHn. induction q as [|file rest IHq]; intros st Hq Hp Hk.
  { exists 0, (Ok st). simpl. rewrite Hq. reflexivity. }
  assert (queue_known roots (set_queue rest st)) as Hk'.
  { intros f Hf. apply Hk. rewrite Hq. apply elem_of_cons. auto. }
  assert (file ∈ roots \/ canonical file) as Hfile.
  { apply Hk. rewrite Hq. apply elem_of_cons. auto. }
  destruct (String.eqb file "" || bool_decide (file ∈ processedFiles st))
    eqn:Hskip.
  { destruct (IHq (set_queue rest st) eq_refl Hp Hk') as (fuel & r & Hr).
    exists (S fuel), r. rewrite (scan_loop_skip _ _ _ _ Hq Hskip). exact Hr. }
  pose proof Hskip as Hin. apply orb_false_elim in Hin as [_ Hin].
  apply bool_decide_eq_false in Hin.
  destruct (process_file fs repoRoot file (set_queue rest st)) as [st1|]
    eqn:Hproc.
  - pose proof Hproc as Hspec.
    apply process_file_spec in Hspec as (wf & Hwf & ->).
    pose proof (pending_after_file file wf (set_queue rest st)
                  (parsed_file_known file wf Hfile Hwf) Hin) as Hlt.
    change (pending (known_paths fs roots) (set_queue rest st))
      with (pending (known_paths fs roots) st) in Hlt.
    destruct (IHn (after_file fs repoRoot file wf (set_queue rest st)))
      as (fuel & r & Hr); [lia | apply after_file_queue_known, Hk' |].
    exists (S fuel), r.
    rewrite (scan_loop_process _ _ _ _ Hq Hskip), Hproc. exact Hr.
  - exists 1, Throw.
    rewrite (scan_loop_process _ _ _ _ Hq Hskip), Hproc. reflexivity.
Qed.

(** The [while] loop ends: each iteration either shortens the queue or
    processes one more of the finitely many readable paths. *)
Lemma scan_loop_terminates (st : ScanState) :
  queue_known roots st ->
  exists fuel r, scan_loop fs repoRoot fuel st = Some r.
Proof.
  remember (pending (known_paths fs roots) st) as n eqn:Hn.
  revert st Hn. induction n as [n IH] using lt_wf_ind. intros st Hn Hk.
  apply (scan_loop_terminates_below n) with (q := filesToProcess st);
    [| reflexivity | lia | exact Hk].
  intros st' Hlt Hk'. eapply IH; [exact Hlt | reflexivity | exact Hk'].
Qed.

End Termination.

Section RunTerminates.
Variables (fs : FileSystem) (repoRoot : string).

Lemma scan_run_terminates (workflowPath : string)
    (additionalPaths : list string) :
  exists fuel r,
    forall fuel', fuel <= fuel' ->
      scan_run fs fuel' workflowPath additionalPaths repoRoot = Some r.
Proof.
  destruct (scan_loop_terminates fs repoRoot
              (findWorkflowFiles fs workflowPath)
              (initial_state (findWorkflowFiles fs workflowPath)))
    as (fuel & r & Hr).
  { intros f Hf. left. exact Hf. }
  exists fuel.
  exists (match r with
          | Ok st =>
              exc_fold (scan_additional_path fs repoRoot) additionalPaths st
          | Throw => Throw
          end).
  intros fuel' Hle. unfold scan_run.
  rewrite (scan_loop_more_fuel fs repoRoot fuel fuel' _ r Hr Hle).
  destruct r; reflexivity.
Qed.

End RunTerminates.

(** ** The worklist and the local-reference graph *)

Section WalkFacts.

Lemma Node_nested_ind (P : Node -> Prop) :
  (forall c, P (File c)) ->
  (forall listable entries,
      Forall (fun e => P (snd e)) entries -> P (Dir listable entries)) ->
  P Special ->
  forall node, P node.
Proof.
  intros Hfile Hdir Hspecial. fix IH 1.
  intros [c|listable entries|]; [apply Hfile | | apply Hspecial].
  apply Hdir. induction entries as [|[n child] rest IHrest].
  - constructor.
  - constructor; [apply IH | exact IHrest].
Qed.

Lemma workflow_files_at_nonempty (node : Node) :
  forall fullPath n f,
    fullPath <> "" -> f ∈ workflow_files_at fullPath n node -> f <> "".
Proof.
  induction node as [c|listable entries IH|] using Node_nested_ind;
    intros fullPath n f Hne; simpl.
  - destruct (is_yaml_name n); intros Hf.
    + apply list_elem_of_singleton in Hf. subst f. exact Hne.
    + inversion Hf.
  - destruct listable; [|intros Hf; inversion Hf].
    induction entries as [|[n' child] rest IHrest]; intros Hf.
    + inversion Hf.
    + inversion IH as [|? ? Hchild Hrest]; subst.
      apply elem_of_app in Hf as [Hf|Hf].
      * eapply Hchild; [|exact Hf]. apply path_join_nonempty.
      * apply IHrest; assumption.
  - intros Hf. inversion Hf.
Qed.

Lemma findWorkflowFiles_nonempty (fs : FileSystem) (dirPath f : string) :
  f ∈ findWorkflowFiles fs dirPath -> f <> "".
Proof.
  unfold findWorkflowFiles.
  destruct (lookup_path fs dirPath) as [[|[|] entries|]|];
    try (intros Hf; inversion Hf; fail).
  induction entries as [|[n child] rest IH]; simpl; intros Hf.
  - inversion Hf.
  - apply elem_of_app in Hf as [Hf|Hf]; [|apply IH, Hf].
    eapply workflow_files_at_nonempty; [|exact Hf]. apply path_join_nonempty.
Qed.

End WalkFacts.

Section Graph.
Variables (fs : FileSystem) (repoRoot : string) (roots : list string).

Lemma first_with_key_inv (k : string) (ds : list ActionDependency)
    (d : ActionDependency) :
  first_with_key k ds = Some d -> d ∈ ds /\ dep_key d = k.
Proof.
  unfold first_with_key. intros H. apply find_some in H as [Hin He].
  apply String.eqb_eq in He. split; [apply list_elem_of_In, Hin | congruence].
Qed.

Lemma targets_of_parsed (file : string) (wf : WorkflowFile) (g : string) :
  parseWorkflowFile fs file = Ok wf ->
  g ∈ targets fs repoRoot file <->
  (isCompositeAction fs g = true /\
   g ∈ local_candidates fs repoRoot file (localActions wf)) \/
  g ∈ callable_candidates fs repoRoot file (callableWorkflows wf).
Proof.
  intros Hwf. unfold targets. rewrite Hwf, elem_of_app, elem_of_List_filter.
  reflexivity.
Qed.

Lemma elem_of_unprocessed (P : gset string) (l : list string) (x : string) :
  x ∈ unprocessed P l <-> (x ∉ P) /\ x ∈ l.
Proof.
  unfold unprocessed. rewrite elem_of_List_filter, negb_true_iff,
    bool_decide_eq_false. reflexivity.
Qed.

Lemma elem_of_pushed (file : string) (wf : WorkflowFile) (st : ScanState)
    (g : string) :
  parseWorkflowFile fs file = Ok wf ->
  g ∈ filesToProcess (after_file fs repoRoot file wf st) <->
  g ∈ filesToProcess st \/
  ((g ∉ ({[ file ]} ∪ processedFiles st : gset string)) /\
   g ∈ targets fs repoRoot file).
Proof.
  intros Hwf. simpl.
  rewrite !elem_of_app, elem_of_List_filter, !elem_of_unprocessed,
    (targets_of_parsed file wf g Hwf).
  tauto.
Qed.

Lemma graph_invariant_initial :
  (forall f, f ∈ roots -> f <> "") ->
  graph_invariant fs repoRoot roots (initial_state roots).
Proof.
  intros Hne. unfold graph_invariant. simpl.
  split; [exact Hne|]. split; [intros f Hf; set_solver|].
  split; [intros f Hf; apply reach_root, Hf|].
  split; [auto|]. split; [intros f g Hf; set_solver|].
  split; [intros f d Hf; set_solver|]. intros k d Hd. discriminate Hd.
Qed.

Lemma graph_invariant_skip (st : ScanState) (file : string)
    (rest : list string) :
  graph_invariant fs repoRoot roots st ->
  filesToProcess st = file :: rest ->
  file = "" \/ file ∈ processedFiles st ->
  graph_invariant fs repoRoot roots (set_queue rest st).
Proof.
  intros (G0 & G1 & G2 & G3 & G4 & G5 & G6) Hq Hskip.
  assert (file ∈ processedFiles st) as Hfile.
  { destruct Hskip as [->|H]; [|exact H].
    exfalso. apply (G0 ""); [|reflexivity]. rewrite Hq. apply elem_of_cons. auto. }
  assert (forall f, f ∈ filesToProcess st ->
                    f ∈ processedFiles st \/ f ∈ rest) as Hmove.
  { intros f. rewrite Hq, elem_of_cons. intros [->|H]; auto. }
  unfold graph_invariant. simpl.
  assert (forall f, f ∈ rest -> f ∈ filesToProcess st) as Hsub.
  { intros f Hf. rewrite Hq. apply elem_of_cons. auto. }
  split; [intros f Hf; apply G0, Hsub, Hf|].
  split; [exact G1|].
  split; [intros f Hf; apply G2, Hsub, Hf|].
  split; [intros f Hf; destruct (G3 f Hf); auto|].
  split; [intros f g Hf Hg; destruct (G4 f g Hf Hg); auto|].
  split; [exact G5 | exact G6].
Qed.

Lemma graph_invariant_file (st : ScanState) (file : string)
    (rest : list string) (wf : WorkflowFile) :
  graph_invariant fs repoRoot roots st ->
  filesToProcess st = file :: rest ->
  parseWorkflowFile fs file = Ok wf ->
  graph_invariant fs repoRoot roots
    (after_file fs repoRoot file wf (set_queue rest st)).
Proof.
  intros (G0 & G1 & G2 & G3 & G4 & G5 & G6) Hq Hwf.
  assert (forall f, f ∈ rest -> f ∈ filesToProcess st) as Hsub.
  { intros f Hf. rewrite Hq. apply elem_of_cons. auto. }
  assert (reachable fs repoRoot roots file) as Hfile.
  { apply G2. rewrite Hq. apply elem_of_cons. auto. }
  assert (dependencies_of fs file = dependencies wf) as Hdeps.
  { unfold dependencies_of. rewrite Hwf. reflexivity. }
  unfold graph_invariant.
  setoid_rewrite (elem_of_pushed file wf (set_queue rest st) _ Hwf).
  cbn [after_file set_queue processedFiles filesToProcess allDependencies].
  split; [|split; [|split; [|split; [|split; [|split]]]]].
  - intros f [Hf|[_ Hf]]; [apply G0, Hsub, Hf|].
    apply canonical_nonempty. eapply targets_canonical, Hf.
  - intros f Hf. apply elem_of_union in Hf as [Hf|Hf]; [|apply G1, Hf].
    apply elem_of_singleton in Hf. subst f. exact Hfile.
  - intros f [Hf|[_ Hf]]; [apply G2, Hsub, Hf|].
    eapply reach_edge; eassumption.
  - intros f Hf. destruct (G3 f Hf) as [H|H]; [left; set_solver|].
    rewrite Hq in H. apply elem_of_cons in H as [->|H];
      [left; set_solver | right; left; exact H].
  - intros f g Hf Hg. apply elem_of_union in Hf as [Hf|Hf].
    + apply elem_of_singleton in Hf. subst f.
      destruct (decide (g ∈ ({[ file ]} ∪ processedFiles st : gset string)));
        [left; assumption | right; right; split; assumption].
    + destruct (G4 f g Hf Hg) as [H|H]; [left; set_solver|].
      rewrite Hq in H. apply elem_of_cons in H as [->|H];
        [left; set_solver | right; left; exact H].
  - intros f d Hf Hd. rewrite fold_add_to_map_get.
    apply elem_of_union in Hf as [Hf|Hf].
    + apply elem_of_singleton in Hf. subst f. rewrite Hdeps in Hd.
      destruct (map_get (dep_key d) (allDependencies st)); [eauto|].
      destruct (first_with_key_some d _ Hd) as (first & -> & _). eauto.
    + destruct (G5 f d Hf Hd) as [v ->]. eauto.
  - intros k d. rewrite fold_add_to_map_get.
    destruct (map_get k (allDependencies st)) as [v|] eqn:Hk.
    + intros [= <-]. destruct (G6 k v Hk) as (f & Hf & Hd & Hkey).
      exists f. split; [set_solver | auto].
    + intros Hfirst. apply first_with_key_inv in Hfirst as [Hin Hkey].
      exists file. rewrite Hdeps. split; [set_solver | auto].
Qed.

(** When the queue is empty, everything reachable has been processed. *)
Lemma graph_invariant_closed (st : ScanState) (f : string) :
  graph_invariant fs repoRoot roots st ->
  filesToProcess st = [] ->
  reachable fs repoRoot roots f -> f ∈ processedFiles st.
Proof.
  intros (_ & _ & _ & G3 & G4 & _) Hq Hreach.
  induction Hreach as [f Hf|f g _ IH Hg].
  - destruct (G3 f Hf) as [H|H]; [exact H|]. rewrite Hq in H. inversion H.
  - destruct (G4 f g IH Hg) as [H|H]; [exact H|]. rewrite Hq in H. inversion H.
Qed.

Lemma scan_loop_graph (fuel : nat) (st : ScanState) :
  (forall f, f ∈ roots -> f <> "") ->
  scan_loop fs repoRoot fuel (initial_state roots) = Some (Ok st) ->
  graph_invariant fs repoRoot roots st /\ filesToProcess st = [].
Proof.
  intros Hne.
  apply (scan_loop_invariant fs repoRoot (graph_invariant fs repoRoot roots)).
  - apply graph_invariant_skip.
  - intros st0 file rest wf G Hq _ _ Hwf.
    eapply graph_invariant_file; eassumption.
  - apply graph_invariant_initial, Hne.
Qed.

End Graph.

(** ** Traversal *)

Section Traversal.
Variables (fs : FileSystem) (repoRoot : string).

Lemma parsed_once_step (st st' : ScanState) (file : string)
    (pre post : list Event) :
  parsed_once st -> file ∉ processedFiles st ->
  parsed_files pre = [file] -> parsed_files post = [] ->
  trace st' = trace st ++ pre ++ post ->
  processedFiles st' = {[ file ]} ∪ processedFiles st ->
  parsed_once st'.
Proof.
  intros [Hnd Hiff] Hn Hpre Hpost Htr HP. unfold parsed_once.
  rewrite Htr, HP, !parsed_files_app, Hpre, Hpost, app_nil_r. split.
  - apply NoDup_app. split; [exact Hnd|]. split; [|apply NoDup_singleton].
    intros x Hx Hx'. apply list_elem_of_singleton in Hx'. subst x.
    apply Hn, Hiff, Hx.
  - intros f. rewrite elem_of_app, list_elem_of_singleton, elem_of_union,
      elem_of_singleton, Hiff. tauto.
Qed.

Lemma parsed_once_run (fuel : nat) (workflowPath : string)
    (additionalPaths : list string) (st : ScanState) :
  scan_run fs fuel workflowPath additionalPaths repoRoot = Some (Ok st) ->
  parsed_once st.
Proof.
  apply (scan_run_invariant fs repoRoot parsed_once).
  - intros st0 q H. exact H.
  - intros st0 file wf H Hn _.
    apply (parsed_once_step st0 _ file [EvParse file]
             (map EvDep (dependencies wf)
              ++ map EvCheck
                   (unprocessed ({[ file ]} ∪ processedFiles st0)
                      (local_candidates fs repoRoot file (localActions wf)))));
      try reflexivity; try assumption.
    rewrite parsed_files_app, parsed_files_deps, parsed_files_checks.
    reflexivity.
  - intros st0 file [Hnd Hiff]. unfold parsed_once. simpl.
    rewrite parsed_files_app. simpl. rewrite app_nil_r. auto.
  - intros st0 file wf H Hn _.
    apply (parsed_once_step st0 _ file [EvCheck file; EvParse file]
             (map EvDep (dependencies wf)
              ++ map EvCheck
                   (unprocessed ({[ file ]} ∪ processedFiles st0)
                      (local_candidates fs repoRoot file (localActions wf)))));
      try reflexivity; try assumption.
    rewrite parsed_files_app, parsed_files_deps, parsed_files_checks.
    reflexivity.
  - split; [constructor|]. intros f. simpl. split; intros H.
    + inversion H.
    + apply elem_of_empty in H. destruct H.
Qed.

Lemma extends_additional (m : JsMap ActionDependency) (P : gset string)
    (additionalPaths : list string) (st st' : ScanState) :
  extends m P st ->
  exc_fold (scan_additional_path fs repoRoot) additionalPaths st = Ok st' ->
  extends m P st'.
Proof.
  apply exc_fold_invariant. intros a additionalPath a' Ha.
  unfold scan_additional_path. apply exc_fold_invariant; [|exact Ha].
  intros b file b' [Hm HP] Hstep.
  apply scan_additional_file_spec in Hstep
    as [[_ ->]|[(_ & _ & ->)|(_ & _ & wf & _ & ->)]];
    [split; assumption | split; assumption |].
  split; simpl.
  - intros k Hk. rewrite fold_add_to_map_get.
    destruct (Hm k Hk) as [v ->]. eauto.
  - intros x Hx. apply elem_of_union. right. apply HP, Hx.
Qed.

(** C8 (amended): the scan always ends, with a result that no longer
    depends on the fuel.  When it returns a map: no path is handed to
    parseWorkflowFile twice; every file reachable from the workflow files
    through local references is handed to it, hence exactly once; every
    dependency of every reachable file is in the map; and without
    additional paths the map holds nothing else.  (The composite check
    isCompositeAction reads a manifest again at every reference site that
    reaches it before it is processed.) *)
Theorem C8_traversal (workflowPath : string) (additionalPaths : list string) :
  let roots := findWorkflowFiles fs workflowPath in
  (exists fuel r,
      forall fuel', fuel <= fuel' ->
        scan_run fs fuel' workflowPath additionalPaths repoRoot = Some r) /\
  (forall fuel st,
      scan_run fs fuel workflowPath additionalPaths repoRoot = Some (Ok st) ->
      NoDup (parsed_files (trace st)) /\
      (forall f, reachable fs repoRoot roots f ->
                 f ∈ parsed_files (trace st)) /\
      (forall f d, reachable fs repoRoot roots f ->
                   d ∈ dependencies_of fs f ->
                   is_Some (map_get (dep_key d) (allDependencies st))) /\
      (additionalPaths = [] ->
       forall k d, map_get k (allDependencies st) = Some d ->
                   exists f, reachable fs repoRoot roots f /\
                             d ∈ dependencies_of fs f /\ dep_key d = k)).
Proof.
  intros roots. split; [apply scan_run_terminates|].
  intros fuel st Hrun.
  pose proof (parsed_once_run _ _ _ _ Hrun) as [Hnd Hiff].
  split; [exact Hnd|].
  unfold scan_run in Hrun. fold roots in Hrun.
  destruct (scan_loop fs repoRoot fuel (initial_state roots))
    as [[st1|]|] eqn:Hloop; try discriminate.
  injection Hrun as Hfold.
  apply scan_loop_graph in Hloop as [G Hq];
    [| intros f Hf; eapply findWorkflowFiles_nonempty, Hf].
  assert (extends (allDependencies st1) (processedFiles st1) st) as [Hm HP].
  { eapply extends_additional; [|exact Hfold]. split; [auto | reflexivity]. }
  assert (forall f, reachable fs repoRoot roots f -> f ∈ processedFiles st1)
    as Hclosed.
  { intros f Hf. eapply graph_invariant_closed; eassumption. }
  split; [|split].
  - intros f Hf. apply Hiff, HP, Hclosed, Hf.
  - intros f d Hf Hd. apply Hm.
    destruct G as (_ & _ & _ & _ & _ & G5 & _).
    apply (G5 f d); [apply Hclosed, Hf | exact Hd].
  - intros -> k d Hk. simpl in Hfold. injection Hfold as <-.
    destruct G as (_ & G1 & _ & _ & _ & _ & G6).
    destruct (G6 k d Hk) as (f & Hf & Hd & Hkey).
    exists f. auto.
Qed.

End Traversal.

(** C8, as stated, fails: in the scan of [fs_cycle], which ends and returns
    its map, the manifest /work/repo/actions/a/action.yml is read and parsed
    three times, twice by the composite check (once per step that names it)
    and once by parseWorkflowFile. *)
Lemma C8_manifest_read_three_times :
  scan_run Examples.fs_cycle 10 Examples.workflows_dir [] Examples.repo_root
  = Some (Ok Examples.cycle_result) /\
  checked_files (trace Examples.cycle_result)
  = ["/work/repo/actions/a/action.yml"; "/work/repo/actions/a/action.yml";
     "/work/repo/actions/b/action.yaml"] /\
  read_count "/work/repo/actions/a/action.yml" (trace Examples.cycle_result)
  = 3.
Proof. split; [vm_compute; reflexivity|]. split; reflexivity. Qed.

Lemma C8_traversal_witness :
  NoDup (parsed_files (trace Examples.cycle_result)) /\
  (forall f,
      reachable Examples.fs_cycle Examples.repo_root
        (findWorkflowFiles Examples.fs_cycle Examples.workflows_dir) f ->
      f ∈ parsed_files (trace Examples.cycle_result)) /\
  (forall f d,
      reachable Examples.fs_cycle Examples.repo_root
        (findWorkflowFiles Examples.fs_cycle Examples.workflows_dir) f ->
      d ∈ dependencies_of Examples.fs_cycle f ->
      is_Some (map_get (dep_key d) (allDependencies Examples.cycle_result))) /\
  (@nil string = [] ->
   forall k d,
     map_get k (allDependencies Examples.cycle_result) = Some d ->
     exists f,
       reachable Examples.fs_cycle Examples.repo_root
         (findWorkflowFiles Examples.fs_cycle Examples.workflows_dir) f /\
       d ∈ dependencies_of Examples.fs_cycle f /\ dep_key d = k).
Proof.
  apply (proj2 (C8_traversal Examples.fs_cycle Examples.repo_root
                  Examples.workflows_dir []) 10 Examples.cycle_result).
  vm_compute. reflexivity.
Defined.

(** ** Fork resolution *)

Section ForkResolution.
Import ForkResolver.
Variable cfg : Config.

Lemma resolve_from_elem (seen : gset string) (deps : list Dependency)
    (r : Resolved) :
  r ∈ resolve_from cfg seen deps ->
  exists dep, dep ∈ deps /\ r = resolve_one cfg dep.
Proof.
  revert seen. induction deps as [|dep rest IH]; intros seen; simpl.
  - intros H. inversion H.
  - case_bool_decide.
    + intros H'. destruct (IH _ H') as (d & Hd & ->).
      exists d. split; [apply elem_of_cons; auto | reflexivity].
    + intros H'. apply elem_of_cons in H' as [->|H'].
      * exists dep. split; [apply elem_of_cons; auto | reflexivity].
      * destruct (IH _ H') as (d & Hd & ->).
        exists d. split; [apply elem_of_cons; auto | reflexivity].
Qed.

(** The first dependency with a given identity is resolved and emitted. *)
Lemma resolve_from_first (seen : gset string) (before after : list Dependency)
    (dep : Dependency) :
  identity_key dep ∉ seen ->
  identity_key dep ∉ map identity_key before ->
  resolve_one cfg dep ∈ resolve_from cfg seen (before ++ dep :: after).
Proof.
  revert seen. induction before as [|b before IH]; intros seen Hseen Hb; simpl.
  - rewrite bool_decide_eq_false_2 by exact Hseen.
    apply elem_of_cons. auto.
  - simpl in Hb. apply not_elem_of_cons in Hb as [Hne Hb].
    case_bool_decide.
    + apply IH; assumption.
    + apply elem_of_cons. right. apply IH; [|exact Hb].
      intros Hin. apply elem_of_union in Hin as [Hin|Hin]; [|contradiction].
      apply elem_of_singleton in Hin. contradiction.
Qed.

Lemma resolves_to_itself_spec (dep : Dependency) (up : Upstream) :
  resolves_to_itself dep up = true <->
  upstream_owner up = owner dep /\ upstream_repo up = repo dep.
Proof.
  unfold resolves_to_itself.
  rewrite andb_true_iff, !String.eqb_eq. reflexivity.
Qed.

(** What [resolve_one] leaves in [original]: the dependency is allow-listed
    and the pattern or the lookup found an upstream other than the
    dependency itself. *)
Lemma resolve_one_original (dep : Dependency) (up : Upstream) :
  r_original (resolve_one cfg dep) = Some up <->
  allow_listed cfg (owner dep) = true /\
  find_original cfg (owner dep) (repo dep) = Some up /\
  resolves_to_itself dep up = false.
Proof.
  unfold resolve_one. cbn [r_original].
  destruct (allow_listed cfg (owner dep)).
  - destruct (find_original cfg (owner dep) (repo dep)) as [found|].
    + destruct (resolves_to_itself dep found) eqn:Hself.
      * split; [discriminate|].
        intros (_ & [= ->] & H). congruence.
      * split.
        -- intros [= ->]. auto.
        -- intros (_ & [= ->] & _). reflexivity.
    + split; [discriminate | intros (_ & H & _); discriminate H].
  - split; [discriminate | intros (H & _); discriminate H].
Qed.

(** C5 (amended): an [original] in the resolver's output belongs to a
    dependency whose owner is allow-listed, is what the pattern or the
    lookup found for it, and is not the dependency itself: its owner or its
    repository differs from the dependency's.  A resolution of a
    dependency to itself is suppressed: the dependency is emitted with
    [original] absent. *)
Theorem C5_original_is_not_itself (deps : list Dependency)
    (rs : list Resolved) (r : Resolved) :
  resolveDependencies cfg deps = Ok rs ->
  r ∈ rs ->
  (forall up,
      r_original r = Some up ->
      allow_listed cfg (r_owner r) = true /\
      find_original cfg (r_owner r) (r_repo r) = Some up /\
      (upstream_owner up <> r_owner r \/ upstream_repo up <> r_repo r)) /\
  (find_original cfg (r_owner r) (r_repo r)
   = Some {| upstream_owner := r_owner r; upstream_repo := r_repo r |} ->
   r_original r = None).
Proof.
  unfold resolveDependencies. intros [= <-] Hr.
  apply resolve_from_elem in Hr as (dep & _ & ->).
  change (r_owner (resolve_one cfg dep)) with (owner dep).
  change (r_repo (resolve_one cfg dep)) with (repo dep).
  split.
  - intros up Hup. apply resolve_one_original in Hup as (Hallow & Hfind & Hself).
    split; [exact Hallow|]. split; [exact Hfind|].
    destruct (String.eqb (upstream_owner up) (owner dep)) eqn:Ho.
    + right. intros Hr. apply String.eqb_eq in Ho.
      assert (resolves_to_itself dep up = true) as Habs
        by (apply resolves_to_itself_spec; auto).
      congruence.
    + left. apply String.eqb_neq, Ho.
  - intros Hfind.
    destruct (r_original (resolve_one cfg dep)) as [up|] eqn:Hup;
      [|reflexivity].
    apply resolve_one_original in Hup as (_ & Hfound & Hself).
    rewrite Hfind in Hfound. injection Hfound as <-.
    unfold resolves_to_itself in Hself. cbn in Hself.
    rewrite !String.eqb_refl in Hself. discriminate Hself.
Qed.

(** C9: for the first dependency with its identity, allow-listed owner, no
    pattern match (so that the lookup decides), and a lookup that fails,
    whatever the kind of failure, or reports that the repository is not a
    fork: resolution returns normally and the dependency is in the result
    with [original] absent. *)
Theorem C9_lookup_failure_degrades (before after : list Dependency)
    (dep : Dependency) :
  identity_key dep ∉ map identity_key before ->
  allow_listed cfg (owner dep) = true ->
  pattern_original cfg (owner dep) (repo dep) = None ->
  (exists kind, lookupFork cfg (owner dep) (repo dep) = Failed kind) \/
  (exists info, lookupFork cfg (owner dep) (repo dep) = Reported info /\
                isFork info = false) ->
  exists rs,
    resolveDependencies cfg (before ++ dep :: after) = Ok rs /\
    {| r_owner := owner dep; r_repo := repo dep; r_ref := ref dep;
       r_original := None |} ∈ rs.
Proof.
  intros Hfirst Hallow Hpat Hlookup.
  eexists. split; [reflexivity|].
  assert (resolve_one cfg dep
          = {| r_owner := owner dep; r_repo := repo dep; r_ref := ref dep;
               r_original := None |}) as <-.
  { unfold resolve_one, find_original, lookup_original.
    rewrite Hallow, Hpat.
    destruct Hlookup as [[kind ->]|(info & -> & ->)]; reflexivity. }
  apply resolve_from_first; [|exact Hfirst].
  intros H. apply elem_of_empty in H. exact H.
Qed.

End ForkResolution.

(** C5, as stated, fails: with the pattern
    [^(?<org>[^/]+)/actions-(?<repo>.+)$] the dependency
    enterprise/actions-checkout resolves to the original
    enterprise/checkout, whose owner is the dependency's own owner. *)
Lemma C5_pattern_keeps_owner :
  ForkResolver.resolveDependencies ForkResolver.enterprise_config
    [ForkResolver.enterprise_checkout]
  = Ok [ {| ForkResolver.r_owner := "enterprise";
            ForkResolver.r_repo := "actions-checkout";
            ForkResolver.r_ref := "v4";
            ForkResolver.r_original :=
              Some {| upstream_owner := "enterprise";
                      upstream_repo := "checkout" |} |} ].
Proof. reflexivity. Qed.

Lemma C5_original_is_not_itself_witness :
  (let cfg := ForkResolver.enterprise_config in
   ForkResolver.allow_listed cfg "enterprise" = true /\
   ForkResolver.find_original cfg "enterprise" "actions-checkout"
   = Some {| upstream_owner := "enterprise"; upstream_repo := "checkout" |} /\
   ("enterprise" <> "enterprise" \/ "checkout" <> "actions-checkout")) /\
  (let cfg :=
     ForkResolver.myorg_config (ForkResolver.fork_of "myorg" "checkout") in
   ForkResolver.find_original cfg "myorg" "checkout"
   = Some {| upstream_owner := "myorg"; upstream_repo := "checkout" |} /\
   ForkResolver.r_original
     (ForkResolver.resolve_one cfg ForkResolver.myorg_checkout) = None).
Proof.
  split.
  - apply (proj1 (C5_original_is_not_itself ForkResolver.enterprise_config
                    [ForkResolver.enterprise_checkout]
                    [ForkResolver.resolve_one ForkResolver.enterprise_config
                       ForkResolver.enterprise_checkout]
                    (ForkResolver.resolve_one ForkResolver.enterprise_config
                       ForkResolver.enterprise_checkout)
                    eq_refl
                    (proj2 (list_elem_of_singleton _ _) eq_refl))
             {| upstream_owner := "enterprise"; upstream_repo := "checkout" |}).
    reflexivity.
  - split; [reflexivity|].
    apply (proj2 (C5_original_is_not_itself
                    (ForkResolver.myorg_config
                       (ForkResolver.fork_of "myorg" "checkout"))
                    [ForkResolver.myorg_checkout]
                    [ForkResolver.resolve_one
                       (ForkResolver.myorg_config
                          (ForkResolver.fork_of "myorg" "checkout"))
                       ForkResolver.myorg_checkout]
                    (ForkResolver.resolve_one
                       (ForkResolver.myorg_config
                          (ForkResolver.fork_of "myorg" "checkout"))
                       ForkResolver.myorg_checkout)
                    eq_refl
                    (proj2 (list_elem_of_singleton _ _) eq_refl))).
    reflexivity.
Defined.

Lemma C9_lookup_failure_degrades_witness :
  exists rs,
    ForkResolver.resolveDependencies
      (ForkResolver.myorg_config (ForkResolver.Failed ForkResolver.NetworkError))
      [ForkResolver.myorg_checkout] = Ok rs /\
    {| ForkResolver.r_owner := "myorg"; ForkResolver.r_repo := "checkout";
       ForkResolver.r_ref := "v4"; ForkResolver.r_original := None |} ∈ rs.
Proof.
  apply (C9_lookup_failure_degrades
           (ForkResolver.myorg_config
              (ForkResolver.Failed ForkResolver.NetworkError))
           [] [] ForkResolver.myorg_checkout).
  - simpl. intros H. inversion H.
  - reflexivity.
  - reflexivity.
  - left. exists ForkResolver.NetworkError. reflexivity.
Defined.

(** ** Aggregation of resolved dependencies *)

Section Aggregation.
Import ForkResolver Aggregator.

Lemma keep_first_elem (seen : gset string) (es : list Entry) (e : Entry) :
  e ∈ keep_first seen es -> e ∈ es /\ identifier e ∉ seen.
Proof.
  revert seen. induction es as [|e0 rest IH]; intros seen; simpl.
  - intros H. inversion H.
  - case_bool_decide as Hseen.
    + intros H. destruct (IH _ H) as [Hin Hout].
      split; [apply list_elem_of_further, Hin | exact Hout].
    + intros H. apply elem_of_cons in H as [->|H].
      * split; [apply list_elem_of_here | exact Hseen].
      * destruct (IH _ H) as [Hin Hout].
        split; [apply list_elem_of_further, Hin|].
        intros Habs. apply Hout. apply elem_of_union. right. exact Habs.
Qed.

Lemma keep_first_NoDup (seen : gset string) (es : list Entry) :
  NoDup (map identifier (keep_first seen es)).
Proof.
  revert seen. induction es as [|e0 rest IH]; intros seen; simpl.
  - constructor.
  - case_bool_decide as Hseen; [apply IH|].
    simpl. apply NoDup_cons. split; [|apply IH].
    intros Hin. apply list_elem_of_fmap in Hin as (e & Hid & He).
    apply keep_first_elem in He as [_ Hout].
    apply Hout. apply elem_of_union. left.
    apply elem_of_singleton. symmetry. exact Hid.
Qed.

(** The identifier of an entry not seen before is in the output. *)
Lemma keep_first_complete (seen : gset string) (es : list Entry) (e : Entry) :
  e ∈ es -> identifier e ∉ seen ->
  identifier e ∈ map identifier (keep_first seen es).
Proof.
  revert seen. induction es as [|e0 rest IH]; intros seen Hin Hout.
  - inversion Hin.
  - simpl. case_bool_decide as Hseen.
    + apply elem_of_cons in Hin as [->|Hin]; [contradiction|].
      apply IH; assumption.
    + simpl. apply elem_of_cons.
      destruct (decide (identifier e = identifier e0)) as [Heq|Hne];
        [left; exact Heq|].
      right. apply elem_of_cons in Hin as [->|Hin]; [congruence|].
      apply IH; [exact Hin|].
      intros Habs. apply elem_of_union in Habs as [Habs|Habs];
        [|contradiction].
      apply elem_of_singleton in Habs. contradiction.
Qed.

(** C4: for a resolved dependency with an [original], two entries are
    emitted, the dependency itself as [owner/repo@ref] and the original as
    [owner/repo] without a version suffix; for one without, the dependency
    itself alone.  Both identifiers are in the aggregate of any list that
    holds the dependency, which has no identifier twice and nothing that
    was not emitted; aggregated alone, a dependency with an original whose
    name has no '@' gives exactly its two entries. *)
Theorem C4_fork_and_original (rs : list Resolved) (r : Resolved) :
  r ∈ rs ->
  let own := (r_owner r +:+ "/" +:+ r_repo r) +:+ "@" +:+ r_ref r in
  (forall up,
      r_original r = Some up ->
      let upstream := upstream_owner up +:+ "/" +:+ upstream_repo up in
      emitted r = [own_entry r; original_entry up] /\
      map identifier (emitted r) = [own; upstream] /\
      (contains_char chr_at upstream = false ->
       aggregate [r] = [own_entry r; original_entry up])) /\
  (r_original r = None ->
   emitted r = [own_entry r] /\ map identifier (emitted r) = [own] /\
   aggregate [r] = [own_entry r]) /\
  (forall e, e ∈ emitted r -> identifier e ∈ map identifier (aggregate rs)) /\
  NoDup (map identifier (aggregate rs)) /\
  (forall e, e ∈ aggregate rs -> exists r', r' ∈ rs /\ e ∈ emitted r').
Proof.
  intros Hr own.
  split; [|split; [|split; [|split]]].
  - intros up Hup upstream. unfold emitted. rewrite Hup.
    split; [reflexivity|]. split; [reflexivity|].
    intros Hat. unfold aggregate. cbn [flat_map]. unfold emitted.
    rewrite Hup, app_nil_r. cbn [keep_first].
    rewrite bool_decide_eq_false_2 by apply not_elem_of_empty.
    rewrite bool_decide_eq_false_2; [reflexivity|].
    intros Hin. apply elem_of_union in Hin as [Hin|Hin];
      [|apply elem_of_empty in Hin; exact Hin].
    apply elem_of_singleton in Hin.
    change (identifier (original_entry up)) with upstream in Hin.
    pose proof (contains_char_app chr_at (r_owner r +:+ "/" +:+ r_repo r)
                  (r_ref r)) as Hown.
    change (identifier (own_entry r))
      with ((r_owner r +:+ "/" +:+ r_repo r) +:+ String chr_at (r_ref r))
      in Hin.
    rewrite <- Hin, Hat in Hown. discriminate Hown.
  - intros Hnone. unfold aggregate. cbn [flat_map]. unfold emitted.
    rewrite Hnone. split; [reflexivity|]. split; [reflexivity|].
    cbn [app keep_first].
    rewrite bool_decide_eq_false_2 by apply not_elem_of_empty. reflexivity.
  - intros e He. apply keep_first_complete; [|apply not_elem_of_empty].
    apply list_elem_of_In, in_flat_map. exists r.
    split; apply list_elem_of_In; assumption.
  - apply keep_first_NoDup.
  - intros e He. apply keep_first_elem in He as [He _].
    apply list_elem_of_In, in_flat_map in He as (r' & Hr' & He).
    exists r'. split; apply list_elem_of_In; assumption.
Qed.

End Aggregation.

Lemma C4_fork_and_original_witness :
  let cfg :=
    ForkResolver.myorg_config (ForkResolver.fork_of "actions" "checkout") in
  let r := ForkResolver.resolve_one cfg ForkResolver.myorg_checkout in
  let up := {| upstream_owner := "actions"; upstream_repo := "checkout" |} in
  ForkResolver.resolveDependencies cfg [ForkResolver.myorg_checkout]
  = Ok [r] /\
  Aggregator.emitted r
  = [Aggregator.own_entry r; Aggregator.original_entry up] /\
  map Aggregator.identifier (Aggregator.emitted r)
  = ["myorg/checkout@v4"; "actions/checkout"] /\
  (contains_char chr_at "actions/checkout" = false ->
   Aggregator.aggregate [r]
   = [Aggregator.own_entry r; Aggregator.original_entry up]).
Proof.
  split; [reflexivity|].
  apply (proj1 (C4_fork_and_original
                  [ForkResolver.resolve_one
                     (ForkResolver.myorg_config
                        (ForkResolver.fork_of "actions" "checkout"))
                     ForkResolver.myorg_checkout]
                  (ForkResolver.resolve_one
                     (ForkResolver.myorg_config
                        (ForkResolver.fork_of "actions" "checkout"))
                     ForkResolver.myorg_checkout)
                  (proj2 (list_elem_of_singleton _ _) eq_refl))
           {| upstream_owner := "actions"; upstream_repo := "checkout" |}).
  reflexivity.
Defined.

(** ** What the extraction produces *)

Section UsesStrings.

Lemma split_first_sound (c : ascii) (s l r : string) :
  split_first c s = Some (l, r) ->
  s = l +:+ String c r /\ contains_char c l = false.
Proof.
  revert l. induction s as [|a s IH]; intros l; simpl; [discriminate|].
  destruct (Ascii.eqb a c) eqn:Ha.
  - apply Ascii.eqb_eq in Ha. subst a. intros [= <- <-]. auto.
  - destruct (split_first c s) as [[l' r']|]; [|discriminate].
    intros [= <- <-]. destruct (IH l' eq_refl) as [-> Hl].
    split; [reflexivity|]. simpl. rewrite Ha. exact Hl.
Qed.

Lemma split_first_complete (c : ascii) (l r : string) :
  contains_char c l = false ->
  split_first c (l +:+ String c r) = Some (l, r).
Proof.
  induction l as [|a l IH]; simpl.
  - intros _. rewrite Ascii.eqb_refl. reflexivity.
  - destruct (Ascii.eqb a c); simpl; [discriminate|].
    intros H. rewrite IH by exact H. reflexivity.
Qed.

(** The pattern [^([^@]+)@(.+)$] matches exactly the strings
    [name@ref] with a non-empty [name] free of '@' and a non-empty [ref]
    free of line terminators, and returns these two parts. *)
Lemma match_name_ref_spec (uses n r : string) :
  match_name_ref uses = Some (n, r) <->
  uses = n +:+ "@" +:+ r /\ n <> "" /\ contains_char chr_at n = false /\
  r <> "" /\ has_line_terminator r = false.
Proof.
  unfold match_name_ref. split.
  - destruct (split_first chr_at uses) as [[l t]|] eqn:Hs; [|discriminate].
    apply split_first_sound in Hs as [-> Hl].
    destruct (String.eqb l "") eqn:H1; [discriminate|].
    destruct (String.eqb t "") eqn:H2; [discriminate|].
    destruct (has_line_terminator t) eqn:H3; [discriminate|].
    intros [= <- <-]. apply String.eqb_neq in H1, H2. auto.
  - intros (-> & H1 & H2 & H3 & H4).
    change (n +:+ "@" +:+ r) with (n +:+ String chr_at r).
    rewrite split_first_complete by exact H2.
    apply String.eqb_neq in H1, H3. rewrite H1, H3, H4. reflexivity.
Qed.

Lemma local_prefix_nonempty (uses : string) :
  is_local_prefix uses = true -> String.eqb uses "" = false.
Proof. destruct uses; [discriminate | reflexivity]. Qed.

(** What the callers of the two classifiers see: a local reference with
    its path, a remote one with the two parts of [uses], or nothing. *)
Lemma parseWorkflowUses_cases (uses : string) :
  match parseWorkflowUses uses with
  | Some dep =>
      (is_local_prefix uses = true /\ is_local_with_path dep = Some uses) \/
      (is_local_prefix uses = false /\ is_local_with_path dep = None /\
       match_name_ref uses = Some (u_name dep, u_version dep))
  | None => is_local_prefix uses = false /\ match_name_ref uses = None
  end.
Proof.
  unfold parseWorkflowUses.
  destruct (is_local_prefix uses) eqn:Hl.
  - left. split; [reflexivity|]. unfold is_local_with_path. simpl.
    rewrite (local_prefix_nonempty _ Hl). reflexivity.
  - destruct (match_name_ref uses) as [[n r]|]; [|auto].
    right. auto.
Qed.

Lemma parseActionUses_cases (uses : string) :
  match parseActionUses uses with
  | Some dep =>
      (is_local_prefix uses = true /\ is_local_with_path dep = Some uses) \/
      (is_local_prefix uses = false /\ is_local_with_path dep = None /\
       match_name_ref uses = Some (u_name dep, u_version dep))
  | None => True
  end.
Proof.
  unfold parseActionUses.
  destruct (startsWith uses "docker://"); [exact I|].
  pose proof (parseWorkflowUses_cases uses) as H.
  unfold parseWorkflowUses in H.
  destruct (is_local_prefix uses); [exact H|].
  destruct (match_name_ref uses) as [[n r]|]; [exact H | exact I].
Qed.

End UsesStrings.

Section ExtractionShape.

Lemma push_dependency_shape (dep : ParsedUses) (uses : string)
    (acc : Extracted) :
  extracted_shape acc ->
  is_local_prefix uses = false ->
  match_name_ref uses = Some (u_name dep, u_version dep) ->
  extracted_shape (push_dependency dep uses acc).
Proof.
  intros (Hd & Hl & Hc) Hloc Hm. unfold extracted_shape. simpl.
  split; [|auto]. apply Forall_app. split; [exact Hd|].
  constructor; [|constructor].
  pose proof Hm as Hm'. apply match_name_ref_spec in Hm' as (Hu & _).
  unfold from_uses, dep_key. simpl. rewrite <- Hu. auto.
Qed.

Lemma extract_step_shape (step : Yaml) (acc acc' : Extracted) :
  extracted_shape acc -> extract_step step acc = Ok acc' ->
  extracted_shape acc' /\
  x_callableWorkflows acc' = x_callableWorkflows acc.
Proof.
  intros Hacc. unfold extract_step.
  destruct (get (Some step) "uses") as [[u|]|]; cbn [exc_bind];
    try discriminate; [|intros [= <-]; auto].
  destruct (truthy (Some u)); [|intros [= <-]; auto].
  destruct (as_uses_string u) as [s|]; cbn [exc_bind]; [|discriminate].
  pose proof (parseActionUses_cases s) as Hcase.
  destruct (parseActionUses s) as [dep|]; [|intros [= <-]; auto].
  destruct Hcase as [[Hl ->]|(Hl & -> & Hm)]; intros [= <-].
  - split; [|reflexivity]. destruct Hacc as (Hd & Hla & Hc).
    unfold extracted_shape. simpl. split; [exact Hd|]. split; [|exact Hc].
    apply Forall_app. split; [exact Hla|]. constructor; [exact Hl|constructor].
  - split; [|reflexivity]. apply push_dependency_shape; assumption.
Qed.

Lemma extract_steps_shape (steps : list Yaml) (acc acc' : Extracted) :
  extracted_shape acc -> extract_steps steps acc = Ok acc' ->
  extracted_shape acc' /\
  x_callableWorkflows acc' = x_callableWorkflows acc.
Proof.
  revert acc. induction steps as [|step rest IH]; intros acc Hacc; simpl.
  - intros [= <-]. auto.
  - destruct (extract_step step acc) as [acc1|] eqn:H1; cbn [exc_bind]; [|discriminate].
    apply extract_step_shape in H1 as [Hs1 Hc1]; [|exact Hacc].
    intros H2. apply IH in H2 as [Hs2 Hc2]; [|exact Hs1].
    split; [exact Hs2 | congruence].
Qed.

Lemma extract_job_uses_shape (job : Yaml) (acc acc' : Extracted) :
  extracted_shape acc -> extract_job_uses job acc = Ok acc' ->
  extracted_shape acc'.
Proof.
  intros Hacc. unfold extract_job_uses.
  destruct (get (Some job) "uses") as [[u|]|]; cbn [exc_bind];
    try discriminate; [|intros [= <-]; auto].
  destruct (truthy (Some u)); [|intros [= <-]; auto].
  destruct (as_uses_string u) as [s|]; cbn [exc_bind]; [|discriminate].
  pose proof (parseWorkflowUses_cases s) as Hcase.
  destruct (parseWorkflowUses s) as [dep|]; [|intros [= <-]; auto].
  destruct Hcase as [[Hl ->]|(Hl & -> & Hm)]; intros [= <-].
  - destruct Hacc as (Hd & Hla & Hc).
    unfold extracted_shape. simpl. split; [exact Hd|]. split; [exact Hla|].
    apply Forall_app. split; [exact Hc|]. constructor; [exact Hl|constructor].
  - apply push_dependency_shape; assumption.
Qed.

Lemma extract_jobs_shape (jobs : list Yaml) (acc acc' : Extracted) :
  extracted_shape acc -> extract_jobs jobs acc = Ok acc' ->
  extracted_shape acc'.
Proof.
  revert acc. induction jobs as [|job rest IH]; intros acc Hacc; simpl.
  - intros [= <-]. exact Hacc.
  - unfold extract_job.
    destruct (extract_job_uses job acc) as [acc1|] eqn:H1; cbn [exc_bind];
      [|discriminate].
    apply extract_job_uses_shape in H1; [|exact Hacc].
    destruct (get (Some job) "steps") as [steps|]; cbn [exc_bind]; [|discriminate].
    destruct (truthy steps).
    + destruct (for_of steps) as [items|]; cbn [exc_bind]; [|discriminate].
      destruct (extract_steps items acc1) as [acc2|] eqn:H2; cbn [exc_bind];
        [|discriminate].
      apply extract_steps_shape in H2 as [H2 _]; [|exact H1].
      apply IH, H2.
    + simpl. apply IH, H1.
Qed.

Lemma no_extracted_shape : extracted_shape no_extracted.
Proof. repeat split; constructor. Qed.

Lemma extractFromCompositeAction_shape (act : Yaml) (x : Extracted) :
  extractFromCompositeAction act no_extracted = Ok x ->
  extracted_shape x /\ x_callableWorkflows x = [].
Proof.
  unfold extractFromCompositeAction.
  destruct (get (Some act) "runs") as [runs|]; cbn [exc_bind]; [|discriminate].
  destruct (negb (truthy runs));
    [intros [= <-]; split; [apply no_extracted_shape | reflexivity]|].
  destruct (get runs "steps") as [steps|]; cbn [exc_bind]; [|discriminate].
  destruct (negb (truthy steps));
    [intros [= <-]; split; [apply no_extracted_shape | reflexivity]|].
  destruct (for_of steps) as [items|]; cbn [exc_bind]; [|discriminate].
  intros H. apply extract_steps_shape in H; [exact H | apply no_extracted_shape].
Qed.

Lemma extract_document_shape (parsed : Yaml) (x : Extracted) :
  extract_document parsed = Ok x -> extracted_shape x.
Proof.
  unfold extract_document.
  destruct (negb (truthy (Some parsed)));
    [intros [= <-]; apply no_extracted_shape|].
  destruct (get (Some parsed) "runs") as [runs|]; cbn [exc_bind]; [|discriminate].
  destruct (if truthy runs then _ else _) as [[|]|]; cbn [exc_bind]; try discriminate.
  - intros H. apply extractFromCompositeAction_shape in H as [H _]. exact H.
  - destruct (get (Some parsed) "jobs") as [jobs|]; cbn [exc_bind]; [|discriminate].
    destruct (truthy jobs); [|intros [= <-]; apply no_extracted_shape].
    unfold extractFromWorkflow.
    destruct (get (Some parsed) "jobs") as [jobs'|]; cbn [exc_bind]; [|discriminate].
    apply extract_jobs_shape, no_extracted_shape.
Qed.

Lemma parseWorkflowFile_shape (fs : FileSystem) (file : string)
    (wf : WorkflowFile) :
  parseWorkflowFile fs file = Ok wf ->
  exists x, wf = {| path := file; dependencies := x_dependencies x;
                    localActions := x_localActions x;
                    callableWorkflows := x_callableWorkflows x |} /\
            extracted_shape x.
Proof.
  unfold parseWorkflowFile.
  destruct (readFile fs file) as [c|]; cbn [exc_bind]; [|discriminate].
  destruct (yaml_parse c) as [parsed|]; cbn [exc_bind]; [|discriminate].
  destruct (extract_document parsed) as [x|] eqn:Hx; cbn [exc_bind]; [|discriminate].
  intros [= <-]. exists x. split; [reflexivity|].
  eapply extract_document_shape, Hx.
Qed.

(** X1: every dependency parseWorkflowFile extracts carries in [source] the
    [uses] string it came from, which is [name@version]; the name is
    non-empty and free of '@', the version non-empty and free of line
    terminators, and the string is not a local reference.  Every local
    action and callable workflow it extracts starts with one of the four
    local prefixes. *)
Theorem X1_extracted_references (fs : FileSystem) (file : string)
    (wf : WorkflowFile) :
  parseWorkflowFile fs file = Ok wf ->
  (forall d, d ∈ dependencies wf ->
     source d = Some (name d +:+ "@" +:+ version d) /\
     name d <> "" /\ contains_char chr_at (name d) = false /\
     version d <> "" /\ has_line_terminator (version d) = false /\
     is_local_prefix (name d +:+ "@" +:+ version d) = false) /\
  (forall p, p ∈ localActions wf ++ callableWorkflows wf ->
     is_local_prefix p = true).
Proof.
  intros H. apply parseWorkflowFile_shape in H as (x & -> & Hd & Hl & Hc).
  simpl. split.
  - intros d Hin. rewrite Forall_forall in Hd.
    destruct (Hd d Hin) as (Hs & Hm & Hloc).
    apply match_name_ref_spec in Hm as (_ & H1 & H2 & H3 & H4).
    repeat split; assumption.
  - intros p Hin. apply elem_of_app in Hin as [Hin|Hin].
    + rewrite Forall_forall in Hl. apply Hl, Hin.
    + rewrite Forall_forall in Hc. apply Hc, Hin.
Qed.

End ExtractionShape.

Section RoundTrip.

(** X2: writing a reference as [name@version] and classifying it gives the
    two parts back: for a non-empty name free of '@' and a non-empty
    version free of line terminators, with [name@version] not starting with
    a local prefix, the job-level classifier returns the remote reference
    (name, version), and so does the step-level one unless the string
    starts with [docker://]. *)
Theorem X2_format_then_classify (n v : string) :
  n <> "" -> contains_char chr_at n = false ->
  v <> "" -> has_line_terminator v = false ->
  is_local_prefix (n +:+ "@" +:+ v) = false ->
  parseWorkflowUses (n +:+ "@" +:+ v)
  = Some {| u_type := remote; u_name := n; u_version := v; u_path := None |}
  /\
  parseActionUses (n +:+ "@" +:+ v)
  = if startsWith (n +:+ "@" +:+ v) "docker://" then None
    else Some {| u_type := remote; u_name := n; u_version := v;
                 u_path := None |}.
Proof.
  intros H1 H2 H3 H4 Hl.
  assert (match_name_ref (n +:+ "@" +:+ v) = Some (n, v)) as Hm
    by (apply match_name_ref_spec; auto).
  unfold parseWorkflowUses, parseActionUses. rewrite Hl, Hm.
  split; [reflexivity|].
  destruct (startsWith _ "docker://"); reflexivity.
Qed.

Lemma from_uses_key_determines (d1 d2 : ActionDependency) :
  from_uses d1 -> from_uses d2 -> dep_key d1 = dep_key d2 -> d1 = d2.
Proof.
  intros (Hs1 & Hm1 & _) (Hs2 & Hm2 & _) Hk.
  rewrite Hk in Hm1, Hs1. rewrite Hm2 in Hm1. injection Hm1 as Hn Hv.
  destruct d1 as [n1 v1 [] s1], d2 as [n2 v2 [] s2]. simpl in *.
  congruence.
Qed.

End RoundTrip.

Section OutsideDocker.

(** X14: on every [uses] string that does not start with [docker://] the
    job-level and the step-level classifier return the same; a string with
    a local prefix is a local reference whose path is the string; and the
    strings that yield no reference are exactly those without a local
    prefix that cannot be written [n@r] with [n] non-empty and free of
    '@' and [r] non-empty and free of line terminators. *)
Theorem X14_classifiers_agree_outside_docker (uses : string) :
  startsWith uses "docker://" = false ->
  parseWorkflowUses uses = parseActionUses uses /\
  (is_local_prefix uses = true ->
   parseActionUses uses
   = Some {| u_type := local; u_name := uses; u_version := "";
             u_path := Some uses |}) /\
  (parseActionUses uses = None <->
   is_local_prefix uses = false /\
   forall n r,
     uses = n +:+ "@" +:+ r -> contains_char chr_at n = false ->
     n = "" \/ r = "" \/ has_line_terminator r = true).
Proof.
  intros Hd. pose proof (parseActionUses_not_docker uses Hd) as Hsame.
  split; [symmetry; exact Hsame|]. rewrite Hsame.
  split; [apply parseWorkflowUses_local|].
  unfold parseWorkflowUses.
  destruct (is_local_prefix uses); [split; [discriminate | intros [H _]; discriminate H]|].
  destruct (match_name_ref uses) as [[n r]|] eqn:Hm.
  - split; [discriminate|]. intros [_ H].
    apply match_name_ref_spec in Hm as (Hu & Hn & Hat & Hr & Hlt).
    destruct (H n r Hu Hat) as [?|[?|?]]; congruence.
  - split; [|reflexivity]. intros _. split; [reflexivity|].
    intros n r Hu Hat.
    destruct (String.eqb n "") eqn:Hn; [left; apply String.eqb_eq, Hn|].
    destruct (String.eqb r "") eqn:Hr; [right; left; apply String.eqb_eq, Hr|].
    destruct (has_line_terminator r) eqn:Hlt; [auto|].
    apply String.eqb_neq in Hn, Hr.
    assert (match_name_ref uses = Some (n, r)) as Habs
      by (apply match_name_ref_spec; auto).
    congruence.
Qed.

End OutsideDocker.

Section CompositeTest.

Lemma get_get_opt (v : option Yaml) (k : string) (r : option Yaml) :
  get v k = Ok r -> get_opt v k = r.
Proof.
  destruct v as [[| | | | |fields]|]; simpl; try discriminate;
    intros [= <-]; reflexivity.
Qed.

Lemma get_truthy (v : option Yaml) (k : string) :
  truthy v = true -> get v k = Ok (get_opt v k).
Proof. destruct v as [[| | | | |fields]|]; simpl; try discriminate; auto. Qed.

Lemma get_opt_falsy (v : option Yaml) (k : string) :
  truthy v = false -> get_opt v k = None.
Proof.
  destruct v as [[| | | | |fields]|]; simpl; try discriminate; auto.
Qed.

(** The test of parseWorkflowFile, [parsed.runs && parsed.runs.using ===
    'composite'] behind [!parsed], and the test of isCompositeAction,
    [parsed?.runs?.using === 'composite'], select the same documents. *)
Lemma extract_document_branches (parsed : Yaml) :
  extract_document parsed
  = if composite_marker_of parsed
    then extractFromCompositeAction parsed no_extracted
    else extract_jobs (for_in (get_opt (Some parsed) "jobs")) no_extracted.
Proof.
  unfold extract_document, composite_marker_of.
  destruct (truthy (Some parsed)) eqn:Ht; cbn [negb].
  - rewrite (get_truthy _ "runs" Ht). cbn [exc_bind].
    set (runs := get_opt (Some parsed) "runs").
    destruct (truthy runs) eqn:Hr.
    + rewrite (get_truthy _ "using" Hr). cbn [exc_bind].
      destruct (is_composite_marker (get_opt runs "using")); [reflexivity|].
      rewrite (get_truthy _ "jobs" Ht). cbn [exc_bind].
      unfold extractFromWorkflow. rewrite (get_truthy _ "jobs" Ht).
      cbn [exc_bind].
      destruct (truthy (get_opt (Some parsed) "jobs")) eqn:Hj; [reflexivity|].
      destruct (get_opt (Some parsed) "jobs") as [[|[]|[]|[|]| |]|];
        try discriminate; reflexivity.
    + rewrite (get_opt_falsy _ "using" Hr). cbn [exc_bind is_composite_marker].
      rewrite (get_truthy _ "jobs" Ht). cbn [exc_bind].
      unfold extractFromWorkflow. rewrite (get_truthy _ "jobs" Ht).
      cbn [exc_bind].
      destruct (truthy (get_opt (Some parsed) "jobs")) eqn:Hj; [reflexivity|].
      destruct (get_opt (Some parsed) "jobs") as [[|[]|[]|[|]| |]|];
        try discriminate; reflexivity.
  - rewrite (get_opt_falsy _ "runs" Ht), (get_opt_falsy _ "jobs" Ht).
    reflexivity.
Qed.

Lemma isCompositeAction_true (fs : FileSystem) (file : string) :
  isCompositeAction fs file = true <->
  exists doc, readFile fs file = Ok (Document doc) /\
              composite_marker_of doc = true.
Proof.
  unfold isCompositeAction.
  destruct (readFile fs file) as [[|doc]|]; simpl.
  - split; [discriminate|]. intros (doc & [=] & _).
  - split; [eauto|]. intros (doc' & [= <-] & H). exact H.
  - split; [discriminate|]. intros (doc & [=] & _).
Qed.

(** X3: the traversal's composite check and the extractor's branch agree on
    every file.  A file isCompositeAction accepts is extracted from
    [runs.steps] alone, so it yields no callable workflow; a file it rejects
    is extracted, if it can be read and parsed, from [jobs] alone. *)
Theorem X3_composite_check_matches_extraction (fs : FileSystem)
    (file : string) (doc : Yaml) :
  readFile fs file = Ok (Document doc) ->
  (isCompositeAction fs file = true ->
   extract_document doc = extractFromCompositeAction doc no_extracted /\
   forall wf, parseWorkflowFile fs file = Ok wf ->
              callableWorkflows wf = []) /\
  (isCompositeAction fs file = false ->
   extract_document doc
   = extract_jobs (for_in (get_opt (Some doc) "jobs")) no_extracted).
Proof.
  intros Hread.
  assert (isCompositeAction fs file = composite_marker_of doc) as ->.
  { unfold isCompositeAction. rewrite Hread. reflexivity. }
  rewrite extract_document_branches.
  split; intros Hc; rewrite Hc; [|reflexivity].
  split; [reflexivity|].
  intros wf. unfold parseWorkflowFile. rewrite Hread. cbn [exc_bind yaml_parse].
  destruct (extract_document doc) as [x|] eqn:Hx; cbn [exc_bind];
    [|discriminate].
  intros [= <-]. simpl.
  rewrite extract_document_branches, Hc in Hx.
  apply extractFromCompositeAction_shape in Hx as [_ Hx]. exact Hx.
Qed.

End CompositeTest.

Section Throwing.

Lemma uses_throws (classify : string -> option ParsedUses)
    (push : string -> Extracted -> Extracted) (uses : option Yaml)
    (acc : Extracted) :
  (match uses with
   | Some u =>
       if truthy uses then
         let* s := as_uses_string u in
         match classify s with
         | Some dep =>
             match is_local_with_path dep with
             | Some p => Ok (push p acc)
             | None => Ok (push_dependency dep s acc)
             end
         | None => Ok acc
         end
       else Ok acc
   | None => Ok acc
   end) = Throw <-> bad_uses uses = true.
Proof.
  destruct uses as [u|]; [|split; discriminate].
  destruct u as [|b|t|s|items|fields]; simpl;
    try (split; [discriminate | discriminate]);
    try (destruct b; split; (discriminate || reflexivity));
    try (destruct t; split; (discriminate || reflexivity));
    try (split; reflexivity).
  destruct (negb (String.eqb s "")); [|split; discriminate].
  destruct (classify s) as [dep|]; [|split; discriminate].
  destruct (is_local_with_path dep); split; discriminate.
Qed.

Lemma extract_step_throws (step : Yaml) (acc : Extracted) :
  extract_step step acc = Throw <-> throws_on_step step = true.
Proof.
  destruct step as [|b|t|s|items|fields]; [split; reflexivity|..].
  all: match goal with
       | |- context [throws_on_step ?st] =>
           exact (uses_throws parseActionUses push_localAction
                    (get_opt (Some st) "uses") acc)
       end.
Qed.

Lemma extract_steps_throws (steps : list Yaml) (acc : Extracted) :
  extract_steps steps acc = Throw <-> existsb throws_on_step steps = true.
Proof.
  revert acc. induction steps as [|step rest IH]; intros acc; simpl.
  - split; discriminate.
  - pose proof (extract_step_throws step acc) as Hs.
    destruct (extract_step step acc) as [acc1|]; cbn [exc_bind].
    + destruct (throws_on_step step); [destruct Hs as [_ Hs]; discriminate Hs; reflexivity|].
      simpl. apply IH.
    + destruct Hs as [Hs _]. rewrite Hs by reflexivity. split; reflexivity.
Qed.

Lemma chars_do_not_throw (s : string) :
  existsb throws_on_step (chars_of s) = false.
Proof. induction s as [|c s IH]; simpl; [reflexivity | exact IH]. Qed.

Lemma steps_value_throws (steps : option Yaml) (acc : Extracted) :
  truthy steps = true ->
  (let* items := for_of steps in extract_steps items acc) = Throw <->
  throws_on_steps steps = true.
Proof.
  intros Ht. unfold throws_on_steps. rewrite Ht. cbn [andb].
  destruct steps as [[|b|t|s|items|fields]|]; cbn [for_of exc_bind];
    try (split; reflexivity).
  - rewrite extract_steps_throws, chars_do_not_throw. split; discriminate.
  - apply extract_steps_throws.
Qed.

Lemma extract_job_throws (job : Yaml) (acc : Extracted) :
  extract_job job acc = Throw <-> throws_on_job job = true.
Proof.
  unfold extract_job, throws_on_job.
  destruct job as [|b|t|s|items|fields]; try (split; reflexivity).
  all: unfold extract_job_uses; cbn [get get_opt exc_bind truthy bad_uses
                                     throws_on_steps andb orb].
  all: try (split; discriminate).
  pose proof (uses_throws parseWorkflowUses push_callableWorkflow
                (lookup_field "uses" fields) acc) as Hu.
  match goal with
  | |- exc_bind ?m _ = _ <-> _ => destruct m as [acc1|] eqn:Hm
  end; cbn [exc_bind].
  - destruct (bad_uses (lookup_field "uses" fields));
      [destruct Hu as [_ Hu]; discriminate Hu; reflexivity|].
    cbn [orb].
    destruct (truthy (lookup_field "steps" fields)) eqn:Ht.
    + apply steps_value_throws, Ht.
    + unfold throws_on_steps. rewrite Ht. split; discriminate.
  - destruct Hu as [Hu _]. rewrite Hu by reflexivity. split; reflexivity.
Qed.

Lemma extract_jobs_throws (jobs : list Yaml) (acc : Extracted) :
  extract_jobs jobs acc = Throw <-> existsb throws_on_job jobs = true.
Proof.
  revert acc. induction jobs as [|job rest IH]; intros acc; simpl.
  - split; discriminate.
  - pose proof (extract_job_throws job acc) as Hj.
    destruct (extract_job job acc) as [acc1|]; cbn [exc_bind].
    + destruct (throws_on_job job);
        [destruct Hj as [_ Hj]; discriminate Hj; reflexivity|].
      simpl. apply IH.
    + destruct Hj as [Hj _]. rewrite Hj by reflexivity. split; reflexivity.
Qed.

Lemma composite_marker_runs (parsed : Yaml) :
  composite_marker_of parsed = true ->
  truthy (Some parsed) = true /\
  truthy (get_opt (Some parsed) "runs") = true.
Proof.
  unfold composite_marker_of.
  destruct parsed as [|b|t|s|items|fields]; try discriminate.
  cbn [get_opt].
  destruct (lookup_field "runs" fields) as [[|b|t|s|items|fields']|];
    try discriminate.
  auto.
Qed.

Lemma extract_document_throws (parsed : Yaml) :
  extract_document parsed = Throw <-> throws_on_document parsed = true.
Proof.
  rewrite extract_document_branches. unfold throws_on_document.
  destruct (composite_marker_of parsed) eqn:Hc; [|apply extract_jobs_throws].
  apply composite_marker_runs in Hc as [Hp Hr].
  unfold extractFromCompositeAction.
  rewrite (get_truthy _ "runs" Hp). cbn [exc_bind]. rewrite Hr. cbn [negb].
  rewrite (get_truthy _ "steps" Hr). cbn [exc_bind].
  destruct (truthy (get_opt (get_opt (Some parsed) "runs") "steps")) eqn:Hs;
    cbn [negb].
  - apply steps_value_throws, Hs.
  - unfold throws_on_steps. rewrite Hs. split; discriminate.
Qed.

(** X4: parseWorkflowFile throws in exactly three situations: the file
    cannot be read, its text does not parse, or the parsed document holds,
    at a place the extraction visits, a [null] job or step, a truthy [uses]
    that is not a string, or a truthy [steps] that is not iterable.  On
    every other file it returns. *)
Theorem X4_when_parsing_throws (fs : FileSystem) (file : string) :
  parseWorkflowFile fs file = Throw <->
  readFile fs file = Throw \/
  readFile fs file = Ok Unparsable \/
  exists doc, readFile fs file = Ok (Document doc) /\
              throws_on_document doc = true.
Proof.
  unfold parseWorkflowFile.
  destruct (readFile fs file) as [[|doc]|]; cbn [exc_bind yaml_parse].
  - split; [auto|reflexivity].
  - pose proof (extract_document_throws doc) as Hd.
    destruct (extract_document doc) as [x|]; cbn [exc_bind].
    + split; [discriminate|].
      intros [H|[H|(doc' & [= <-] & H)]]; try discriminate.
      apply Hd in H. discriminate H.
    + split; [|reflexivity]. intros _. right. right.
      exists doc. split; [reflexivity|]. apply Hd. reflexivity.
  - split; [auto|reflexivity].
Qed.

End Throwing.

Section ScannerEdges.
Variable fs : FileSystem.

Lemma findWorkflowFiles_not_listable (dirPath : string) :
  (forall entries, lookup_path fs dirPath <> Some (Dir true entries)) ->
  findWorkflowFiles fs dirPath = [].
Proof.
  intros H. unfold findWorkflowFiles.
  destruct (lookup_path fs dirPath) as [[|[|] entries|]|]; try reflexivity.
  exfalso. apply (H entries). reflexivity.
Qed.

Lemma exc_fold_unchanged {A B} (f : A -> B -> Exc A) (l : list B) (a : A) :
  (forall b, b ∈ l -> f a b = Ok a) -> exc_fold f l a = Ok a.
Proof.
  induction l as [|b l IH]; intros H; simpl; [reflexivity|].
  rewrite H by (apply elem_of_cons; auto). simpl.
  apply IH. intros b' Hb'. apply H, elem_of_cons. auto.
Qed.

(** X5: when the workflow path and every additional path name nothing that
    can be listed as a directory (nothing at all, a file, a directory that
    cannot be read), the scan returns the empty map, without an error and
    whatever the fuel. *)
Theorem X5_nothing_to_scan (fuel : nat) (workflowPath repoRoot : string)
    (additionalPaths : list string) :
  (forall entries,
      lookup_path fs workflowPath <> Some (Dir true entries)) ->
  (forall ap entries,
      ap ∈ additionalPaths ->
      lookup_path fs (path_join repoRoot ap) <> Some (Dir true entries)) ->
  scanDependencies fs fuel workflowPath additionalPaths repoRoot
  = Some (Ok []).
Proof.
  intros Hw Ha. unfold scanDependencies, scan_run.
  rewrite (findWorkflowFiles_not_listable workflowPath Hw).
  assert (scan_loop fs repoRoot fuel (initial_state []) =
          Some (Ok (initial_state []))) as -> by (destruct fuel; reflexivity).
  rewrite exc_fold_unchanged; [reflexivity|].
  intros ap Hap. unfold scan_additional_path.
  rewrite findWorkflowFiles_not_listable; [reflexivity|].
  intros entries. apply Ha, Hap.
Qed.

Lemma access_stat (p : string) (k : StatKind) :
  stat fs p = Ok k -> access fs p = Ok tt.
Proof.
  unfold stat, access. destruct (lookup_path fs p); [reflexivity|discriminate].
Qed.

Lemma fileExists_access (p : string) :
  fileExists fs p = match access fs p with Ok _ => true | Throw => false end.
Proof. unfold fileExists. destruct (access fs p); reflexivity. Qed.

(** X6: findActionYml answers with a path that exists.  For a file it is
    the path itself, and only if it ends in [.yml] or [.yaml]; for a
    directory it is [action.yml] inside it if that exists, otherwise
    [action.yaml] inside it if that exists; in every other case, a missing
    path included, the answer is [null]. *)
Theorem X6_findActionYml (dirPath : string) :
  let actionYml := path_join dirPath "action.yml" in
  let actionYaml := path_join dirPath "action.yaml" in
  (forall a, findActionYml fs dirPath = Some a -> access fs a = Ok tt) /\
  findActionYml fs dirPath
  = match stat fs dirPath with
    | Ok IsFile =>
        if endsWith dirPath ".yml" || endsWith dirPath ".yaml"
        then Some dirPath else None
    | Ok IsDirectory =>
        match access fs actionYml, access fs actionYaml with
        | Ok _, _ => Some actionYml
        | Throw, Ok _ => Some actionYaml
        | Throw, Throw => None
        end
    | _ => None
    end.
Proof.
  intros actionYml actionYaml. unfold findActionYml.
  fold actionYml actionYaml.
  destruct (stat fs dirPath) as [[| |]|] eqn:Hstat; simpl.
  - destruct (endsWith dirPath ".yml" || endsWith dirPath ".yaml"); simpl;
      (split; [|reflexivity]); [|discriminate].
    intros a [= <-]. eapply access_stat, Hstat.
  - rewrite !fileExists_access.
    destruct (access fs actionYml) as [[]|] eqn:H1.
    { split; [|reflexivity]. intros a [= <-]. exact H1. }
    destruct (access fs actionYaml) as [[]|] eqn:H2.
    { split; [|reflexivity]. intros a [= <-]. exact H2. }
    split; [discriminate | reflexivity].
  - split; [discriminate | reflexivity].
  - split; [discriminate | reflexivity].
Qed.

(** X7: resolveLocalPath never returns a relative or unnormalised path: the
    resolved path is absolute and free of empty, [.] and [..] segments.  It
    accepts every reference that resolves to the repository root or below
    it, and whatever it returns has the root as a string prefix. *)
Theorem X7_resolveLocalPath (workflowFile localPath repoRoot : string) :
  let resolved :=
    path_resolve (cwd fs) (path_dirname workflowFile) localPath in
  canonical resolved /\
  (resolved = repoRoot \/ startsWith resolved (repoRoot +:+ "/") = true ->
   resolveLocalPath fs workflowFile localPath repoRoot = Some resolved) /\
  (forall p, resolveLocalPath fs workflowFile localPath repoRoot = Some p ->
             p = resolved /\ startsWith p repoRoot = true).
Proof.
  intros resolved. split; [apply path_resolve_canonical, cwd_absolute|].
  unfold resolveLocalPath. fold resolved. split.
  - intros H. rewrite (inside_root_prefix _ _ H). reflexivity.
  - intros p. destruct (startsWith resolved repoRoot) eqn:Hs; simpl;
      [|discriminate].
    intros [= <-]. auto.
Qed.

End ScannerEdges.

Section ResultMap.
Variables (fs : FileSystem) (repoRoot : string).

Lemma map_get_elem {V} (m : JsMap V) (k : string) (v : V) :
  NoDup (map fst m) -> ((k, v) ∈ m <-> map_get k m = Some v).
Proof.
  induction m as [|[k' v'] m IH]; simpl; intros Hnd.
  - split; [intros H; inversion H | discriminate].
  - apply NoDup_cons in Hnd as [Hk' Hnd]. rewrite elem_of_cons.
    destruct (String.eqb k k') eqn:He.
    + apply String.eqb_eq in He. subst k'. split.
      * intros [[= ->]|Hin]; [reflexivity|].
        exfalso. apply Hk'. apply list_elem_of_fmap. exists (k, v). auto.
      * intros [= ->]. auto.
    + apply String.eqb_neq in He. rewrite <- IH by exact Hnd. split.
      * intros [[= -> _]|Hin]; [congruence | exact Hin].
      * auto.
Qed.

Lemma found_from_uses (files : list string) (d : ActionDependency) :
  d ∈ flat_map (dependencies_of fs) files -> from_uses d.
Proof.
  rewrite list_elem_of_In, in_flat_map. intros (f & _ & Hd).
  unfold dependencies_of in Hd.
  destruct (parseWorkflowFile fs f) as [wf|] eqn:Hwf; [|inversion Hd].
  apply parseWorkflowFile_shape in Hwf as (x & -> & Hshape & _).
  simpl in Hd. rewrite Forall_forall in Hshape.
  apply Hshape, list_elem_of_In, Hd.
Qed.

(** X8: the map a scan returns holds the dependencies found in the parsed
    files and nothing else, record for record: every dependency found is
    the value stored under its key [name@version] (a later reference with
    the same key is the same record, so skipping it loses nothing), and
    every entry pairs a dependency that was found with its own key. *)
Theorem X8_map_is_what_was_found (fuel : nat) (workflowPath : string)
    (additionalPaths : list string) (st : ScanState) :
  scan_run fs fuel workflowPath additionalPaths repoRoot = Some (Ok st) ->
  let found := flat_map (dependencies_of fs) (parsed_files (trace st)) in
  (forall d, d ∈ found -> (dep_key d, d) ∈ allDependencies st) /\
  (forall k d, (k, d) ∈ allDependencies st -> k = dep_key d /\ d ∈ found).
Proof.
  intros Hrun found.
  apply map_follows_trace_run in Hrun as [Hmap Hdisc].
  fold found in Hdisc. rewrite Hdisc in Hmap.
  assert (NoDup (map fst (allDependencies st))) as Hnd.
  { rewrite Hmap. apply fold_add_to_map_NoDup. constructor. }
  split.
  - intros d Hd. apply map_get_elem; [exact Hnd|].
    rewrite Hmap, fold_add_to_map_get. simpl.
    destruct (first_with_key_some d found Hd) as (first & Hfirst & Hkey).
    rewrite Hfirst. f_equal.
    apply first_with_key_inv in Hfirst as [Hin _].
    apply from_uses_key_determines; [| |exact Hkey];
      eapply found_from_uses; eassumption.
  - intros k d Hin. apply map_get_elem in Hin; [|exact Hnd].
    rewrite Hmap, fold_add_to_map_get in Hin. simpl in Hin.
    apply first_with_key_inv in Hin as [Hin Hk]. auto.
Qed.

Lemma keys_of_fold (ds : list ActionDependency) (k : string) :
  k ∈ map fst (fold_left add_to_map ds []) <-> k ∈ map dep_key ds.
Proof.
  split.
  - intros Hk. destruct (map_get k (fold_left add_to_map ds [])) as [d|] eqn:Hg.
    + rewrite fold_add_to_map_get in Hg. simpl in Hg.
      apply first_with_key_inv in Hg as [Hin <-].
      apply list_elem_of_fmap. eauto.
    + apply map_get_None in Hg. contradiction.
  - intros Hk. apply list_elem_of_fmap in Hk as (d & -> & Hd).
    destruct (first_with_key_some d ds Hd) as (first & Hfirst & _).
    destruct (decide (dep_key d ∈ map fst (fold_left add_to_map ds [])))
      as [H|H]; [exact H|].
    apply map_get_None in H. rewrite fold_add_to_map_get in H. simpl in H.
    congruence.
Qed.

(** X9: submitting what a scan returned reports, when the request goes
    through, the number of distinct keys [name@version] among the
    dependencies found in the parsed files, which is also the number of
    entries of the manifest; when nothing was found the request is not made
    and the count is 0, whatever the API would have answered. *)
Theorem X9_submitted_count (fuel : nat) (workflowPath : string)
    (additionalPaths : list string) (st : ScanState)
    (createRepositorySnapshot : Snapshot -> Exc unit)
    (owner repo sha ref : string) :
  scan_run fs fuel workflowPath additionalPaths repoRoot = Some (Ok st) ->
  let found := flat_map (dependencies_of fs) (parsed_files (trace st)) in
  let submitted :=
    submitDependencies createRepositorySnapshot owner repo
      (allDependencies st) sha ref in
  (forall n, submitted = Ok n ->
     n = size (list_to_set (map dep_key found) : gset string) /\
     n = size (submission_entries (allDependencies st))) /\
  (found = [] -> submitted = Ok 0).
Proof.
  intros Hrun found submitted.
  apply map_follows_trace_run in Hrun as [Hmap Hdisc].
  fold found in Hdisc. rewrite Hdisc in Hmap.
  assert (NoDup (map fst (allDependencies st))) as Hnd.
  { rewrite Hmap. apply fold_add_to_map_NoDup. constructor. }
  assert (List.length (allDependencies st)
          = size (list_to_set (map dep_key found) : gset string)) as Hlen.
  { rewrite <- (length_map fst), <- (size_list_to_set (C := gset string))
      by exact Hnd.
    f_equal. apply set_eq. intros k. rewrite !elem_of_list_to_set, Hmap.
    apply keys_of_fold. }
  assert (size (submission_entries (allDependencies st))
          = List.length (allDependencies st)) as Hsize.
  { unfold submission_entries. rewrite fold_add_resolved_size;
      [rewrite map_size_empty; lia | exact Hnd | |].
    - intros. apply lookup_empty.
    - intros k Hk. rewrite Hmap in Hk. apply keys_of_fold in Hk.
      apply list_elem_of_fmap in Hk as (d & -> & _).
      apply dep_key_not_proto. }
  split.
  - intros n. subst submitted. unfold submitDependencies.
    destruct (Nat.eqb (List.length (allDependencies st)) 0) eqn:He.
    + apply Nat.eqb_eq in He. intros [= <-]. split; lia.
    + destruct (createRepositorySnapshot _); simpl; [|discriminate].
      intros [= <-]. split; lia.
  - intros Hfound. subst submitted. rewrite Hmap, Hfound. reflexivity.
Qed.

End ResultMap.

Section ReadsBeforeParse.
Variables (fs : FileSystem) (repoRoot : string).

Lemma reads_before_parse_app (a b : list Event) (seen : list string) :
  reads_before_parse seen (a ++ b) <->
  reads_before_parse seen a /\
  reads_before_parse (rev (parsed_files a) ++ seen) b.
Proof.
  revert seen. induction a as [|e a IH]; intros seen; simpl.
  - tauto.
  - destruct e as [f|f|d]; simpl; rewrite IH; rewrite <- ?app_assoc; simpl;
      tauto.
Qed.

Lemma reads_before_parse_deps (seen : list string)
    (ds : list ActionDependency) :
  reads_before_parse seen (map EvDep ds).
Proof. induction ds; simpl; auto. Qed.

Lemma reads_before_parse_checks (seen l : list string) :
  (forall x, x ∈ l -> x ∉ seen) ->
  reads_before_parse seen (map EvCheck l).
Proof.
  induction l as [|x l IH]; intros H; simpl; [exact I|].
  split; [apply H, elem_of_cons; auto|].
  apply IH. intros y Hy. apply H, elem_of_cons. auto.
Qed.

Lemma reads_before_parse_seen (tr : list Event) (seen : list string)
    (g : string) :
  reads_before_parse seen tr -> g ∈ seen ->
  (g ∉ parsed_files tr) /\ (g ∉ checked_files tr).
Proof.
  revert seen. induction tr as [|e tr IH]; intros seen H Hg; simpl.
  - split; apply not_elem_of_nil.
  - destruct e as [f|f|d]; simpl in H.
    + destruct H as [Hf H].
      destruct (IH (f :: seen) H) as [H1 H2]; [apply elem_of_cons; auto|].
      split; [|exact H2]. apply not_elem_of_cons. split; [|exact H1].
      intros ->. contradiction.
    + destruct H as [Hf H]. destruct (IH seen H Hg) as [H1 H2].
      split; [exact H1|]. apply not_elem_of_cons. split; [|exact H2].
      intros ->. contradiction.
    + apply (IH seen H Hg).
Qed.

End ReadsBeforeParse.

Section RunInvariants.
Variables (fs : FileSystem) (repoRoot : string).

Lemma exc_fold_invariant_in {A B} (P : A -> Prop) (f : A -> B -> Exc A)
    (l : list B) :
  (forall a b a', b ∈ l -> P a -> f a b = Ok a' -> P a') ->
  forall a a', P a -> exc_fold f l a = Ok a' -> P a'.
Proof.
  induction l as [|b l IH]; intros Hstep a a' Ha; simpl.
  - intros [= <-]. exact Ha.
  - destruct (f a b) as [a1|] eqn:Hf; simpl; [|discriminate].
    apply IH.
    + intros x y x' Hy. apply Hstep, elem_of_cons. auto.
    + eapply Hstep; [apply elem_of_cons; auto | exact Ha | exact Hf].
Qed.

(** The run in two parts: the state the loop ends in, with an empty queue,
    and the additional-paths part started from it. *)
Lemma scan_run_parts (fuel : nat) (workflowPath : string)
    (additionalPaths : list string) (st : ScanState) :
  scan_run fs fuel workflowPath additionalPaths repoRoot = Some (Ok st) ->
  exists st1,
    scan_loop fs repoRoot fuel
      (initial_state (findWorkflowFiles fs workflowPath)) = Some (Ok st1) /\
    exc_fold (scan_additional_path fs repoRoot) additionalPaths st1 = Ok st.
Proof.
  unfold scan_run.
  destruct (scan_loop fs repoRoot fuel _) as [[st1|]|]; try discriminate.
  intros [= H]. eauto.
Qed.

(** Like [scan_run_invariant], for invariants that need to know that a
    checked or parsed file had not been processed, and which additional
    file a step is about. *)
Lemma scan_run_invariant_files (P : ScanState -> Prop)
    (workflowPath : string) (additionalPaths : list string) :
  (forall st q, P st -> P (set_queue q st)) ->
  (forall st file wf,
      P st -> file ∉ processedFiles st ->
      parseWorkflowFile fs file = Ok wf ->
      P (after_file fs repoRoot file wf st)) ->
  (forall st file,
      P st -> file ∉ processedFiles st ->
      file ∈ additional_files fs repoRoot additionalPaths ->
      P (record (EvCheck file) st)) ->
  (forall st file wf,
      P st -> file ∉ processedFiles st ->
      file ∈ additional_files fs repoRoot additionalPaths ->
      parseWorkflowFile fs file = Ok wf ->
      P (after_additional_file fs repoRoot file wf st)) ->
  forall fuel st,
    P (initial_state (findWorkflowFiles fs workflowPath)) ->
    scan_run fs fuel workflowPath additionalPaths repoRoot = Some (Ok st) ->
    P st.
Proof.
  intros Hq Hfile Hcheck Hadd fuel st Hinit Hrun.
  apply scan_run_parts in Hrun as (st1 & Hloop & Hfold).
  apply (scan_loop_invariant fs repoRoot P) in Hloop as [HP1 _];
    [| | |exact Hinit].
  - revert Hfold. apply exc_fold_invariant_in; [|exact HP1].
    intros a ap a' Hap Ha. unfold scan_additional_path.
    apply exc_fold_invariant_in; [|exact Ha].
    intros b file b' Hfile' Hb Hstep.
    assert (file ∈ additional_files fs repoRoot additionalPaths) as Hin.
    { unfold additional_files. apply list_elem_of_In, in_flat_map.
      exists ap. split; apply list_elem_of_In; assumption. }
    apply scan_additional_file_spec in Hstep
      as [[_ ->]|[(Hn & _ & ->)|(Hn & _ & wf & Hwf & ->)]]; auto.
  - intros st0 file rest HP _ _. apply Hq, HP.
  - intros st0 file rest wf HP _ _ Hn Hwf.
    apply Hfile; [apply Hq, HP | exact Hn | exact Hwf].
Qed.

Lemma reads_after_processing (seen : list string) (file : string)
    (deps : list ActionDependency) (fresh : list string) :
  file ∉ seen ->
  (forall x, x ∈ fresh -> x <> file /\ x ∉ seen) ->
  reads_before_parse seen
    (EvParse file :: map EvDep deps ++ map EvCheck fresh).
Proof.
  intros Hfile Hfresh. simpl. split; [exact Hfile|].
  apply reads_before_parse_app. split; [apply reads_before_parse_deps|].
  rewrite parsed_files_deps. simpl.
  apply reads_before_parse_checks. intros x Hx.
  destruct (Hfresh x Hx) as [Hne Hn].
  apply not_elem_of_cons. auto.
Qed.

Lemma reads_ordered_extend (st st' : ScanState) (file : string)
    (new : list Event) :
  reads_ordered st -> file ∉ processedFiles st ->
  parsed_files new = [file] ->
  reads_before_parse (rev (parsed_files (trace st)) ++ []) new ->
  trace st' = trace st ++ new ->
  processedFiles st' = {[ file ]} ∪ processedFiles st ->
  reads_ordered st'.
Proof.
  intros [Hreads Hiff] Hn Hnew Hok Htr HP. unfold reads_ordered.
  rewrite Htr, HP. split.
  - apply reads_before_parse_app. auto.
  - intros f. rewrite parsed_files_app, Hnew, elem_of_app,
      list_elem_of_singleton, elem_of_union, elem_of_singleton, Hiff. tauto.
Qed.

Lemma elem_of_rev {A} (l : list A) (x : A) : x ∈ rev l <-> x ∈ l.
Proof. rewrite !list_elem_of_In. symmetry. apply in_rev. Qed.

Lemma fresh_not_seen (st : ScanState) (file : string) (l : list string)
    (x : string) :
  (forall f, f ∈ parsed_files (trace st) <-> f ∈ processedFiles st) ->
  x ∈ unprocessed ({[ file ]} ∪ processedFiles st) l ->
  x <> file /\ x ∉ rev (parsed_files (trace st)) ++ [].
Proof.
  intros Hiff Hx. apply elem_of_unprocessed in Hx as [Hx _].
  rewrite app_nil_r, elem_of_rev, Hiff.
  rewrite elem_of_union, elem_of_singleton in Hx. split; intros H; apply Hx; auto.
Qed.

Lemma unprocessed_not_seen (st : ScanState) (file : string) :
  (forall f, f ∈ parsed_files (trace st) <-> f ∈ processedFiles st) ->
  file ∉ processedFiles st ->
  file ∉ rev (parsed_files (trace st)) ++ [].
Proof.
  intros Hiff Hn. rewrite app_nil_r, elem_of_rev, Hiff. exact Hn.
Qed.

Lemma reads_ordered_run (fuel : nat) (workflowPath : string)
    (additionalPaths : list string) (st : ScanState) :
  scan_run fs fuel workflowPath additionalPaths repoRoot = Some (Ok st) ->
  reads_ordered st.
Proof.
  apply (scan_run_invariant_files reads_ordered).
  - intros st0 q H. exact H.
  - intros st0 file wf H Hn _. pose proof H as [_ Hiff].
    eapply (reads_ordered_extend st0 _ file); try reflexivity; try assumption.
    + simpl. rewrite parsed_files_app, parsed_files_deps, parsed_files_checks.
      reflexivity.
    + apply reads_after_processing;
        [apply unprocessed_not_seen; assumption|].
      intros x Hx. eapply fresh_not_seen; eassumption.
  - intros st0 file [Hreads Hiff] Hn _. unfold reads_ordered. simpl. split.
    + apply reads_before_parse_app. split; [exact Hreads|]. simpl.
      split; [apply unprocessed_not_seen; assumption | exact I].
    + intros f. rewrite parsed_files_app. simpl. rewrite app_nil_r. apply Hiff.
  - intros st0 file wf H Hn _ _. pose proof H as [_ Hiff].
    eapply (reads_ordered_extend st0 _ file
              (EvCheck file :: EvParse file
               :: map EvDep (dependencies wf) ++ map EvCheck _));
      try reflexivity; try assumption.
    + simpl. rewrite parsed_files_app, parsed_files_deps, parsed_files_checks.
      reflexivity.
    + split; [apply unprocessed_not_seen; assumption|].
      apply reads_after_processing;
        [apply unprocessed_not_seen; assumption|].
      intros x Hx. eapply fresh_not_seen; eassumption.
  - split; [exact I|]. intros f. simpl. split; intros H.
    + inversion H.
    + apply elem_of_empty in H. destruct H.
Qed.

(** X10: once a file has been handed to parseWorkflowFile it is never read
    again: in the trace of a run that returns, nothing after the parse of a
    file parses it or checks it a second time.  The repeated reads of a
    manifest by isCompositeAction all come before it is processed. *)
Theorem X10_no_read_after_processing (fuel : nat) (workflowPath : string)
    (additionalPaths : list string) (st : ScanState)
    (before after : list Event) (file : string) :
  scan_run fs fuel workflowPath additionalPaths repoRoot = Some (Ok st) ->
  trace st = before ++ EvParse file :: after ->
  (file ∉ parsed_files after) /\ (file ∉ checked_files after).
Proof.
  intros Hrun Htr. apply reads_ordered_run in Hrun as [Hreads _].
  rewrite Htr in Hreads. apply reads_before_parse_app in Hreads as [_ Hreads].
  simpl in Hreads. destruct Hreads as [_ Hreads].
  eapply reads_before_parse_seen; [exact Hreads|]. apply elem_of_cons. auto.
Qed.

End RunInvariants.

Section Origins.
Variables (fs : FileSystem) (repoRoot : string).

Lemma startsWith_app (p x prefix : string) :
  startsWith p prefix = true -> startsWith (p +:+ x) prefix = true.
Proof.
  unfold startsWith. revert p.
  induction prefix as [|c r IH]; intros p; simpl.
  - intros _. destruct (p +:+ x); reflexivity.
  - destruct p as [|a p]; simpl; [discriminate|].
    destruct (ascii_dec c a); [apply IH | discriminate].
Qed.

Lemma string_append_assoc (a b c : string) :
  (a +:+ b) +:+ c = a +:+ (b +:+ c).
Proof.
  induction a as [|x a IH]; [reflexivity|].
  change (String x ((a +:+ b) +:+ c) = String x (a +:+ (b +:+ c))).
  rewrite IH. reflexivity.
Qed.

Lemma join_slash_snoc (segs : list string) (n : string) :
  segs <> [] ->
  join_slash (segs ++ [n]) = join_slash segs +:+ "/" +:+ n.
Proof.
  unfold join_slash. induction segs as [|seg rest IH]; [congruence|].
  intros _. destruct rest as [|seg' rest'].
  - reflexivity.
  - change ((seg :: seg' :: rest') ++ [n])
      with (seg :: ((seg' :: rest') ++ [n])).
    rewrite join_with_cons by (destruct rest'; discriminate).
    rewrite IH by discriminate.
    rewrite (join_with_cons "/" seg (seg' :: rest')) by discriminate.
    rewrite !string_append_assoc. reflexivity.
Qed.

Lemma path_join_keeps_prefix (p n : string) :
  canonical p -> plain n -> startsWith p repoRoot = true ->
  startsWith (path_join p n) repoRoot = true.
Proof.
  intros (segs & -> & Hsegs) Hn Hp.
  rewrite path_join_canonical by assumption.
  destruct segs as [|seg rest].
  - apply (startsWith_app "/" n), Hp.
  - rewrite join_slash_snoc by discriminate.
    change ("/" +:+ join_slash (seg :: rest) +:+ "/" +:+ n)
      with (("/" +:+ join_slash (seg :: rest)) +:+ "/" +:+ n).
    apply startsWith_app, Hp.
Qed.

Lemma resolveLocalPath_passes (file ref p : string) :
  resolveLocalPath fs file ref repoRoot = Some p ->
  passes_root_check repoRoot p.
Proof.
  intros H. split; [eapply resolveLocalPath_canonical, H|].
  unfold resolveLocalPath in H.
  destruct (startsWith _ repoRoot) eqn:Hs; simpl in H; [|discriminate].
  injection H as <-. exact Hs.
Qed.

Lemma findActionYml_passes (p a : string) :
  passes_root_check repoRoot p -> findActionYml fs p = Some a ->
  passes_root_check repoRoot a.
Proof.
  intros [Hc Hp] Ha. split; [eapply findActionYml_canonical; eassumption|].
  destruct plain_action_yml as [Hyml Hyaml].
  unfold findActionYml in Ha.
  destruct (stat fs p) as [[| |]|]; simpl in Ha; try discriminate.
  - destruct (endsWith p ".yml" || endsWith p ".yaml"); [|discriminate].
    injection Ha as <-. exact Hp.
  - destruct (fileExists fs (path_join p "action.yml")).
    + injection Ha as <-. apply path_join_keeps_prefix; assumption.
    + destruct (fileExists fs (path_join p "action.yaml")); [|discriminate].
      injection Ha as <-. apply path_join_keeps_prefix; assumption.
Qed.

Lemma pushed_passes (file : string) (wf : WorkflowFile) (st : ScanState)
    (g : string) :
  g ∈ filesToProcess (after_file fs repoRoot file wf st) ->
  g ∈ filesToProcess st \/ passes_root_check repoRoot g.
Proof.
  simpl. rewrite !elem_of_app, elem_of_List_filter, !elem_of_unprocessed.
  intros [H|[(_ & _ & H)|[_ H]]]; [auto | right | right].
  - unfold local_candidates in H. apply list_elem_of_omap in H as (la & _ & H).
    destruct (resolveLocalPath fs file la repoRoot) as [lp|] eqn:Hr;
      [|discriminate].
    eapply findActionYml_passes; [|exact H].
    eapply resolveLocalPath_passes, Hr.
  - unfold callable_candidates in H.
    apply list_elem_of_omap in H as (cw & _ & H).
    eapply resolveLocalPath_passes, H.
Qed.

Lemma parsed_files_after_file (file : string) (wf : WorkflowFile)
    (st : ScanState) :
  parsed_files (trace (after_file fs repoRoot file wf st))
  = parsed_files (trace st) ++ [file].
Proof.
  cbn [after_file after_additional_file trace].
  rewrite !parsed_files_app, parsed_files_deps, parsed_files_checks.
  reflexivity.
Qed.

Lemma parsed_files_after_additional (file : string) (wf : WorkflowFile)
    (st : ScanState) :
  parsed_files (trace (after_additional_file fs repoRoot file wf st))
  = parsed_files (trace st) ++ [file].
Proof.
  cbn [after_file after_additional_file trace].
  rewrite !parsed_files_app, parsed_files_deps, parsed_files_checks.
  reflexivity.
Qed.

(** X11: whatever the reference strings are, every path a returning scan
    hands to parseWorkflowFile was found by the directory walk of the
    workflow path, or by the walk of an additional path, or is an absolute
    path in normal form with the repository root as a string prefix. *)
Theorem X11_parsed_files_origin (fuel : nat) (workflowPath : string)
    (additionalPaths : list string) (st : ScanState) (f : string) :
  scan_run fs fuel workflowPath additionalPaths repoRoot = Some (Ok st) ->
  f ∈ parsed_files (trace st) ->
  f ∈ findWorkflowFiles fs workflowPath \/
  f ∈ additional_files fs repoRoot additionalPaths \/
  (canonical f /\ startsWith f repoRoot = true).
Proof.
  intros Hrun. apply scan_run_parts in Hrun as (st1 & Hloop & Hfold).
  set (origin := scan_origin fs repoRoot workflowPath additionalPaths).
  change (f ∈ parsed_files (trace st) -> origin f). revert f.
  assert ((forall g, g ∈ filesToProcess st1 -> origin g) /\
          (forall g, g ∈ parsed_files (trace st1) -> origin g)) as [_ H1].
  { revert Hloop.
    apply (scan_loop_invariant fs repoRoot
             (fun s => (forall g, g ∈ filesToProcess s -> origin g) /\
                       (forall g, g ∈ parsed_files (trace s) -> origin g))).
    - intros s file rest [Hq Hp] Hs _. split; [|exact Hp].
      intros g Hg. apply Hq. rewrite Hs. apply elem_of_cons. auto.
    - intros s file rest wf [Hq Hp] Hs _ _ _.
      assert (forall g, g ∈ rest -> origin g) as Hrest.
      { intros g Hg. apply Hq. rewrite Hs. apply elem_of_cons. auto. }
      split.
      + intros g Hg. apply pushed_passes in Hg as [Hg|Hg].
        * apply Hrest, Hg.
        * right. right. exact Hg.
      + intros g. rewrite parsed_files_after_file, elem_of_app,
          list_elem_of_singleton.
        intros [Hg| ->]; [apply Hp, Hg|].
        apply Hq. rewrite Hs. apply elem_of_cons. auto.
    - split; [|intros g Hg; inversion Hg].
      intros g Hg. left. exact Hg. }
  revert Hfold.
  apply (exc_fold_invariant_in
           (fun s => forall g, g ∈ parsed_files (trace s) -> origin g));
    [|exact H1].
  intros a ap a' Hap Ha. unfold scan_additional_path.
  apply (exc_fold_invariant_in
           (fun s => forall g, g ∈ parsed_files (trace s) -> origin g));
    [|exact Ha].
  intros b file b' Hfile Hb Hstep.
  apply scan_additional_file_spec in Hstep
    as [[_ ->]|[(_ & _ & ->)|(_ & _ & wf & _ & ->)]]; [exact Hb | |].
  - intros g. simpl. rewrite parsed_files_app. simpl. rewrite app_nil_r.
    apply Hb.
  - intros g. rewrite parsed_files_after_additional, elem_of_app,
      list_elem_of_singleton.
    intros [Hg| ->]; [apply Hb, Hg|].
    right. left. unfold additional_files. apply list_elem_of_In, in_flat_map.
    exists ap. split; apply list_elem_of_In; assumption.
Qed.

End Origins.

Section Identifiers.

Lemma replace_slashes_inj (s1 s2 : string) :
  contains_char chr_percent s1 = false ->
  contains_char chr_percent s2 = false ->
  replace_slashes s1 = replace_slashes s2 -> s1 = s2.
Proof.
  revert s2. induction s1 as [|c1 s1 IH]; intros [|c2 s2]; simpl.
  - reflexivity.
  - intros _ _. destruct (Ascii.eqb c2 chr_slash); discriminate.
  - intros _ _. destruct (Ascii.eqb c1 chr_slash); discriminate.
  - destruct (Ascii.eqb c1 chr_percent) eqn:P1; simpl; [discriminate|].
    destruct (Ascii.eqb c2 chr_percent) eqn:P2; simpl; [discriminate|].
    intros H1 H2.
    destruct (Ascii.eqb c1 chr_slash) eqn:S1,
             (Ascii.eqb c2 chr_slash) eqn:S2; simpl.
    + apply Ascii.eqb_eq in S1, S2. subst. intros [= H].
      f_equal. apply IH; assumption.
    + intros [= <- _]. discriminate P2.
    + intros [= -> _]. discriminate P1.
    + intros [= -> H]. f_equal. apply IH; assumption.
Qed.

Lemma replace_slashes_keeps_at_free (s : string) :
  contains_char chr_at s = false ->
  contains_char chr_at (replace_slashes s) = false.
Proof.
  induction s as [|c s IH]; simpl; [reflexivity|].
  destruct (Ascii.eqb c chr_at) eqn:Hc; simpl; [discriminate|].
  intros H. destruct (Ascii.eqb c chr_slash); simpl.
  - apply IH, H.
  - rewrite Hc. apply IH, H.
Qed.

Lemma append_at_inj (a a' b b' : string) :
  contains_char chr_at a = false -> contains_char chr_at a' = false ->
  a +:+ "@" +:+ b = a' +:+ "@" +:+ b' -> a = a' /\ b = b'.
Proof.
  intros Ha Ha' H.
  pose proof (split_first_complete chr_at a b Ha) as H1.
  pose proof (split_first_complete chr_at a' b' Ha') as H2.
  change (a +:+ String chr_at b) with (a +:+ "@" +:+ b) in H1.
  change (a' +:+ String chr_at b') with (a' +:+ "@" +:+ b') in H2.
  rewrite H in H1. rewrite H1 in H2. injection H2 as -> ->. auto.
Qed.

(** X12: two dependencies whose names contain no '@' get the same key
    [name@version] only if they have the same name and version; if the
    names contain no '%' either, they get the same package URL only if they
    have the same name and version. *)
Theorem X12_identifiers_injective (d1 d2 : ActionDependency) :
  contains_char chr_at (name d1) = false ->
  contains_char chr_at (name d2) = false ->
  (dep_key d1 = dep_key d2 ->
   name d1 = name d2 /\ version d1 = version d2) /\
  (contains_char chr_percent (name d1) = false ->
   contains_char chr_percent (name d2) = false ->
   convertToPackageUrl d1 = convertToPackageUrl d2 ->
   name d1 = name d2 /\ version d1 = version d2).
Proof.
  intros A1 A2. split.
  - unfold dep_key. apply append_at_inj; assumption.
  - intros P1 P2. unfold convertToPackageUrl. intros [= H].
    apply append_at_inj in H as [Hn Hv];
      [| apply replace_slashes_keeps_at_free; assumption
       | apply replace_slashes_keeps_at_free; assumption].
    split; [|exact Hv]. apply replace_slashes_inj; assumption.
Qed.

End Identifiers.

Section Discovery.
Variable fs : FileSystem.

Lemma endsWith_append (a b p : string) :
  endsWith b p = true -> endsWith (a +:+ b) p = true.
Proof.
  intros H. induction a as [|c a IH]; [exact H|].
  change (endsWith (String c (a +:+ b)) p = true).
  rewrite endsWith_cons, IH. apply orb_true_r.
Qed.

Lemma canonical_ends_with_last (segs : list string) (n p : string) :
  endsWith n p = true ->
  endsWith ("/" +:+ join_slash (segs ++ [n])) p = true.
Proof.
  intros H. destruct segs as [|seg rest].
  - apply (endsWith_append "/" n), H.
  - rewrite join_slash_snoc by discriminate.
    apply (endsWith_append "/"), endsWith_append, (endsWith_append "/" n), H.
Qed.

Lemma startsWith_refl (s : string) : startsWith s s = true.
Proof.
  unfold startsWith. induction s as [|c s IH]; [reflexivity|].
  simpl. destruct (ascii_dec c c); [exact IH | congruence].
Qed.

Lemma join_slash_app (a b : list string) :
  a <> [] -> b <> [] ->
  join_slash (a ++ b) = join_slash a +:+ "/" +:+ join_slash b.
Proof.
  unfold join_slash. intros Ha Hb.
  induction a as [|seg rest IH]; [congruence|].
  destruct rest as [|seg' rest'].
  - simpl app. apply join_with_cons, Hb.
  - change ((seg :: seg' :: rest') ++ b)
      with (seg :: ((seg' :: rest') ++ b)).
    rewrite join_with_cons by discriminate.
    rewrite IH by discriminate.
    rewrite (join_with_cons "/" seg (seg' :: rest')) by discriminate.
    rewrite !string_append_assoc. reflexivity.
Qed.

Lemma canonical_prefix (a b : list string) :
  startsWith ("/" +:+ join_slash (a ++ b)) ("/" +:+ join_slash a) = true.
Proof.
  destruct a as [|seg rest].
  - apply (isAbsolute_cons (join_slash b)).
  - destruct b as [|n rel].
    + rewrite app_nil_r. apply startsWith_refl.
    + rewrite join_slash_app by discriminate.
      change ("/" +:+ join_slash (seg :: rest) +:+ "/" +:+ join_slash (n :: rel))
        with (("/" +:+ join_slash (seg :: rest))
              +:+ "/" +:+ join_slash (n :: rel)).
      apply startsWith_app, startsWith_refl.
Qed.

Lemma walk_plain_step (above : list Node) (listable : bool)
    (entries : list (string * Node)) (seg : string) (rest : list string) :
  plain seg ->
  walk above (Dir listable entries) (seg :: rest)
  = match find_entry seg entries with
    | Some child => walk (Dir listable entries :: above) child rest
    | None => None
    end.
Proof.
  intros (H1 & H2 & H3 & _). apply String.eqb_neq in H1, H2, H3.
  simpl. rewrite H1, H2, H3. reflexivity.
Qed.

(** Plain segments never look at the directories above. *)
Lemma walk_above (segs : list string) (above : list Node) (cur : Node) :
  Forall plain segs -> walk above cur segs = walk [] cur segs.
Proof.
  revert above cur. induction segs as [|seg rest IH]; intros above cur Hall;
    [reflexivity|].
  inversion Hall as [|? ? Hseg Hrest]; subst.
  destruct cur as [|listable entries|]; try reflexivity.
  rewrite !walk_plain_step by exact Hseg.
  destruct (find_entry seg entries) as [child|]; [|reflexivity].
  rewrite (IH [Dir listable entries] child Hrest). apply IH, Hrest.
Qed.

Lemma walk_app (a b : list string) (above : list Node) (cur : Node) :
  Forall plain a -> Forall plain b ->
  walk above cur (a ++ b)
  = match walk above cur a with
    | Some mid => walk [] mid b
    | None => None
    end.
Proof.
  intros Ha Hb. revert above cur.
  induction a as [|seg rest IH]; intros above cur.
  - apply walk_above, Hb.
  - inversion Ha as [|? ? Hseg Hrest]; subst.
    change ((seg :: rest) ++ b) with (seg :: (rest ++ b)).
    destruct cur as [|listable entries|]; try reflexivity.
    rewrite !walk_plain_step by exact Hseg.
    destruct (find_entry seg entries) as [child|]; [|reflexivity].
    apply IH, Hrest.
Qed.

Lemma well_formed_cons (listable : bool) (n : string) (child : Node)
    (rest : list (string * Node)) :
  well_formed (Dir listable ((n, child) :: rest)) <->
  plain n /\ (n ∉ map fst rest) /\ well_formed child /\
  well_formed (Dir listable rest).
Proof.
  simpl. rewrite Forall_cons, NoDup_cons. tauto.
Qed.

Lemma find_entry_elem (n : string) (entries : list (string * Node))
    (child : Node) :
  find_entry n entries = Some child -> (n, child) ∈ entries.
Proof.
  induction entries as [|[n' c'] rest IH]; simpl; [discriminate|].
  destruct (String.eqb n n') eqn:He.
  - apply String.eqb_eq in He. intros [= ->]. subst. apply list_elem_of_here.
  - intros H. apply list_elem_of_further, IH, H.
Qed.

(** In a well-formed directory every entry has a plain name, a well-formed
    subtree, and is the entry its name is looked up to. *)
Lemma well_formed_entry (listable : bool) (entries : list (string * Node))
    (n : string) (child : Node) :
  well_formed (Dir listable entries) -> (n, child) ∈ entries ->
  plain n /\ well_formed child /\ find_entry n entries = Some child.
Proof.
  induction entries as [|[n' c'] rest IH]; intros Hwf Hin.
  - inversion Hin.
  - apply well_formed_cons in Hwf as (Hn & Hfresh & Hc & Hrest).
    apply elem_of_cons in Hin as [[= -> ->]|Hin].
    + split; [exact Hn | split; [exact Hc|]].
      simpl. rewrite String.eqb_refl. reflexivity.
    + destruct (IH Hrest Hin) as (Hp & Hw & Hfind).
      split; [exact Hp | split; [exact Hw|]]. simpl.
      destruct (String.eqb n n') eqn:He; [|exact Hfind].
      apply String.eqb_eq in He. subst n'. exfalso. apply Hfresh.
      apply list_elem_of_fmap. exists (n, child). split; [reflexivity|exact Hin].
Qed.

Lemma walk_well_formed (segs : list string) (above : list Node)
    (cur x : Node) :
  Forall plain segs -> well_formed cur ->
  walk above cur segs = Some x -> well_formed x.
Proof.
  revert above cur. induction segs as [|seg rest IH]; intros above cur Hall Hwf.
  - intros [= <-]. exact Hwf.
  - inversion Hall as [|? ? Hseg Hrest]; subst.
    destruct cur as [|listable entries|]; try discriminate.
    rewrite walk_plain_step by exact Hseg.
    destruct (find_entry seg entries) as [child|] eqn:Hfind; [|discriminate].
    apply IH; [exact Hrest|].
    apply find_entry_elem in Hfind.
    apply (well_formed_entry listable entries seg child Hwf Hfind).
Qed.

Lemma workflow_files_at_dir (fullPath n : string)
    (sub : list (string * Node)) (f : string) :
  f ∈ workflow_files_at fullPath n (Dir true sub) <->
  exists n' child,
    (n', child) ∈ sub /\
    f ∈ workflow_files_at (path_join fullPath n') n' child.
Proof.
  simpl. induction sub as [|[n' child] rest IH].
  - split; [intros H; inversion H | intros (? & ? & H & _); inversion H].
  - rewrite elem_of_app, IH. split.
    + intros [H|(n1 & c1 & Hin & H)].
      * exists n', child. split; [apply list_elem_of_here | exact H].
      * exists n1, c1. split; [apply list_elem_of_further, Hin | exact H].
    + intros (n1 & c1 & Hin & H).
      apply elem_of_cons in Hin as [[= -> ->]|Hin]; [left; exact H|].
      right. eauto.
Qed.

Lemma workflow_files_in_elem (dirPath : string)
    (entries : list (string * Node)) (f : string) :
  f ∈ workflow_files_in dirPath entries <->
  exists n child,
    (n, child) ∈ entries /\
    f ∈ workflow_files_at (path_join dirPath n) n child.
Proof.
  induction entries as [|[n' child] rest IH]; simpl.
  - split; [intros H; inversion H | intros (? & ? & H & _); inversion H].
  - rewrite elem_of_app, IH. split.
    + intros [H|(n1 & c1 & Hin & H)].
      * exists n', child. split; [apply list_elem_of_here | exact H].
      * exists n1, c1. split; [apply list_elem_of_further, Hin | exact H].
    + intros (n1 & c1 & Hin & H).
      apply elem_of_cons in Hin as [[= -> ->]|Hin]; [left; exact H|].
      right. eauto.
Qed.

(** What the loop returns for an entry of a well-formed tree: paths that
    lead from the entry down to a file, with a workflow suffix. *)
Lemma workflow_files_at_sound (node : Node) :
  forall dsegs n f,
    Forall plain dsegs -> plain n -> well_formed node ->
    f ∈ workflow_files_at ("/" +:+ join_slash (dsegs ++ [n])) n node ->
    exists rel c,
      f = "/" +:+ join_slash (dsegs ++ n :: rel) /\
      Forall plain rel /\
      walk [] node rel = Some (File c) /\
      is_yaml_name f = true.
Proof.
  induction node as [c|listable entries IH|] using Node_nested_ind;
    intros dsegs n f Hd Hn Hwf.
  - simpl. destruct (is_yaml_name n) eqn:Hy; intros Hf; [|inversion Hf].
    apply list_elem_of_singleton in Hf. subst f.
    exists [], c.
    split; [reflexivity | split; [constructor | split; [reflexivity|]]].
    unfold is_yaml_name in *. apply orb_true_iff in Hy.
    apply orb_true_iff.
    destruct Hy as [Hy|Hy]; [left|right];
      apply canonical_ends_with_last, Hy.
  - destruct listable; [|intros Hf; inversion Hf].
    intros Hf. apply workflow_files_at_dir in Hf as (n' & child & Hin & Hf).
    destruct (well_formed_entry true entries n' child Hwf Hin)
      as (Hn' & Hchild & Hfind).
    assert (Forall plain (dsegs ++ [n])) as Hdn.
    { apply Forall_app. split; [exact Hd | constructor; [exact Hn|constructor]]. }
    rewrite path_join_canonical in Hf by assumption.
    rewrite Forall_forall in IH.
    destruct (IH (n', child) Hin (dsegs ++ [n]) n' f Hdn Hn' Hchild Hf)
      as (rel & c & -> & Hrel & Hwalk & Hy).
    exists (n' :: rel), c.
    rewrite <- app_assoc in Hy |- *. simpl app in Hy |- *.
    split; [reflexivity|]. split; [constructor; assumption|].
    split; [|exact Hy].
    rewrite walk_plain_step, Hfind by exact Hn'.
    rewrite walk_above by exact Hrel. exact Hwalk.
  - intros Hf. inversion Hf.
Qed.

(** Looking up an absolute path in normal form walks its segments down from
    the root. *)
Lemma lookup_canonical (segs : list string) :
  Forall plain segs ->
  lookup_path fs ("/" +:+ join_slash segs)
  = match root fs with
    | Dir _ _ => walk [] (root fs) segs
    | _ => None
    end.
Proof.
  intros Hsegs. unfold lookup_path.
  change (String.eqb ("/" +:+ join_slash segs) "") with false. cbv iota.
  change (isAbsolute ("/" +:+ join_slash segs))
    with (isAbsolute (String "/" (join_slash segs))).
  rewrite isAbsolute_cons.
  change (split_slash ("/" +:+ join_slash segs))
    with ("" :: split_slash (join_slash segs)).
  destruct segs as [|seg rest].
  - simpl. destruct (root fs); reflexivity.
  - rewrite split_join_slash;
      [| discriminate | eapply Forall_impl; [exact Hsegs | apply plain_no_slash]].
    destruct (root fs) as [|listable entries|]; reflexivity.
Qed.

(** X13: in a tree whose entry names are plain and distinct, every path
    findWorkflowFiles returns for a directory given in normal form is itself
    an absolute path in normal form below that directory, ends in [.yml] or
    [.yaml], and names a regular file. *)
Theorem X13_findWorkflowFiles_sound (dirPath f : string) :
  well_formed (root fs) -> canonical dirPath ->
  f ∈ findWorkflowFiles fs dirPath ->
  canonical f /\
  startsWith f dirPath = true /\
  (endsWith f ".yml" || endsWith f ".yaml") = true /\
  exists c, lookup_path fs f = Some (File c).
Proof.
  intros Hwf (dsegs & -> & Hd). unfold findWorkflowFiles.
  rewrite lookup_canonical by exact Hd.
  destruct (root fs) as [|rl rentries|] eqn:Hroot;
    try (intros Hf; inversion Hf; fail).
  destruct (walk [] (Dir rl rentries) dsegs) as [[|[|] entries|]|] eqn:Hwalk;
    try (intros Hf; inversion Hf; fail).
  intros Hf.
  pose proof (walk_well_formed dsegs [] _ _ Hd Hwf Hwalk) as Hdir.
  apply workflow_files_in_elem in Hf as (n & child & Hin & Hf).
  destruct (well_formed_entry true entries n child Hdir Hin)
    as (Hn & Hchild & Hfind).
  rewrite path_join_canonical in Hf by assumption.
  destruct (workflow_files_at_sound child dsegs n f Hd Hn Hchild Hf)
    as (rel & c & -> & Hrel & Hdown & Hy).
  assert (Forall plain (n :: rel)) as Hnrel by (constructor; assumption).
  assert (Forall plain (dsegs ++ n :: rel)) as Hall.
  { apply Forall_app. split; assumption. }
  split; [exists (dsegs ++ n :: rel); split; [reflexivity | exact Hall]|].
  split; [apply canonical_prefix|].
  split; [exact Hy|].
  exists c. rewrite lookup_canonical, Hroot by exact Hall.
  rewrite walk_app, Hwalk by assumption.
  rewrite walk_plain_step, Hfind by exact Hn.
  rewrite walk_above by exact Hrel. exact Hdown.
Qed.

End Discovery.

(** ** The example trees again: instances of the properties above *)

Lemma X1_extracted_references_witness :
  exists wf,
    parseWorkflowFile Examples.fs_cycle "/work/repo/.github/workflows/ci.yml"
    = Ok wf /\
    dependencies wf = [Examples.checkout; Examples.checkout] /\
    localActions wf = ["../../actions/a"; "./../../actions/a"] /\
    (forall d, d ∈ dependencies wf ->
       source d = Some (name d +:+ "@" +:+ version d) /\
       name d <> "" /\ contains_char chr_at (name d) = false /\
       version d <> "" /\ has_line_terminator (version d) = false /\
       is_local_prefix (name d +:+ "@" +:+ version d) = false) /\
    (forall p, p ∈ localActions wf ++ callableWorkflows wf ->
       is_local_prefix p = true).
Proof.
  eexists. split; [vm_compute; reflexivity|].
  split; [reflexivity|]. split; [reflexivity|].
  apply (X1_extracted_references Examples.fs_cycle
           "/work/repo/.github/workflows/ci.yml").
  vm_compute. reflexivity.
Defined.

Lemma X2_format_then_classify_witness :
  parseWorkflowUses ("actions/checkout" +:+ "@" +:+ "v4")
  = Some {| u_type := remote; u_name := "actions/checkout";
            u_version := "v4"; u_path := None |} /\
  parseActionUses ("actions/checkout" +:+ "@" +:+ "v4")
  = if startsWith ("actions/checkout" +:+ "@" +:+ "v4") "docker://" then None
    else Some {| u_type := remote; u_name := "actions/checkout";
                 u_version := "v4"; u_path := None |}.
Proof.
  apply (X2_format_then_classify "actions/checkout" "v4").
  - discriminate.
  - reflexivity.
  - discriminate.
  - reflexivity.
  - reflexivity.
Defined.

Lemma X3_composite_check_matches_extraction_witness :
  extract_document (Examples.composite ["actions/cache@v3"; "../b"])
  = extractFromCompositeAction
      (Examples.composite ["actions/cache@v3"; "../b"]) no_extracted /\
  forall wf,
    parseWorkflowFile Examples.fs_cycle "/work/repo/actions/a/action.yml"
    = Ok wf ->
    callableWorkflows wf = [].
Proof.
  refine (proj1 (X3_composite_check_matches_extraction Examples.fs_cycle
                   "/work/repo/actions/a/action.yml"
                   (Examples.composite ["actions/cache@v3"; "../b"]) _) _).
  - vm_compute. reflexivity.
  - vm_compute. reflexivity.
Defined.

Lemma X5_nothing_to_scan_witness :
  scanDependencies Examples.fs_healthy 0 "/work/repo/.github/workflows/ci.yml"
    ["nowhere"] Examples.repo_root
  = Some (Ok []).
Proof.
  apply X5_nothing_to_scan.
  - intros entries. vm_compute. discriminate.
  - intros ap entries Hap. apply list_elem_of_singleton in Hap. subst ap.
    vm_compute. discriminate.
Defined.

Lemma X8_map_is_what_was_found_witness :
  (forall d,
     d ∈ flat_map (dependencies_of Examples.fs_cycle)
           (parsed_files (trace Examples.cycle_result)) ->
     (dep_key d, d) ∈ allDependencies Examples.cycle_result) /\
  (forall k d,
     (k, d) ∈ allDependencies Examples.cycle_result ->
     k = dep_key d /\
     d ∈ flat_map (dependencies_of Examples.fs_cycle)
           (parsed_files (trace Examples.cycle_result))).
Proof.
  apply (X8_map_is_what_was_found Examples.fs_cycle Examples.repo_root 10
           Examples.workflows_dir [] Examples.cycle_result).
  vm_compute. reflexivity.
Defined.

Lemma X9_submitted_count_witness :
  (forall n,
     submitDependencies (fun _ => Ok tt) "work" "repo"
       (allDependencies Examples.cycle_result) "sha" "refs/heads/main" = Ok n ->
     n = size (list_to_set
                 (map dep_key
                    (flat_map (dependencies_of Examples.fs_cycle)
                       (parsed_files (trace Examples.cycle_result))))
               : gset string) /\
     n = size (submission_entries (allDependencies Examples.cycle_result))) /\
  (flat_map (dependencies_of Examples.fs_cycle)
     (parsed_files (trace Examples.cycle_result)) = [] ->
   submitDependencies (fun _ => Ok tt) "work" "repo"
     (allDependencies Examples.cycle_result) "sha" "refs/heads/main" = Ok 0).
Proof.
  apply (X9_submitted_count Examples.fs_cycle Examples.repo_root 10
           Examples.workflows_dir [] Examples.cycle_result).
  vm_compute. reflexivity.
Defined.

Lemma X10_no_read_after_processing_witness :
  ("/work/repo/actions/a/action.yml"
     ∉ parsed_files (skipn 6 (trace Examples.cycle_result))) /\
  ("/work/repo/actions/a/action.yml"
     ∉ checked_files (skipn 6 (trace Examples.cycle_result))).
Proof.
  apply (X10_no_read_after_processing Examples.fs_cycle Examples.repo_root 10
           Examples.workflows_dir [] Examples.cycle_result
           (firstn 5 (trace Examples.cycle_result))).
  - vm_compute. reflexivity.
  - vm_compute. reflexivity.
Defined.

Lemma X11_parsed_files_origin_witness :
  "/work/repo/actions/b/action.yaml"
    ∈ findWorkflowFiles Examples.fs_cycle Examples.workflows_dir \/
  "/work/repo/actions/b/action.yaml"
    ∈ additional_files Examples.fs_cycle Examples.repo_root [] \/
  (canonical "/work/repo/actions/b/action.yaml" /\
   startsWith "/work/repo/actions/b/action.yaml" Examples.repo_root = true).
Proof.
  apply (X11_parsed_files_origin Examples.fs_cycle Examples.repo_root 10
           Examples.workflows_dir [] Examples.cycle_result).
  - vm_compute. reflexivity.
  - apply list_elem_of_In. vm_compute. auto.
Defined.

Lemma X12_identifiers_injective_witness :
  (dep_key Examples.checkout
   = dep_key {| name := "actions/checkout"; version := "v4"; type := action;
                source := None |} ->
   name Examples.checkout = "actions/checkout" /\
   version Examples.checkout = "v4") /\
  (contains_char chr_percent (name Examples.checkout) = false ->
   contains_char chr_percent "actions/checkout" = false ->
   convertToPackageUrl Examples.checkout
   = convertToPackageUrl
       {| name := "actions/checkout"; version := "v4"; type := action;
          source := None |} ->
   name Examples.checkout = "actions/checkout" /\
   version Examples.checkout = "v4").
Proof.
  apply (X12_identifiers_injective Examples.checkout
           {| name := "actions/checkout"; version := "v4"; type := action;
              source := None |}).
  - reflexivity.
  - reflexivity.
Defined.

Lemma X13_findWorkflowFiles_sound_witness :
  canonical "/work/repo/.github/workflows/ci.yml" /\
  startsWith "/work/repo/.github/workflows/ci.yml" Examples.workflows_dir
  = true /\
  (endsWith "/work/repo/.github/workflows/ci.yml" ".yml"
   || endsWith "/work/repo/.github/workflows/ci.yml" ".yaml") = true /\
  exists c,
    lookup_path Examples.fs_cycle "/work/repo/.github/workflows/ci.yml"
    = Some (File c).
Proof.
  apply (X13_findWorkflowFiles_sound Examples.fs_cycle Examples.workflows_dir).
  - cbn.
    repeat first
      [ exact I
      | split
      | apply Forall_nil_2
      | apply Forall_cons_2
      | apply NoDup_nil_2
      | apply NoDup_cons_2
      | discriminate
      | reflexivity
      | (let H := fresh in
         intros H; apply list_elem_of_In in H; simpl in H;
         intuition discriminate) ].
  - exists ["work"; "repo"; ".github"; "workflows"].
    split; [reflexivity|].
    repeat first
      [ apply Forall_nil_2 | apply Forall_cons_2 | split | discriminate
      | reflexivity ].
  - apply list_elem_of_In. vm_compute. auto.
Defined.

Lemma X14_classifiers_agree_outside_docker_witness :
  parseWorkflowUses "invalid" = parseActionUses "invalid" /\
  (is_local_prefix "invalid" = true ->
   parseActionUses "invalid"
   = Some {| u_type := local; u_name := "invalid"; u_version := "";
             u_path := Some "invalid" |}) /\
  (parseActionUses "invalid" = None <->
   is_local_prefix "invalid" = false /\
   forall n r,
     "invalid" = n +:+ "@" +:+ r -> contains_char chr_at n = false ->
     n = "" \/ r = "" \/ has_line_terminator r = true).
Proof.
  apply (X14_classifiers_agree_outside_docker "invalid"). reflexivity.
Defined.
